(** * Batch image compressor: orchestration model

    A shallow embedding of [src/index.js] (the HTTP handlers and the
    handlers of the worker's signals) and of [src/worker.js]
    ([shouldCompress] and [compressAndZip]).

    - The upload area and the output area are finite maps from file name
      to content. A name is taken as a plain file name, for which
      [path.join] only puts the directory in front of it. The archive name
      is built from a label of the request: a statement that needs it to
      name a file of the output directory asks for [Path.plain].
    - The registry [compressionProgress] is a finite map from batch id to
      entry, [batchWorkers] the set of ids with a worker on record.
    - A worker thread is a state machine over the body of
      [compressAndZip]. Each step carries the outcome of the external call
      made at that point (the image codec, the archive library, the file
      system); an exception that no [try] of the worker catches is a step
      of its own.
    - What a worker emits waits in its port, in order, until the main
      thread takes it; requests, worker steps and deliveries interleave
      freely.
    - The progress ratio is computed in doubles, as the rationals they
      denote: the division and the multiplication each round to the
      nearest double, a tie going to the even significand; [Math.round]
      then takes the nearest integer, a half going upward.

    Further on: the sweeps of the two directories at startup, every thirty
    minutes and at shutdown, with the answers of the file system as
    parameters and the clock and the modification times as doubles; the
    signal handlers of the earlier server kept in [src/worker.js]; the two
    earlier workers kept in [src/unnamed/part_000]. *)

From Stdlib Require Import Ascii String ZArith QArith Qround Qpower Lqa.
From Stdlib Require Import Floats.PrimFloat Floats.FloatOps SpecFloat Uint63.
From stdpp Require Import gmap strings list fin_maps.

Local Open Scope string_scope.
Local Open Scope list_scope.
Local Open Scope nat_scope.

(** ** Paths and file names (node's [path] module, on plain names) *)

Module Path.

Fixpoint has_sep (s : string) : bool :=
  match s with
  | EmptyString => false
  | String c s' => Ascii.eqb c "/"%char || has_sep s'
  end.

(** The part of a path after its last separator. *)
Fixpoint basename (s : string) : string :=
  match s with
  | EmptyString => EmptyString
  | String c s' =>
      if has_sep s' then basename s'
      else if Ascii.eqb c "/"%char then s' else s
  end.

(** [split_last_dot s = Some (stem, ext)]: [ext] starts at the last dot. *)
Fixpoint split_last_dot (s : string) : option (string * string) :=
  match s with
  | EmptyString => None
  | String c s' =>
      match split_last_dot s' with
      | Some (stem, ext) => Some (String c stem, ext)
      | None => if Ascii.eqb c "."%char then Some (EmptyString, s) else None
      end
  end.

(** [path.extname]: empty when there is no dot, when the only dot leads the
    name, and for the name [".."]. *)
Definition extname (p : string) : string :=
  match split_last_dot (basename p) with
  | None => ""
  | Some (stem, ext) =>
      if String.eqb stem "" then ""
      else if String.eqb stem "." && String.eqb ext "." then ""
      else ext
  end.

(** [path.parse(p).name]: the base name without its extension. *)
Definition parse_name (p : string) : string :=
  match split_last_dot (basename p) with
  | None => basename p
  | Some (stem, ext) =>
      if String.eqb stem "" then basename p
      else if String.eqb stem "." && String.eqb ext "." then basename p
      else stem
  end.

(** [path.join(dir, name)] for a plain name. *)
Definition join (dir name : string) : string := dir +:+ "/" +:+ name.

(** A name with no separator in it, neither the slash nor the backslash
    (character 092). [path.join] puts such a name directly in the
    directory; a name with a separator can address a file elsewhere, in
    the other area or outside both. *)
Fixpoint plain (s : string) : bool :=
  match s with
  | EmptyString => true
  | String c s' =>
      negb (Ascii.eqb c "/"%char) && negb (Ascii.eqb c "092"%char) && plain s'
  end.

End Path.

(** [String.prototype.toLowerCase] on ASCII letters. *)
Definition lower_ascii (c : ascii) : ascii :=
  let n := nat_of_ascii c in
  if (65 <=? n)%nat && (n <=? 90)%nat then ascii_of_nat (n + 32) else c.

Fixpoint toLowerCase (s : string) : string :=
  match s with
  | EmptyString => EmptyString
  | String c s' => String (lower_ascii c) (toLowerCase s')
  end.

(** worker.js, [shouldCompress]. *)
Definition shouldCompress (fileName : string) : bool :=
  let ext := toLowerCase (Path.extname fileName) in
  String.eqb ext ".jpg" || String.eqb ext ".jpeg" || String.eqb ext ".png".

(** A JavaScript string used as a condition: empty is false. *)
Definition truthy (s : string) : bool := negb (String.eqb s "").

(** ** Data *)

Definition bytes := list Byte.byte.

Inductive Status := Processing | Complete | Error | Failed.

#[global] Instance Status_eq_dec : EqDecision Status.
Proof. solve_decision. Defined.

(** An entry of [compressionProgress]. [zipName] is absent until the
    [complete] message sets it. *)
Record Batch := mkBatch {
  total : nat;
  completed : nat;
  status : Status;
  files : list string;
  zipName : option string
}.

Definition with_completed (n : nat) (b : Batch) : Batch :=
  mkBatch (total b) n (status b) (files b) (zipName b).
Definition with_status (s : Status) (b : Batch) : Batch :=
  mkBatch (total b) (completed b) s (files b) (zipName b).
Definition with_zipName (z : string) (b : Batch) : Batch :=
  mkBatch (total b) (completed b) (status b) (files b) (Some z).

(** What a worker posts with [parentPort.postMessage]. *)
Inductive Message :=
| MsgProgress (completed : nat)
| MsgComplete (zipPath zipName : string)
| MsgError (error : string).

(** What the main thread hears from a [Worker]: a posted message, the
    thread's ['error'] event (an uncaught exception), its ['exit'] event. *)
Inductive Signal :=
| OnMessage (m : Message)
| OnError (err : string)
| OnExit (code : Z).

(** An archive file in the output area. *)
Record ZipFile := mkZip {
  entries : list (string * bytes);
  finalized : bool;
  closed : bool
}.

(** The two storage areas, each keyed by the file's name inside it. A key
    with a path separator in it, which an archive name can have, would
    name a file that another key, or a key of the other area, names as
    well: the statements about the files an operation leaves alone ask
    for plain names ([Path.plain]). *)
Record Disk := mkDisk {
  uploadDir : gmap string bytes;
  tempCompressedDir : gmap string ZipFile
}.

Definition tempCompressedPath : string := "temp_compressed".

Record Settings := mkSettings { maxWidth : Z; maxHeight : Z; quality : Z }.

(** [parseInt(x) || d]: NaN (here [None]) and 0 give the default. *)
Definition int_or (x : option Z) (d : Z) : Z :=
  match x with
  | Some n => if (n =? 0)%Z then d else n
  | None => d
  end.

Record WorkerData := mkWorkerData {
  wd_files : list string;
  wd_settings : Settings;
  wd_batchId : string;
  wd_zipFolderName : option string
}.

(** ** The worker thread (worker.js, [compressAndZip]) *)

(** worker.js lines 22-24. *)
Definition zipName_of (zipFolderName : option string) (batchId : string) : string :=
  match zipFolderName with
  | Some folder =>
      if truthy folder then folder +:+ ".zip"
      else "compressed_images_" +:+ batchId +:+ ".zip"
  | None => "compressed_images_" +:+ batchId +:+ ".zip"
  end.

Definition worker_zipName (wd : WorkerData) : string :=
  zipName_of (wd_zipFolderName wd) (wd_batchId wd).

(** Where [compressAndZip] stands. [Caught] is the state after the outer
    [catch] has posted its error message; [Returned] the state after the
    ['close'] handler has posted [complete]. In [Broken] the loop goes on
    as in [InLoop], but a read stream queued in the archive has failed or
    is going to: nothing in the loop throws for it, and the error it raises
    in the archive, which has no listener yet, ends the thread. *)
Inductive Phase :=
| Spawned
| InLoop (rest : list string)
| Broken (rest : list string)
| AwaitClose
| Returned
| Caught
| Exited.

Record Thread := mkThread {
  workerData : WorkerData;
  phase : Phase;
  completedCount : nat;
  console : list string
}.

Definition spawn (wd : WorkerData) : Thread := mkThread wd Spawned 0 [].

(** The outcome of the external call made at a step of the worker. *)
Inductive WorkerEvent :=
| WOpen (ok : bool)
    (** [createWriteStream] and [archive.pipe]: done, or an exception *)
| WFile (r : option bytes)
    (** the body of the per-file [try] for the next file: for an image,
        [Some buf] is the codec's output and [None] its rejection; for any
        other file [Some _] says that the read stream queued for it
        delivers the file and [None] that it fails. The stream opens the
        file only later, and by then line 76 may have removed it, so it can
        fail for a file that is there at the time of the [try]. *)
| WFinalize (ok : bool)
    (** [await archive.finalize()]: resolved or rejected *)
| WClose
    (** the output stream's ['close'] event *)
| WUncaught (err : string)
    (** an exception nothing catches, such as a stream's ['error'] event
        without a listener or the throw in the archive's ['error'] listener *)
| WExit
    (** the thread runs out of work *).

(** [archive.append(data, {name})], streamed into the open output file.
    An archive that was removed from the output area stays removed. *)
Definition append_entry (zip name : string) (data : bytes) (d : Disk) : Disk :=
  mkDisk (uploadDir d)
         (alter (fun z => mkZip (entries z ++ [(name, data)]) (finalized z) (closed z))
                zip (tempCompressedDir d)).

(** [fs.unlink(path)]. *)
Definition unlink_upload (name : string) (d : Disk) : Disk :=
  mkDisk (delete name (uploadDir d)) (tempCompressedDir d).

Definition unlink_zip (zip : string) (d : Disk) : Disk :=
  mkDisk (uploadDir d) (delete zip (tempCompressedDir d)).

(** worker.js lines 36-72: the per-file [try]/[catch]. The result is the
    disk and what was written to the console. For an image the codec is
    awaited inside the [try], so its rejection is caught at line 69. For
    any other file lines 61-66 create a read stream and queue it in the
    archive: nothing is read and nothing throws there, so the [catch] does
    not run whether the source can be read or not. The entry of a stream
    that delivers is put in the archive at once; a stream that fails
    leaves nothing, and [process_file] records that it is queued. *)
Definition try_file (zip name : string) (r : option bytes) (d : Disk)
  : Disk * list string :=
  if shouldCompress name then
    match r with
    | Some compressedBuffer =>
        (append_entry zip (Path.parse_name name +:+ ".webp") compressedBuffer d, [])
    | None =>
        (d, ["Sharp failed to read " +:+ name +:+ " for compression. Including as is.";
             "Error processing file " +:+ name +:+ ": Sharp Read Failure"])
    end
  else
    match r, uploadDir d !! name with
    | Some _, Some data => (append_entry zip name data d, [])
    | _, _ => (d, [])
    end.

(** Whether the read stream queued for [name] fails: the source is not
    there, or reading it fails. Only a file that is not an image gets a
    stream. *)
Definition stream_fails (name : string) (r : option bytes) (d : Disk) : bool :=
  if shouldCompress name then false
  else
    match r, uploadDir d !! name with
    | Some _, Some _ => false
    | _, _ => true
    end.

Definition is_broken (p : Phase) : bool :=
  match p with Broken _ => true | _ => false end.

(** worker.js lines 32-77: one iteration of the loop. *)
Definition process_file (t : Thread) (name : string) (rest : list string)
    (r : option bytes) (d : Disk) : Thread * Disk * list Signal :=
  let '(d1, out) := try_file (worker_zipName (workerData t)) name r d in
  let n := S (completedCount t) in
  let out2 := if decide (is_Some (uploadDir d1 !! name)) then []
              else ["unlink " +:+ name +:+ ": ENOENT"] in
  let p := if is_broken (phase t) || stream_fails name r d
           then Broken rest else InLoop rest in
  (mkThread (workerData t) p n (console t ++ out ++ out2),
   unlink_upload name d1,
   [OnMessage (MsgProgress n)]).

Definition set_phase (p : Phase) (t : Thread) : Thread :=
  mkThread (workerData t) p (completedCount t) (console t).

(** [compressAndZip], one step. [None]: the event cannot happen here.
    With a failed stream queued, [archive.finalize()] does not resolve and
    the output is never closed: the thread ends by the exception nothing
    catches ([WUncaught]); that the failure comes back as a rejection of
    [finalize], into the outer [catch], is allowed as well. *)
Definition compressAndZip_step (t : Thread) (e : WorkerEvent) (d : Disk)
  : option (Thread * Disk * list Signal) :=
  let zip := worker_zipName (workerData t) in
  match phase t, e with
  | Exited, _ => None
  | _, WUncaught err => Some (set_phase Exited t, d, [OnError err; OnExit 1])
  | Spawned, WOpen true =>
      Some (set_phase (InLoop (wd_files (workerData t))) t,
            mkDisk (uploadDir d) (<[zip := mkZip [] false false]> (tempCompressedDir d)),
            [])
  | Spawned, WOpen false =>
      Some (set_phase Caught t, d, [OnMessage (MsgError "open")])
  | InLoop (name :: rest), WFile r => Some (process_file t name rest r d)
  | Broken (name :: rest), WFile r => Some (process_file t name rest r d)
  | InLoop [], WFinalize true =>
      Some (set_phase AwaitClose t,
            mkDisk (uploadDir d)
                   (alter (fun z => mkZip (entries z) true (closed z)) zip
                          (tempCompressedDir d)),
            [])
  | InLoop [], WFinalize false =>
      Some (set_phase Caught t, d, [OnMessage (MsgError "finalize")])
  | Broken [], WFinalize false =>
      Some (set_phase Caught t, d, [OnMessage (MsgError "finalize")])
  | AwaitClose, WClose =>
      Some (set_phase Returned t,
            mkDisk (uploadDir d)
                   (alter (fun z => mkZip (entries z) (finalized z) true) zip
                          (tempCompressedDir d)),
            [OnMessage (MsgComplete (Path.join tempCompressedPath zip) zip)])
  | Returned, WExit => Some (set_phase Exited t, d, [OnExit 0])
  | Caught, WExit => Some (set_phase Exited t, d, [OnExit 0])
  | _, _ => None
  end.

(** A run of one worker on its own: the signals it emits, in order. *)
Fixpoint compressAndZip_run (t : Thread) (d : Disk) (evs : list WorkerEvent)
  : option (Thread * Disk * list Signal) :=
  match evs with
  | [] => Some (t, d, [])
  | e :: evs' =>
      match compressAndZip_step t e d with
      | None => None
      | Some (t1, d1, out) =>
          match compressAndZip_run t1 d1 evs' with
          | None => None
          | Some (t2, d2, out') => Some (t2, d2, out ++ out')
          end
      end
  end.

(** ** The server (index.js) *)

(** A file of a multipart request, as multer hands it over. *)
Record Upload := mkUpload { originalname : string; content : bytes }.

(** The form fields of [POST /compress], the numbers after [parseInt]. *)
Record Body := mkBody {
  body_maxWidth : option Z;
  body_maxHeight : option Z;
  body_quality : option Z;
  body_zipFolderName : option string
}.

(** A [Worker] object as the main thread holds it: the thread behind it
    and the signals it has emitted that are not yet delivered. *)
Record Worker := mkWorker { thread : Thread; port : list Signal }.

Record World := mkWorld {
  compressionProgress : gmap string Batch;
  batchWorkers : gset string;
  disk : Disk;
  workers : gmap string Worker;
  transfers : list (string * string)
}.

Definition init : World := mkWorld ∅ ∅ (mkDisk ∅ ∅) ∅ [].

Definition set_progress (f : gmap string Batch → gmap string Batch) (w : World) : World :=
  mkWorld (f (compressionProgress w)) (batchWorkers w) (disk w) (workers w) (transfers w).
Definition set_batchWorkers (f : gset string → gset string) (w : World) : World :=
  mkWorld (compressionProgress w) (f (batchWorkers w)) (disk w) (workers w) (transfers w).
Definition set_disk (f : Disk → Disk) (w : World) : World :=
  mkWorld (compressionProgress w) (batchWorkers w) (f (disk w)) (workers w) (transfers w).
Definition set_workers (f : gmap string Worker → gmap string Worker) (w : World) : World :=
  mkWorld (compressionProgress w) (batchWorkers w) (disk w) (f (workers w)) (transfers w).
Definition set_transfers (f : list (string * string) → list (string * string)) (w : World) : World :=
  mkWorld (compressionProgress w) (batchWorkers w) (disk w) (workers w) (f (transfers w)).

Inductive Response :=
| Status400 (text : string)
| Status404 (text : string)
| JsonBatchId (batchId : string)
| JsonProgress (progress : option Z) (st : Status) (totalFiles completedFiles : nat)
| Download (zipPath finalZipName : string)
| JsonSuccess.

(** index.js lines 16-19: every upload is stored under its original name. *)
Definition multer_store (fs : list Upload) (d : Disk) : Disk :=
  mkDisk (foldl (fun m f => <[originalname f := content f]> m) (uploadDir d) fs)
         (tempCompressedDir d).

(** index.js lines 178-193. *)
Definition cleanupBatchUploadedFiles (batchId : string) (w : World) : World :=
  match compressionProgress w !! batchId with
  | None => w
  | Some batchData =>
      set_disk (fun d => foldl (fun d name => unlink_upload name d) d (files batchData)) w
  end.

(** [worker.terminate()]: the thread stops and its exit code is 1. *)
Definition terminate (batchId : string) (w : World) : World :=
  match workers w !! batchId with
  | Some (mkWorker t q) =>
      match phase t with
      | Exited => w
      | _ => set_workers <[batchId := mkWorker (set_phase Exited t) (q ++ [OnExit 1])]> w
      end
  | None => w
  end.

(** index.js lines 98-175. [batchId] is the identifier the handler draws
    from the clock and the random generator. *)
Definition post_compress (batchId : string) (req_files : option (list Upload))
    (body : Body) (w : World) : World * Response :=
  match req_files with
  | None | Some [] => (w, Status400 "No files uploaded.")
  | Some fs =>
      let names := map originalname fs in
      let settings := mkSettings (int_or (body_maxWidth body) 1280)
                                 (int_or (body_maxHeight body) 1280)
                                 (int_or (body_quality body) 80) in
      let wd := mkWorkerData names settings batchId (body_zipFolderName body) in
      let w1 := set_disk (multer_store fs) w in
      let w2 := set_progress <[batchId := mkBatch (length fs) 0 Processing names None]> w1 in
      let w3 := set_workers <[batchId := mkWorker (spawn wd) []]> w2 in
      (set_batchWorkers (union {[batchId]}) w3, JsonBatchId batchId)
  end.

(** index.js lines 136-152. [None]: the handler throws a [TypeError]
    because the entry is gone. *)
Definition on_message (batchId : string) (msg : Message) (w : World) : option World :=
  match compressionProgress w !! batchId with
  | None => None
  | Some b =>
      match msg with
      | MsgProgress n =>
          Some (set_progress <[batchId := with_completed n b]> w)
      | MsgComplete _ zn =>
          Some (set_batchWorkers (fun s => s ∖ {[batchId]})
                  (set_progress <[batchId := with_zipName zn (with_status Complete b)]> w))
      | MsgError _ =>
          Some (set_batchWorkers (fun s => s ∖ {[batchId]})
                  (cleanupBatchUploadedFiles batchId
                     (set_progress <[batchId := with_status Error b]> w)))
      end
  end.

(** index.js lines 154-161. *)
Definition on_error (batchId : string) (w : World) : option World :=
  match compressionProgress w !! batchId with
  | None => None
  | Some b =>
      Some (set_batchWorkers (fun s => s ∖ {[batchId]})
              (cleanupBatchUploadedFiles batchId
                 (set_progress <[batchId := with_status Error b]> w)))
  end.

(** index.js lines 163-172. *)
Definition on_exit (batchId : string) (code : Z) (w : World) : World :=
  let w1 :=
    match compressionProgress w !! batchId with
    | Some b =>
        if negb (code =? 0)%Z && negb (bool_decide (status b = Error)) then
          cleanupBatchUploadedFiles batchId
            (set_progress <[batchId := with_status Failed b]> w)
        else w
    | None => w
    end in
  set_batchWorkers (fun s => s ∖ {[batchId]}) w1.

Definition handle (batchId : string) (s : Signal) (w : World) : option World :=
  match s with
  | OnMessage m => on_message batchId m w
  | OnError _ => on_error batchId w
  | OnExit code => Some (on_exit batchId code w)
  end.

(** ** Doubles

    The numbers of index.js line 203, as the rationals they denote. The
    counts are integers below 2^53 and the ratio is far from both ends of
    the exponent range, so a double is [m * 2^e] with [2^52 <= m < 2^53]. *)

Module Double.
Local Open Scope Q_scope.

(** The integer nearest to [x], a tie going to the even one. *)
Definition nearest_even (x : Q) : Z :=
  let f := Qfloor x in
  match Qcompare (x - inject_Z f) (1 # 2) with
  | Lt => f
  | Gt => (f + 1)%Z
  | Eq => if Z.even f then f else (f + 1)%Z
  end.

(** The exponent of the double nearest to a positive [x]: the [e] with
    [2^52 <= x / 2^e < 2^53]. *)
Definition exponent (x : Q) : Z :=
  let k := (Z.log2 (Qnum x) - Z.log2 (Zpos (Qden x)))%Z in
  if Qle_bool (2 ^ k) x then (k - 52)%Z else (k - 53)%Z.

(** The double nearest to [x]. *)
Definition round (x : Q) : Q :=
  inject_Z (nearest_even (x / 2 ^ exponent x)) * 2 ^ exponent x.

(** [a / b] and [a * b] on doubles. *)
Definition div (a b : Q) : Q := round (a / b).
Definition mul (a b : Q) : Q := round (a * b).

(** [Math.round]: the nearest integer, a half going upward. *)
Definition Math_round (x : Q) : Z := Qfloor (x + (1 # 2)).

End Double.

(** [Math.round((completed / total) * 100)]. [None] stands for the value
    that is not a finite number when [total] is 0. *)
Definition progressPercent (completed total : nat) : option Z :=
  if decide (total = 0) then None
  else Some (Double.Math_round
               (Double.mul (Double.div (inject_Z (Z.of_nat completed))
                                       (inject_Z (Z.of_nat total)))
                           100)).

(** index.js lines 195-211. *)
Definition get_progress (batchId : string) (w : World) : Response :=
  match compressionProgress w !! batchId with
  | None => Status404 "Batch ID not found."
  | Some progressData =>
      JsonProgress (progressPercent (completed progressData) (total progressData))
                   (status progressData) (total progressData) (completed progressData)
  end.

(** index.js lines 213-228: the request, up to the start of the transfer.
    A started transfer is recorded with its batch and archive name. *)
Definition get_download (batchId : string) (w : World) : World * Response :=
  match compressionProgress w !! batchId with
  | None => (w, Status404 "Zip file not found or compression not complete.")
  | Some progressData =>
      match status progressData, zipName progressData with
      | Complete, Some finalZipName =>
          if truthy finalZipName then
            if decide (is_Some (tempCompressedDir (disk w) !! finalZipName)) then
              (set_transfers (fun l => l ++ [(batchId, finalZipName)]) w,
               Download (Path.join tempCompressedPath finalZipName) finalZipName)
            else (w, Status404 "Zip file not found on server disk.")
          else (w, Status404 "Zip file not found or compression not complete.")
      | _, _ => (w, Status404 "Zip file not found or compression not complete.")
      end
  end.

(** index.js lines 228-240: the callback of [res.download]. *)
Definition download_callback (batchId finalZipName : string) (w : World) : World :=
  set_disk (unlink_zip finalZipName) (set_progress (delete batchId) w).

(** index.js lines 244-278. *)
Definition post_cleanup (batchId : string) (w : World) : World * Response :=
  match compressionProgress w !! batchId with
  | None => (w, Status404 "Batch ID not found.")
  | Some progressData =>
      let w1 := if decide (batchId ∈ batchWorkers w)
                then set_batchWorkers (fun s => s ∖ {[batchId]}) (terminate batchId w)
                else w in
      let w2 := cleanupBatchUploadedFiles batchId w1 in
      let w3 := match zipName progressData with
                | Some z => if truthy z then set_disk (unlink_zip z) w2 else w2
                | None => w2
                end in
      (set_progress (delete batchId) w3, JsonSuccess)
  end.

(** ** The system: requests, worker steps and signal deliveries interleaved *)

Inductive Event :=
| PostCompress (batchId : string) (req_files : option (list Upload)) (body : Body)
| GetProgress (batchId : string)
| GetDownload (batchId : string)
| TransferDone (k : nat)
| PostCleanup (batchId : string)
| WorkerStep (batchId : string) (e : WorkerEvent)
| Deliver (batchId : string).

(** One event. [None]: the event cannot happen in this state, or the
    handler it runs throws. A batch id is drawn once: [PostCompress] with an
    id that a worker was already started for does not happen. *)
Definition step (w : World) (ev : Event) : option (World * option Response) :=
  match ev with
  | PostCompress batchId req_files body =>
      match req_files with
      | Some (_ :: _) =>
          if decide (is_Some (workers w !! batchId)) then None
          else let '(w', r) := post_compress batchId req_files body w in Some (w', Some r)
      | _ => let '(w', r) := post_compress batchId req_files body w in Some (w', Some r)
      end
  | GetProgress batchId => Some (w, Some (get_progress batchId w))
  | GetDownload batchId =>
      let '(w', r) := get_download batchId w in Some (w', Some r)
  | TransferDone k =>
      match transfers w !! k with
      | Some (batchId, z) =>
          Some (download_callback batchId z (set_transfers (delete k) w), None)
      | None => None
      end
  | PostCleanup batchId =>
      let '(w', r) := post_cleanup batchId w in Some (w', Some r)
  | WorkerStep batchId e =>
      match workers w !! batchId with
      | Some (mkWorker t q) =>
          match compressAndZip_step t e (disk w) with
          | Some (t', d', out) =>
              Some (set_workers <[batchId := mkWorker t' (q ++ out)]>
                      (set_disk (fun _ => d') w), None)
          | None => None
          end
      | None => None
      end
  | Deliver batchId =>
      match workers w !! batchId with
      | Some (mkWorker t (s :: q)) =>
          match handle batchId s (set_workers <[batchId := mkWorker t q]> w) with
          | Some w' => Some (w', None)
          | None => None
          end
      | _ => None
      end
  end.

(** A run: the final state and the responses, in order. *)
Fixpoint run (w : World) (evs : list Event) : option (World * list (option Response)) :=
  match evs with
  | [] => Some (w, [])
  | ev :: evs' =>
      match step w ev with
      | None => None
      | Some (w1, r) =>
          match run w1 evs' with
          | None => None
          | Some (w2, rs) => Some (w2, r :: rs)
          end
      end
  end.

Definition body0 : Body := mkBody None None None None.


(** A batch of one file whose worker ran to the end, both signals
    delivered: the entry is [Complete]. *)
Definition completed_trace : list Event :=
  [PostCompress "b1" (Some [mkUpload "a.txt" [Byte.x41]]) body0;
   WorkerStep "b1" (WOpen true);
   WorkerStep "b1" (WFile (Some []));
   WorkerStep "b1" (WFinalize true);
   WorkerStep "b1" WClose;
   Deliver "b1";
   Deliver "b1"].

Definition status_of (batchId : string) (r : option (World * list (option Response)))
  : option Status :=
  match r with
  | Some (w, _) => status <$> compressionProgress w !! batchId
  | None => None
  end.

Definition terminal (s : Status) : bool :=
  match s with Processing => false | _ => true end.

(** A registry with one entry, complete, and its archive on disk. *)
Definition one_complete : World :=
  mkWorld {["b1" := mkBatch 1 1 Complete ["a.txt"] (Some "z.zip")]} ∅
          (mkDisk ∅ {["z.zip" := mkZip [("a.txt", [Byte.x41])] true true]}) ∅ [].

(** A registry with one entry, still processing. *)
Definition one_processing : World :=
  set_progress <["b1" := mkBatch 1 0 Processing ["a.txt"] None]> init.

(** ** Signals of a worker run *)

Definition is_complete (s : Signal) : bool :=
  match s with OnMessage (MsgComplete _ _) => true | _ => false end.

(** An error signal: the posted [error] message or the thread's ['error']
    event; the main thread records [Error] for both. *)
Definition is_error (s : Signal) : bool :=
  match s with OnMessage (MsgError _) | OnError _ => true | _ => false end.

(** The failures outside the per-file [try]. *)
Definition fatal (e : WorkerEvent) : bool :=
  match e with WOpen false | WFinalize false | WUncaught _ => true | _ => false end.

Definition progress_values (l : list Signal) : list nat :=
  omap (fun s => match s with OnMessage (MsgProgress n) => Some n | _ => None end) l.

(** The worker has left the body of [compressAndZip] for good. *)
Definition settled (p : Phase) : bool :=
  match p with Returned | Caught | Exited => true | _ => false end.

(** The worker can no longer post [complete]: a failed stream is queued,
    the outer [catch] has run, or the thread has ended. *)
Definition doomed (p : Phase) : bool :=
  match p with Broken _ | Caught | Exited => true | _ => false end.

(** A batch of one text file, and the disk it starts on. *)
Definition wd_text : WorkerData :=
  mkWorkerData ["notes.txt"] (mkSettings 1280 1280 80) "b1" None.

Definition disk_text : Disk := mkDisk {["notes.txt" := [Byte.x01]]} ∅.

(** What a reachable worker state satisfies, given the events and the
    signals so far. *)
Definition worker_inv (wd : WorkerData) (evs : list WorkerEvent) (t : Thread)
    (d : Disk) (sigs : list Signal) : Prop :=
  workerData t = wd
  ∧ progress_values sigs = seq 1 (completedCount t)
  ∧ match phase t with
    | Spawned => completedCount t = 0 ∧ sigs = []
    | InLoop rest | Broken rest =>
        completedCount t + length rest = length (wd_files wd)
        ∧ Forall (fun s => is_error s = false ∧ is_complete s = false) sigs
        ∧ is_Some (tempCompressedDir d !! worker_zipName wd)
    | AwaitClose =>
        completedCount t = length (wd_files wd)
        ∧ Forall (fun s => is_error s = false ∧ is_complete s = false) sigs
        ∧ WFinalize true ∈ evs
        ∧ ∃ z, tempCompressedDir d !! worker_zipName wd = Some z ∧ finalized z = true
    | Returned => completedCount t = length (wd_files wd)
    | Caught | Exited => completedCount t ≤ length (wd_files wd)
    end.

(** A worker for one image, and the disk it starts on. *)
Definition wd_one : WorkerData :=
  mkWorkerData ["a.png"] (mkSettings 1280 1280 80) "b1" None.

Definition disk_one : Disk := mkDisk {["a.png" := [Byte.x01; Byte.x02]]} ∅.

Definition archive_of (wd : WorkerData)
    (r : option (Thread * Disk * list Signal)) : option (list (string * bytes)) :=
  match r with
  | Some (_, d, _) => entries <$> tempCompressedDir d !! worker_zipName wd
  | None => None
  end.

Definition signals_of (r : option (Thread * Disk * list Signal)) : list Signal :=
  match r with
  | Some (_, _, sigs) => sigs
  | None => []
  end.

(** src/unnamed/part_000 lines 35-60: the per-file [try] of the worker
    variant that reads a file that is not an image whole, with
    [fs.readFile], before appending it. *)
Definition try_file_readFile (zip name : string) (r : option bytes) (d : Disk)
  : Disk * list string :=
  if shouldCompress name then
    match r with
    | Some compressedBuffer =>
        (append_entry zip (Path.parse_name name +:+ ".webp") compressedBuffer d, [])
    | None =>
        (d, ["Sharp failed to read " +:+ name +:+ ". Including as is.";
             "Error processing file " +:+ name +:+ ": Sharp Read Failure"])
    end
  else
    match r, uploadDir d !! name with
    | Some _, Some fileBuffer => (append_entry zip name fileBuffer d, [])
    | _, _ => (d, ["Error processing file " +:+ name +:+ ":"])
    end.

(** The codec rejects the only image of the batch. *)
Definition failed_transform_run : list WorkerEvent :=
  [WOpen true; WFile None; WFinalize true; WClose].

(** Two files, one handled, then the client asks for cleanup. *)
Definition cleanup_trace : list Event :=
  [PostCompress "b1" (Some [mkUpload "a.png" [Byte.x01]; mkUpload "b.txt" [Byte.x02]]) body0;
   WorkerStep "b1" (WOpen true);
   WorkerStep "b1" (WFile (Some [Byte.x09]));
   Deliver "b1";
   PostCleanup "b1"].

Definition final_world (r : option (World * list (option Response))) : World :=
  match r with
  | Some (w, _) => w
  | None => init
  end.

Definition responses (r : option (World * list (option Response))) : list (option Response) :=
  match r with
  | Some (_, rs) => rs
  | None => []
  end.

(** ** Invariants of the system *)

(** The progress values waiting in a worker's port rise from the count
    the registry has to the count the worker has. *)
Fixpoint chain (lo : nat) (q : list Signal) (hi : nat) : Prop :=
  match q with
  | [] => lo ≤ hi
  | OnMessage (MsgProgress n) :: q' => lo ≤ n ∧ chain n q' hi
  | _ :: q' => chain lo q' hi
  end.

(** The worker's count against its list of files; the files still to do
    are among them. *)
Definition counted (t : Thread) : Prop :=
  match phase t with
  | Spawned => completedCount t = 0
  | InLoop rest | Broken rest =>
      completedCount t + length rest = length (wd_files (workerData t))
      ∧ rest ⊆ wd_files (workerData t)
  | _ => completedCount t ≤ length (wd_files (workerData t))
  end.

(** Every [complete] message carries the worker's archive name. *)
Definition port_ok (wd : WorkerData) (q : list Signal) : Prop :=
  Forall (fun s => match s with
                   | OnMessage (MsgComplete _ zn) => zn = worker_zipName wd
                   | _ => True
                   end) q.

Definition world_inv (w : World) : Prop :=
  (∀ id wk, workers w !! id = Some wk →
     counted (thread wk) ∧ port_ok (workerData (thread wk)) (port wk))
  ∧ (∀ id b, compressionProgress w !! id = Some b →
       1 ≤ total b
       ∧ total b = length (files b)
       ∧ (status b = Processing → zipName b = None)
       ∧ ∃ wk, workers w !! id = Some wk
               ∧ wd_files (workerData (thread wk)) = files b
               ∧ (∀ z, zipName b = Some z → z = worker_zipName (workerData (thread wk)))
               ∧ chain (completed b) (port wk) (completedCount (thread wk)))
  ∧ (∀ id z, (id, z) ∈ transfers w →
       ∃ wk, workers w !! id = Some wk
             ∧ z = worker_zipName (workerData (thread wk))).

(** The entry of a batch after one of its worker's signals. *)
Definition entry_after (s : Signal) (b : Batch) : Batch :=
  match s with
  | OnMessage (MsgProgress n) => with_completed n b
  | OnMessage (MsgComplete _ zn) => with_zipName zn (with_status Complete b)
  | OnMessage (MsgError _) | OnError _ => with_status Error b
  | OnExit code =>
      if negb (code =? 0)%Z && negb (bool_decide (status b = Error))
      then with_status Failed b else b
  end.

(** The batch an event belongs to. *)
Definition event_batch (w : World) (ev : Event) : option string :=
  match ev with
  | PostCompress batchId _ _ | GetProgress batchId | GetDownload batchId
  | PostCleanup batchId | WorkerStep batchId _ | Deliver batchId => Some batchId
  | TransferDone k => fst <$> transfers w !! k
  end.

(** Two files; the first handled and reported, then the second. *)
Definition progress_trace_1 : list Event :=
  [PostCompress "b1" (Some [mkUpload "a.png" [Byte.x01]; mkUpload "b.txt" [Byte.x02]]) body0;
   WorkerStep "b1" (WOpen true);
   WorkerStep "b1" (WFile (Some [Byte.x09]));
   Deliver "b1"].

Definition progress_trace_2 : list Event :=
  [WorkerStep "b1" (WFile (Some []));
   Deliver "b1"].

(** ** Two batches on the same storage *)

(** The upload names of the batch an event belongs to: those of the
    request for a submission, those given to the batch's worker otherwise. *)
Definition event_names (w : World) (ev : Event) : list string :=
  match ev with
  | PostCompress _ (Some fs) _ => map originalname fs
  | PostCompress _ None _ => []
  | _ =>
      match event_batch w ev with
      | Some id =>
          match workers w !! id with
          | Some wk => wd_files (workerData (thread wk))
          | None => []
          end
      | None => []
      end
  end.

(** The archive name of the batch an event belongs to. *)
Definition event_zip (w : World) (ev : Event) : option string :=
  match ev with
  | PostCompress id _ body => Some (zipName_of (body_zipFolderName body) id)
  | _ =>
      match event_batch w ev with
      | Some id => (fun wk => worker_zipName (workerData (thread wk))) <$> workers w !! id
      | None => None
      end
  end.

(** Two batches upload a file of the same name; the worker of the first
    starts and handles its file. *)
Definition same_name_uploads : list Event :=
  [PostCompress "b1" (Some [mkUpload "a.png" [Byte.x01]]) body0;
   PostCompress "b2" (Some [mkUpload "a.png" [Byte.x02]]) body0].

Definition same_name_trace : list Event :=
  same_name_uploads ++
  [WorkerStep "b1" (WOpen true);
   WorkerStep "b1" (WFile (Some [Byte.x09]))].

(** Two batches with different file names, both opened. *)
Definition distinct_names_trace : list Event :=
  [PostCompress "b1" (Some [mkUpload "a.txt" [Byte.x01]]) body0;
   PostCompress "b2" (Some [mkUpload "c.txt" [Byte.x02]]) body0;
   WorkerStep "b1" (WOpen true);
   WorkerStep "b2" (WOpen true)].

Definition distinct_world : World := final_world (run init distinct_names_trace).

(** * More of the code *)

(** ** File names *)

Fixpoint has_dot (s : string) : bool :=
  match s with
  | EmptyString => false
  | String c s' => Ascii.eqb c "."%char || has_dot s'
  end.

(** ** What the registry knows when signals arrive in order *)

Definition is_progress (s : Signal) : bool :=
  match s with OnMessage (MsgProgress _) => true | _ => false end.

(** How an event leaves the worker of a batch and that batch's entry. *)
Inductive Change (w w' : World) (ev : Event) (id : string) (wk' : Worker) : Prop :=
| Untouched :
    workers w !! id = Some wk' →
    (compressionProgress w' !! id = compressionProgress w !! id
     ∨ compressionProgress w' !! id = None) →
    (is_Some (compressionProgress w' !! id) →
       (id ∈ batchWorkers w' ↔ id ∈ batchWorkers w)) →
    Change w w' ev id wk'
| Created f fs body :
    ev = PostCompress id (Some (f :: fs)) body →
    workers w !! id = None →
    wk' = mkWorker
            (spawn (mkWorkerData (map originalname (f :: fs))
                      (mkSettings (int_or (body_maxWidth body) 1280)
                                  (int_or (body_maxHeight body) 1280)
                                  (int_or (body_quality body) 80))
                      id (body_zipFolderName body))) [] →
    compressionProgress w' !! id
      = Some (mkBatch (length (f :: fs)) 0 Processing (map originalname (f :: fs)) None) →
    id ∈ batchWorkers w' →
    Change w w' ev id wk'
| Stepped e t q t' d' out :
    ev = WorkerStep id e →
    workers w !! id = Some (mkWorker t q) →
    compressAndZip_step t e (disk w) = Some (t', d', out) →
    wk' = mkWorker t' (q ++ out) →
    compressionProgress w' = compressionProgress w →
    batchWorkers w' = batchWorkers w →
    Change w w' ev id wk'
| Delivered s t q :
    ev = Deliver id →
    workers w !! id = Some (mkWorker t (s :: q)) →
    wk' = mkWorker t q →
    compressionProgress w' !! id = entry_after s <$> compressionProgress w !! id →
    (id ∈ batchWorkers w' ↔ id ∈ batchWorkers w ∧ is_progress s = true) →
    Change w w' ev id wk'
| Terminated wk :
    ev = PostCleanup id →
    workers w !! id = Some wk →
    workerData (thread wk') = workerData (thread wk) →
    phase (thread wk') = Exited →
    compressionProgress w' !! id = None →
    Change w w' ev id wk'.

(** No progress message follows a [complete] message. *)
Fixpoint quiet (q : list Signal) : Prop :=
  match q with
  | [] => True
  | OnMessage (MsgComplete _ _) :: q' => progress_values q' = []
  | _ :: q' => quiet q'
  end.

(** The first signal that is not a progress message is [complete] or an
    error, not an exit. *)
Fixpoint announced (q : list Signal) : Prop :=
  match q with
  | [] => False
  | OnMessage (MsgProgress _) :: q' => announced q'
  | OnExit _ :: _ => False
  | _ :: _ => True
  end.

(** An entry against its worker and the signals still on their way.
    [onRecord] says the batch is in [batchWorkers]. *)
Definition entry_inv (onRecord : Prop) (b : Batch) (wk : Worker) : Prop :=
  let t := thread wk in
  let q := port wk in
  let n := length (wd_files (workerData t)) in
  default (completed b) (last (progress_values q)) = completedCount t
  ∧ quiet q
  ∧ (settled (phase t) = false → Forall (fun s => is_progress s = true) q)
  ∧ (phase t = AwaitClose → completedCount t = n)
  ∧ (status b = Complete ∨ Exists (fun s => is_complete s = true) q →
       completedCount t = n ∧ settled (phase t) = true)
  ∧ (status b = Complete → progress_values q = [] ∧ is_Some (zipName b))
  ∧ (status b = Processing →
       onRecord ∧ (settled (phase t) = true → announced q)).

Definition delivery_inv (w : World) : Prop :=
  (∀ id wk, workers w !! id = Some wk → wd_batchId (workerData (thread wk)) = id)
  ∧ (∀ id b wk, compressionProgress w !! id = Some b → workers w !! id = Some wk →
       entry_inv (id ∈ batchWorkers w) b wk).

Definition is_exit (s : Signal) : bool :=
  match s with OnExit _ => true | _ => false end.

(** The last file of a request stored under a given name. *)
Definition last_named (n : string) (fs : list Upload) : option Upload :=
  last (filter (fun u => originalname u = n) fs).

(** ** The machine's doubles, to compare the model of [progressPercent]
    with *)

(** The rational a finite double denotes. *)
Definition of_float (f : float) : option Q :=
  match Prim2SF f with
  | S754_zero _ => Some 0%Q
  | S754_finite s m e =>
      Some ((if s then -1 else 1) * inject_Z (Zpos m) * 2 ^ e)%Q
  | _ => None
  end.

(** [(completed / total) * 100] on the processor. *)
Definition progress_ratio_float (completed total : nat) : float :=
  PrimFloat.mul
    (PrimFloat.div (PrimFloat.of_uint63 (Uint63.of_Z (Z.of_nat completed)))
                   (PrimFloat.of_uint63 (Uint63.of_Z (Z.of_nat total))))
    (PrimFloat.of_uint63 100).

Definition agrees_with_float (completed total : nat) : bool :=
  match of_float (progress_ratio_float completed total) with
  | Some q =>
      Qeq_bool q (Double.mul (Double.div (inject_Z (Z.of_nat completed))
                                         (inject_Z (Z.of_nat total))) 100)
  | None => false
  end.

(** ** What ends up in the archive *)



(** The stream queued for a file that is not an image delivers: the file
    is in the upload area when the stream opens, and the read does not
    fail. For an image there is no stream, and nothing to ask. *)
Definition delivers (uploads : gmap string bytes) (name : string) (r : option bytes)
  : Prop :=
  shouldCompress name = false → is_Some r ∧ is_Some (uploads !! name).

#[global] Instance delivers_dec uploads name r : Decision (delivers uploads name r).
Proof. unfold delivers. apply _. Defined.

(** Every queued stream delivers. Only then does the archive get
    finalized. *)
Definition streams_deliver (uploads : gmap string bytes) (names : list string)
    (rs : list (option bytes)) : Prop :=
  Forall2 (delivers uploads) names rs.

#[global] Instance streams_deliver_dec uploads names rs :
  Decision (streams_deliver uploads names rs).
Proof. unfold streams_deliver. apply _. Defined.


(** The events of a run in which the archive opens, every file gets the
    outcome listed for it, and the archive is finalized and closed. *)
Definition full_run (rs : list (option bytes)) : list WorkerEvent :=
  WOpen true :: map WFile rs ++ [WFinalize true; WClose].

(** A batch of an image and a text file, and the upload area holding both
    next to a file of another batch. *)
Definition wd_two : WorkerData :=
  mkWorkerData ["a.png"; "notes.txt"] (mkSettings 1280 1280 80) "b2" (Some "out").

Definition disk_two : Disk :=
  mkDisk {["a.png" := [Byte.x01]; "notes.txt" := [Byte.x02]; "other.gif" := [Byte.x03]]}
         {["old.zip" := mkZip [] true true]}.

(** ** Sweeps of the two directories (index.js lines 30-96 and 287-317) *)

Definition uploadPath : string := "uploads".

(** What the file system answers to the synchronous calls of a sweep: the
    names [readdirSync] lists for a directory ([None]: it throws), the
    modification time [statSync] reports for a path ([None]: it throws) and
    whether [unlinkSync] of a path that exists goes through. The listing is
    an answer of its own, since a worker thread may remove a file between
    the listing and the visit of its name. *)
Record Fs := mkFs {
  readdirSync : string → option (list string);
  statSync : string → option float;
  unlinkSync : string → bool
}.

(** [maxAge] of the periodic sweep, in milliseconds, as the double it is. *)
Definition maxAge : float := PrimFloat.mul (PrimFloat.mul 30 60) 1000.

(** [now - stats.mtimeMs > maxAge], in doubles. *)
Definition too_old (now mtimeMs : float) : bool :=
  PrimFloat.ltb maxAge (PrimFloat.sub now mtimeMs).

(** The line [cleanupDirectory] writes for a file it could not remove. *)
Definition failed_to_delete (directory file : string) : string :=
  "Failed to delete " +:+ Path.join directory file +:+ ":".

(** The line a periodic pass writes for a file it removed. *)
Definition deleted_old (kind file : string) : string :=
  "Deleted old " +:+ kind +:+ " file: " +:+ file.

Section Sweep.
Context {A : Type}.
Variable fs : Fs.
Variable directory : string.

(** [fs.unlinkSync(filePath)]: the directory afterwards, [None] when it
    throws. A name that is not there throws. *)
Definition unlink_sync (file : string) (dir : gmap string A) : option (gmap string A) :=
  match dir !! file with
  | Some _ =>
      if unlinkSync fs (Path.join directory file) then Some (delete file dir) else None
  | None => None
  end.

(** [fs.statSync(filePath).mtimeMs]. *)
Definition stat_sync (file : string) (dir : gmap string A) : option float :=
  match dir !! file with
  | Some _ => statSync fs (Path.join directory file)
  | None => None
  end.

(** index.js lines 33-40: the [forEach] of [cleanupDirectory], with the
    [try] around each removal. *)
Fixpoint cleanup_each (files : list string) (dir : gmap string A)
  : gmap string A * list string :=
  match files with
  | [] => (dir, [])
  | file :: rest =>
      match unlink_sync file dir with
      | Some dir1 => cleanup_each rest dir1
      | None =>
          let '(dir', out) := cleanup_each rest dir in
          (dir', failed_to_delete directory file :: out)
      end
  end.

(** index.js lines 30-45. The result is the directory and what was written
    to the console. *)
Definition cleanupDirectory (dir : gmap string A) : gmap string A * list string :=
  match readdirSync fs directory with
  | Some files =>
      let '(dir', out) := cleanup_each files dir in
      (dir', out ++ ["Cleaned up directory: " +:+ directory])
  | None => (dir, ["Failed to read directory " +:+ directory +:+ ":"])
  end.

(** index.js lines 69-76 and 84-91: the [forEach] of a periodic pass. No
    [try] stands inside it, so the first call that throws ends it; the
    boolean says whether one did. *)
Fixpoint sweep_each (now : float) (kind : string) (files : list string)
    (dir : gmap string A) : gmap string A * list string * bool :=
  match files with
  | [] => (dir, [], false)
  | file :: rest =>
      match stat_sync file dir with
      | None => (dir, [], true)
      | Some mtimeMs =>
          if too_old now mtimeMs then
            match unlink_sync file dir with
            | None => (dir, [], true)
            | Some dir1 =>
                let '(dir', out, threw) := sweep_each now kind rest dir1 in
                (dir', deleted_old kind file :: out, threw)
            end
          else sweep_each now kind rest dir
      end
  end.

(** index.js lines 67-79 and 82-94: one [try] of the periodic callback. *)
Definition periodic_pass (now : float) (kind : string) (dir : gmap string A)
  : gmap string A * list string :=
  let failed := ["Error during periodic cleanup of " +:+ directory +:+ ":"] in
  match readdirSync fs directory with
  | Some files =>
      let '(dir', out, threw) := sweep_each now kind files dir in
      (dir', out ++ (if threw then failed else []))
  | None => (dir, failed)
  end.

End Sweep.

(** The two calls that [cleanupOnStart] and the shutdown handlers share
    (index.js lines 56-57, 297-298 and 313-314). *)
Definition cleanupDirectories (fs : Fs) (d : Disk) : Disk * list string :=
  let '(u, out1) := cleanupDirectory fs uploadPath (uploadDir d) in
  let '(t, out2) := cleanupDirectory fs tempCompressedPath (tempCompressedDir d) in
  (mkDisk u t, out1 ++ out2).

(** index.js lines 54-58. *)
Definition cleanupOnStart (fs : Fs) (d : Disk) : Disk * list string :=
  let '(d', out) := cleanupDirectories fs d in
  (d', "Performing startup cleanup..." :: out).

(** index.js lines 62-95: the callback that [startPeriodicCleanup] hands to
    [setInterval]; [now] is what [Date.now()] returns. *)
Definition periodicCleanup (fs : Fs) (now : float) (d : Disk) : Disk * list string :=
  let '(u, out1) := periodic_pass fs uploadPath now "upload" (uploadDir d) in
  let '(t, out2) :=
    periodic_pass fs tempCompressedPath now "compressed" (tempCompressedDir d) in
  (mkDisk u t, out1 ++ out2).

(** index.js lines 287-301 and 303-317: the handler of [SIGINT] and of
    [SIGTERM], up to [process.exit]. The [forEach] over [batchWorkers]
    visits each id on record once; the lines it writes to the console are
    left out. *)
Definition shutdown (fs : Fs) (w : World) : World :=
  let w1 := foldl (fun w batchId => terminate batchId w) w (elements (batchWorkers w)) in
  set_disk (fun d => (cleanupDirectories fs d).1) w1.

(** Whether a visit of [file] by the periodic pass finds it older than
    [maxAge]. *)
Definition old_at (fs : Fs) (directory : string) (now : float) (file : string) : bool :=
  match statSync fs (Path.join directory file) with
  | Some mtimeMs => too_old now mtimeMs
  | None => false
  end.

(** The listing names every file of the directory and each can be
    removed. *)
Definition removable {A} (fs : Fs) (directory : string) (files : list string)
    (dir : gmap string A) : Prop :=
  map_Forall (fun n _ => n ∈ files ∧ unlinkSync fs (Path.join directory n) = true) dir.

(** The conditions under which the visit of [file] by a periodic pass goes
    through: the file is there, its [stat] answers, and it can be removed
    when it is found too old. *)
Definition visit_ok {A} (fs : Fs) (directory : string) (now : float)
    (dir : gmap string A) (file : string) : Prop :=
  is_Some (dir !! file)
  ∧ is_Some (statSync fs (Path.join directory file))
  ∧ (old_at fs directory now file = true →
     unlinkSync fs (Path.join directory file) = true).

(** A file system that lists the three uploads and the one archive of
    [disk_two], reports [a.png] as written at time 0 and everything else at
    time 5000000, and lets every file be removed. *)
Definition fs_two : Fs :=
  mkFs (fun directory =>
          if String.eqb directory uploadPath
          then Some ["a.png"; "notes.txt"; "other.gif"]
          else Some ["old.zip"])
       (fun filePath =>
          if String.eqb filePath "uploads/a.png" then Some 0%float
          else Some 5000000%float)
       (fun _ => true).

(** The same, with a listing that still names a file a worker has removed
    since, and an upload that cannot be removed. *)
Definition fs_stale : Fs :=
  mkFs (fun directory =>
          if String.eqb directory uploadPath
          then Some ["notes.txt"; "gone.png"; "a.png"]
          else Some ["old.zip"])
       (fun filePath =>
          if String.eqb filePath "uploads/a.png" then Some 0%float
          else Some 5000000%float)
       (fun filePath => negb (String.eqb filePath "uploads/other.gif")).

(** A batch of two files is stopped by a shutdown after its first file. *)
Definition shutdown_trace : list Event :=
  [PostCompress "b1" (Some [mkUpload "a.png" [Byte.x01]; mkUpload "b.txt" [Byte.x02]]) body0;
   WorkerStep "b1" (WOpen true);
   WorkerStep "b1" (WFile (Some [Byte.x09]))].

Definition fs_shutdown : Fs :=
  mkFs (fun directory =>
          if String.eqb directory uploadPath
          then Some ["b.txt"]
          else Some ["compressed_images_b1.zip"])
       (fun _ => None)
       (fun _ => true).

(** ** The handlers of the earlier server (src/worker.js lines 156-179)

    The server as it was before [batchWorkers] and the removal of uploads
    on failure were added. [None]: the handler throws a [TypeError]. *)

(** src/worker.js lines 156-167. *)
Definition on_message_v1 (batchId : string) (msg : Message) (w : World) : option World :=
  match compressionProgress w !! batchId with
  | None => None
  | Some b =>
      match msg with
      | MsgProgress n => Some (set_progress <[batchId := with_completed n b]> w)
      | MsgComplete _ zn =>
          Some (set_progress <[batchId := with_zipName zn (with_status Complete b)]> w)
      | MsgError _ => Some (set_progress <[batchId := with_status Error b]> w)
      end
  end.

(** src/worker.js lines 169-172. *)
Definition on_error_v1 (batchId : string) (w : World) : option World :=
  match compressionProgress w !! batchId with
  | None => None
  | Some b => Some (set_progress <[batchId := with_status Error b]> w)
  end.

(** src/worker.js lines 174-179: the entry is read without a check when
    the code is not 0. *)
Definition on_exit_v1 (batchId : string) (code : Z) (w : World) : option World :=
  if (code =? 0)%Z then Some w
  else
    match compressionProgress w !! batchId with
    | None => None
    | Some b =>
        if bool_decide (status b = Error) then Some w
        else Some (set_progress <[batchId := with_status Failed b]> w)
    end.

Definition handle_v1 (batchId : string) (s : Signal) (w : World) : option World :=
  match s with
  | OnMessage m => on_message_v1 batchId m w
  | OnError _ => on_error_v1 batchId w
  | OnExit code => on_exit_v1 batchId code w
  end.

(** ** The worker that removes the uploads at the close of the archive
    (src/unnamed/part_000 lines 13-81) *)

(** part_000 lines 30-64: one iteration of the loop. The upload stays
    where it is; its path is kept in [filesToCleanup]. *)
Definition process_file_deferred (t : Thread) (name : string) (rest : list string)
    (r : option bytes) (d : Disk) : Thread * Disk * list Signal :=
  let '(d1, out) := try_file_readFile (worker_zipName (workerData t)) name r d in
  let n := S (completedCount t) in
  (mkThread (workerData t) (InLoop rest) n (console t ++ out),
   d1,
   [OnMessage (MsgProgress n)]).

(** part_000 lines 69-71: the loop over [filesToCleanup]. *)
Fixpoint unlink_all (names : list string) (d : Disk) : Disk * list string :=
  match names with
  | [] => (d, [])
  | name :: rest =>
      let out := if decide (is_Some (uploadDir d !! name)) then []
                 else ["unlink " +:+ name +:+ ": ENOENT"] in
      let '(d', out') := unlink_all rest (unlink_upload name d) in
      (d', out ++ out')
  end.

(** part_000 lines 68-73: the handler of [close]. By then the loop has put
    the path of every file of the batch in [filesToCleanup]. *)
Definition close_deferred (t : Thread) (d : Disk) : Thread * Disk * list Signal :=
  let zip := worker_zipName (workerData t) in
  let d1 := mkDisk (uploadDir d)
                   (alter (fun z => mkZip (entries z) (finalized z) true) zip
                          (tempCompressedDir d)) in
  let '(d2, out) := unlink_all (wd_files (workerData t)) d1 in
  (mkThread (workerData t) Returned (completedCount t) (console t ++ out),
   d2,
   [OnMessage (MsgComplete (Path.join tempCompressedPath zip) zip)]).

(** [compressAndZip] of part_000 lines 13-81, one step. *)
Definition compressAndZip_deferred_step (t : Thread) (e : WorkerEvent) (d : Disk)
  : option (Thread * Disk * list Signal) :=
  let zip := worker_zipName (workerData t) in
  match phase t, e with
  | Exited, _ => None
  | _, WUncaught err => Some (set_phase Exited t, d, [OnError err; OnExit 1])
  | Spawned, WOpen true =>
      Some (set_phase (InLoop (wd_files (workerData t))) t,
            mkDisk (uploadDir d) (<[zip := mkZip [] false false]> (tempCompressedDir d)),
            [])
  | Spawned, WOpen false =>
      Some (set_phase Caught t, d, [OnMessage (MsgError "open")])
  | InLoop (name :: rest), WFile r => Some (process_file_deferred t name rest r d)
  | InLoop [], WFinalize true =>
      Some (set_phase AwaitClose t,
            mkDisk (uploadDir d)
                   (alter (fun z => mkZip (entries z) true (closed z)) zip
                          (tempCompressedDir d)),
            [])
  | InLoop [], WFinalize false =>
      Some (set_phase Caught t, d, [OnMessage (MsgError "finalize")])
  | AwaitClose, WClose => Some (close_deferred t d)
  | Returned, WExit => Some (set_phase Exited t, d, [OnExit 0])
  | Caught, WExit => Some (set_phase Exited t, d, [OnExit 0])
  | _, _ => None
  end.

Fixpoint compressAndZip_deferred_run (t : Thread) (d : Disk) (evs : list WorkerEvent)
  : option (Thread * Disk * list Signal) :=
  match evs with
  | [] => Some (t, d, [])
  | e :: evs' =>
      match compressAndZip_deferred_step t e d with
      | None => None
      | Some (t1, d1, out) =>
          match compressAndZip_deferred_run t1 d1 evs' with
          | None => None
          | Some (t2, d2, out') => Some (t2, d2, out ++ out')
          end
      end
  end.

(** The two workers side by side: same data, place in the body and count,
    same output area, no stream of the present worker has failed; of the
    upload area the present worker has removed the files [seen] that the
    loop is through with. *)
Definition deferred_rel (tA : Thread) (dA : Disk) (tC : Thread) (dC : Disk) : Prop :=
  workerData tA = workerData tC
  ∧ phase tA = phase tC
  ∧ is_broken (phase tC) = false
  ∧ completedCount tA = completedCount tC
  ∧ tempCompressedDir dA = tempCompressedDir dC
  ∧ ∃ seen : list string,
      (phase tC = Spawned → seen = [])
      ∧ (∀ rest, phase tC = InLoop rest → wd_files (workerData tC) = seen ++ rest)
      ∧ (phase tC = AwaitClose → seen = wd_files (workerData tC))
      ∧ seen ⊆ wd_files (workerData tC)
      ∧ ∀ n, uploadDir dC !! n
             = if decide (n ∈ seen) then None else uploadDir dA !! n.

(** The files a worker has still to go through, and the outcomes that a
    list of events holds for them, in order. *)
Definition todo (t : Thread) : list string :=
  match phase t with
  | Spawned => wd_files (workerData t)
  | InLoop rest | Broken rest => rest
  | _ => []
  end.

Definition file_outcomes (evs : list WorkerEvent) : list (option bytes) :=
  omap (fun e => match e with WFile r => Some r | _ => None end) evs.

(** In a run over [evs], no stream queued for a file of [names] fails. *)
Definition no_stream_fails (uploads : gmap string bytes) (names : list string)
    (evs : list WorkerEvent) : Prop :=
  Forall (fun p => delivers uploads p.1 p.2) (zip names (file_outcomes evs)).

#[global] Instance no_stream_fails_dec uploads names evs :
  Decision (no_stream_fails uploads names evs).
Proof. unfold no_stream_fails. apply _. Defined.

(** A text file whose read fails, then finalize and close. *)
Definition failed_read_run : list WorkerEvent :=
  [WOpen true; WFile None; WFinalize true; WClose].

Definition is_close (e : WorkerEvent) : bool :=
  match e with WClose => true | _ => false end.

(** ** The worker that sends every file to the codec
    (src/unnamed/part_000 lines 91-149) *)

(** part_000 lines 114-128: the codec's promise with its [then] and
    [catch]. [r] is the codec's answer, for whatever file. *)
Definition try_file_webp (zip name : string) (r : option bytes) (d : Disk)
  : Disk * list string :=
  match r with
  | Some compressedBuffer =>
      (append_entry zip (Path.parse_name name +:+ ".webp") compressedBuffer d, [])
  | None => (d, ["Error compressing " +:+ name +:+ ":"])
  end.

(** part_000 lines 108-133: one iteration of the loop. *)
Definition process_file_webp (t : Thread) (name : string) (rest : list string)
    (r : option bytes) (d : Disk) : Thread * Disk * list Signal :=
  let '(d1, out) := try_file_webp (worker_zipName (workerData t)) name r d in
  let n := S (completedCount t) in
  let out2 := if decide (is_Some (uploadDir d1 !! name)) then []
              else ["unlink " +:+ name +:+ ": ENOENT"] in
  (mkThread (workerData t) (InLoop rest) n (console t ++ out ++ out2),
   unlink_upload name d1,
   [OnMessage (MsgProgress n)]).

(** [compressAndZip] of part_000 lines 91-149, one step. *)
Definition compressAndZip_webp_step (t : Thread) (e : WorkerEvent) (d : Disk)
  : option (Thread * Disk * list Signal) :=
  let zip := worker_zipName (workerData t) in
  match phase t, e with
  | Exited, _ => None
  | _, WUncaught err => Some (set_phase Exited t, d, [OnError err; OnExit 1])
  | Spawned, WOpen true =>
      Some (set_phase (InLoop (wd_files (workerData t))) t,
            mkDisk (uploadDir d) (<[zip := mkZip [] false false]> (tempCompressedDir d)),
            [])
  | Spawned, WOpen false =>
      Some (set_phase Caught t, d, [OnMessage (MsgError "open")])
  | InLoop (name :: rest), WFile r => Some (process_file_webp t name rest r d)
  | InLoop [], WFinalize true =>
      Some (set_phase AwaitClose t,
            mkDisk (uploadDir d)
                   (alter (fun z => mkZip (entries z) true (closed z)) zip
                          (tempCompressedDir d)),
            [])
  | InLoop [], WFinalize false =>
      Some (set_phase Caught t, d, [OnMessage (MsgError "finalize")])
  | AwaitClose, WClose =>
      Some (set_phase Returned t,
            mkDisk (uploadDir d)
                   (alter (fun z => mkZip (entries z) (finalized z) true) zip
                          (tempCompressedDir d)),
            [OnMessage (MsgComplete (Path.join tempCompressedPath zip) zip)])
  | Returned, WExit => Some (set_phase Exited t, d, [OnExit 0])
  | Caught, WExit => Some (set_phase Exited t, d, [OnExit 0])
  | _, _ => None
  end.

Fixpoint compressAndZip_webp_run (t : Thread) (d : Disk) (evs : list WorkerEvent)
  : option (Thread * Disk * list Signal) :=
  match evs with
  | [] => Some (t, d, [])
  | e :: evs' =>
      match compressAndZip_webp_step t e d with
      | None => None
      | Some (t1, d1, out) =>
          match compressAndZip_webp_run t1 d1 evs' with
          | None => None
          | Some (t2, d2, out') => Some (t2, d2, out ++ out')
          end
      end
  end.

(** The same place in the body, with the same data and count, all the
    files still to do being images, so that no stream has been queued. *)
Definition webp_rel (tB tC : Thread) : Prop :=
  workerData tB = workerData tC
  ∧ phase tB = phase tC
  ∧ completedCount tB = completedCount tC
  ∧ match phase tC with
    | Spawned => Forall (fun n => shouldCompress n = true) (wd_files (workerData tC))
    | InLoop rest => Forall (fun n => shouldCompress n = true) rest
    | Broken _ => False
    | _ => True
    end.

(** A batch of two images. *)
Definition wd_images : WorkerData :=
  mkWorkerData ["a.png"; "b.JPG"] (mkSettings 1280 1280 80) "b3" None.

Definition disk_images : Disk :=
  mkDisk {["a.png" := [Byte.x01]; "b.JPG" := [Byte.x02]]} ∅.

(** ** A request served from end to end *)

(** The outcomes listed for the uploaded files hold no failed read of a
    file that is not an image. *)
Definition reads_succeed (fs : list Upload) (rs : list (option bytes)) : Prop :=
  Forall2 (fun u r => shouldCompress (originalname u) = false → is_Some r) fs rs.

#[global] Instance reads_succeed_dec fs rs : Decision (reads_succeed fs rs).
Proof. unfold reads_succeed. apply _. Defined.





(** * Properties *)

Example shouldCompress_png : shouldCompress "photo.PNG" = true.
Proof. reflexivity. Qed.
Example shouldCompress_txt : shouldCompress "notes.txt" = false.
Proof. reflexivity. Qed.
Example shouldCompress_dotfile : shouldCompress ".png" = false.
Proof. reflexivity. Qed.
Example parse_name_ex : Path.parse_name "a.b.jpg" = "a.b".
Proof. reflexivity. Qed.

(** Three files, the progress read after each: 33, 67, 100. *)
Example progressPercent_thirds :
  progressPercent 1 3 = Some 33%Z
  ∧ progressPercent 2 3 = Some 67%Z
  ∧ progressPercent 3 3 = Some 100%Z.
Proof. vm_compute. by split_and!. Qed.

(** 23 files of 40: the ratio is 0.575, and in doubles 0.575 * 100 is
    57.49999999999999, so the answer is 57 where the exact ratio gives
    57.5 and 58. *)
Example progressPercent_23_of_40 : progressPercent 23 40 = Some 57%Z.
Proof. vm_compute. reflexivity. Qed.

(** [a.png], [b.txt], [c.jpg]: the archive holds [a.webp], [b.txt] and
    [c.webp], in that order, and the uploads are gone. *)
Example three_files_archive :
  let wd := mkWorkerData ["a.png"; "b.txt"; "c.jpg"] (mkSettings 800 600 70) "b1" None in
  let d := mkDisk {["a.png" := [Byte.x01]; "b.txt" := [Byte.x02]; "c.jpg" := [Byte.x03]]} ∅ in
  let r := compressAndZip_run (spawn wd) d
             [WOpen true; WFile (Some [Byte.x0a]); WFile (Some []);
              WFile (Some [Byte.x0c]); WFinalize true; WClose] in
  archive_of wd r
    = Some [("a.webp", [Byte.x0a]); ("b.txt", [Byte.x02]); ("c.webp", [Byte.x0c])]
  ∧ progress_values (signals_of r) = [1; 2; 3]
  ∧ (match r with Some (_, d', _) => uploadDir d' = ∅ | None => False end).
Proof. split_and!; vm_compute; reflexivity. Qed.


(** ** Archive name (worker.js lines 22-26) *)

Lemma truthy_spec (s : string) : truthy s = true ↔ s ≠ "".
Proof.
  unfold truthy. destruct (String.eqb_spec s ""); simpl; split; congruence.
Qed.

(** C8, as the code has it: a supplied, non-empty folder name is used as it
    is, character for character, with [.zip] appended; an absent or empty
    one gives [compressed_images_<batchId>.zip]. The open step creates the
    archive under that name and the [complete] message carries it. *)
Theorem zipName_verbatim_or_default (batchId : string) :
  (∀ folder, folder ≠ "" → zipName_of (Some folder) batchId = folder +:+ ".zip")
  ∧ zipName_of (Some "") batchId = "compressed_images_" +:+ batchId +:+ ".zip"
  ∧ zipName_of None batchId = "compressed_images_" +:+ batchId +:+ ".zip"
  ∧ zipName_of (Some "vacation") batchId = "vacation.zip"
  ∧ (∀ files settings folder d c l,
       let wd := mkWorkerData files settings batchId folder in
       let zn := zipName_of folder batchId in
       (∃ t', compressAndZip_step (spawn wd) (WOpen true) d =
                Some (t', mkDisk (uploadDir d)
                               (<[zn := mkZip [] false false]> (tempCompressedDir d)), []))
       ∧ (∃ t' d', compressAndZip_step (mkThread wd AwaitClose c l) WClose d =
                Some (t', d', [OnMessage (MsgComplete (Path.join tempCompressedPath zn) zn)]))).
Proof.
  repeat split.
  - intros folder Hne. unfold zipName_of.
    apply truthy_spec in Hne. by rewrite Hne.
  - eexists. reflexivity.
  - do 2 eexists. reflexivity.
Qed.

(** C8 as stated fails: an empty folder name is supplied, yet the archive is
    not named [.zip]; and a name with a path separator is not sanitized. *)
Lemma zipName_empty_folder_counterexample :
  zipName_of (Some "") "42" = "compressed_images_42.zip"
  ∧ zipName_of (Some "") "42" ≠ "" +:+ ".zip"
  ∧ zipName_of (Some "../x") "42" = "../x.zip"
  ∧ Path.has_sep (zipName_of (Some "../x") "42") = true.
Proof. repeat split; try reflexivity. discriminate. Qed.

Lemma zipName_verbatim_or_default_witness :
  "holiday 2024" ≠ "" ∧ zipName_of (Some "holiday 2024") "42" = "holiday 2024.zip".
Proof.
  split; [discriminate|].
  apply (proj1 (zipName_verbatim_or_default "42") "holiday 2024"). discriminate.
Defined.


(** ** Download (index.js lines 213-241) *)

(** C7. [GET /download/:batchId] starts a transfer exactly when the entry
    exists, its status is [Complete], its archive name is set (and not
    empty) and the archive is in the output area; in every other case it
    answers 404 and changes nothing. The callback of the transfer removes
    the archive and the entry, after which the same request answers 404. *)
Theorem download_streams_once (w : World) (batchId : string) :
  match get_download batchId w with
  | (w', Download zipPath name) =>
      (∃ b, compressionProgress w !! batchId = Some b ∧ status b = Complete
            ∧ zipName b = Some name ∧ name ≠ ""
            ∧ is_Some (tempCompressedDir (disk w) !! name))
      ∧ zipPath = Path.join tempCompressedPath name
      ∧ w' = set_transfers (fun l => l ++ [(batchId, name)]) w
  | (w', Status404 _) =>
      w' = w
      ∧ ¬ (∃ b name, compressionProgress w !! batchId = Some b ∧ status b = Complete
            ∧ zipName b = Some name ∧ name ≠ ""
            ∧ is_Some (tempCompressedDir (disk w) !! name))
  | _ => False
  end
  ∧ (∀ w0 name,
       let w1 := download_callback batchId name w0 in
       compressionProgress w1 !! batchId = None
       ∧ tempCompressedDir (disk w1) !! name = None
       ∧ ∃ text, get_download batchId w1 = (w1, Status404 text)).
Proof.
  split.
  - unfold get_download.
    destruct (compressionProgress w !! batchId) as [b|] eqn:Hb.
    2: { split; [done|]. intros (b & n & Hb' & _). discriminate. }
    destruct (status b) eqn:Hs;
      try (split; [done|]; intros (b' & n & Hb' & Hs' & _); congruence).
    destruct (zipName b) as [n|] eqn:Hz.
    2: { split; [done|]. intros (b' & n & Hb' & _ & Hz' & _). congruence. }
    destruct (truthy n) eqn:Ht.
    2: { split; [done|]. intros (b' & n' & Hb' & _ & Hz' & Hne & _).
         apply truthy_spec in Hne. congruence. }
    destruct (decide (is_Some (tempCompressedDir (disk w) !! n))) as [Hf|Hf].
    + split_and!; [|done|done].
      exists b. split_and!; try done. by apply truthy_spec.
    + split; [done|]. intros (b' & n' & Hb' & _ & Hz' & _ & Hf').
      apply Hf. congruence.
  - intros w0 name w1. subst w1. unfold download_callback. simpl.
    rewrite !lookup_delete_eq. split_and!; try done.
    unfold get_download. simpl. rewrite lookup_delete_eq. eauto.
Qed.

Lemma download_streams_once_witness :
  ∃ text,
    get_download "b1" (download_callback "b1" "z.zip" one_complete)
    = (download_callback "b1" "z.zip" one_complete, Status404 text).
Proof.
  exact (proj2 (proj2 (proj2 (download_streams_once one_complete "b1")
                        one_complete "z.zip"))).
Defined.


(** ** Worker signals and the recorded status (index.js lines 136-172) *)

Lemma cleanupBatchUploadedFiles_progress (batchId : string) (w : World) :
  compressionProgress (cleanupBatchUploadedFiles batchId w) = compressionProgress w.
Proof.
  unfold cleanupBatchUploadedFiles.
  by destruct (compressionProgress w !! batchId).
Qed.

Lemma cleanupBatchUploadedFiles_workers (batchId : string) (w : World) :
  workers (cleanupBatchUploadedFiles batchId w) = workers w.
Proof.
  unfold cleanupBatchUploadedFiles.
  by destruct (compressionProgress w !! batchId).
Qed.

(** C3, as the code has it. For an entry that exists: a progress message
    never changes the status; an exit changes it, to [Failed], exactly when
    the code is not 0 and the status is not [Error]; a [complete] message and
    an error (posted or thrown) set the status whatever it was. *)
Theorem status_after_signal (w : World) (batchId : string) (b : Batch) :
  compressionProgress w !! batchId = Some b →
  (∀ n, ∃ w', on_message batchId (MsgProgress n) w = Some w'
        ∧ status <$> compressionProgress w' !! batchId = Some (status b))
  ∧ (∀ code, status <$> compressionProgress (on_exit batchId code w) !! batchId
        = Some (if decide (code ≠ 0%Z ∧ status b ≠ Error) then Failed else status b))
  ∧ (∀ zp zn, ∃ w', on_message batchId (MsgComplete zp zn) w = Some w'
        ∧ status <$> compressionProgress w' !! batchId = Some Complete)
  ∧ (∀ e, ∃ w', on_message batchId (MsgError e) w = Some w'
        ∧ status <$> compressionProgress w' !! batchId = Some Error)
  ∧ (∃ w', on_error batchId w = Some w'
        ∧ status <$> compressionProgress w' !! batchId = Some Error).
Proof.
  intros Hb. split_and!.
  - intros n. unfold on_message. rewrite Hb. eexists. split; [done|].
    simpl. by rewrite lookup_insert_eq.
  - intros code. unfold on_exit. rewrite Hb.
    destruct (decide (code ≠ 0%Z ∧ status b ≠ Error)) as [[Hc He]|Hn].
    + apply Z.eqb_neq in Hc. rewrite Hc.
      rewrite bool_decide_eq_false_2 by done. simpl.
      rewrite cleanupBatchUploadedFiles_progress. simpl.
      by rewrite lookup_insert_eq.
    + destruct (Z.eqb_spec code 0) as [->|Hc]; simpl.
      * by rewrite Hb.
      * destruct (decide (status b = Error)) as [He|He].
        -- rewrite bool_decide_eq_true_2 by done. simpl. by rewrite Hb.
        -- exfalso. by apply Hn.
  - intros zp zn. unfold on_message. rewrite Hb. eexists. split; [done|].
    simpl. by rewrite lookup_insert_eq.
  - intros e. unfold on_message. rewrite Hb. eexists. split; [done|].
    simpl. rewrite cleanupBatchUploadedFiles_progress. simpl.
    by rewrite lookup_insert_eq.
  - unfold on_error. rewrite Hb. eexists. split; [done|].
    simpl. rewrite cleanupBatchUploadedFiles_progress. simpl.
    by rewrite lookup_insert_eq.
Qed.

Lemma status_after_signal_witness :
  compressionProgress one_processing !! "b1" = Some (mkBatch 1 0 Processing ["a.txt"] None)
  ∧ status <$> compressionProgress (on_exit "b1" 1 one_processing) !! "b1" = Some Failed.
Proof.
  assert (H : compressionProgress one_processing !! "b1"
              = Some (mkBatch 1 0 Processing ["a.txt"] None))
    by (vm_compute; reflexivity).
  split; [exact H|].
  destruct (status_after_signal one_processing "b1" _ H) as (_ & He & _).
  exact (He 1%Z).
Defined.

(** C3 as stated fails: a later signal does change a terminal status. The
    batch below is [Complete]; an exception thrown in the worker afterwards
    (worker.js lines 86-88 throw from a listener) reaches the ['error']
    handler, which records [Error]; and a non-zero exit heard while the
    status is [Complete] records [Failed]. *)
Lemma terminal_status_overwritten :
  status_of "b1" (run init completed_trace) = Some Complete
  ∧ terminal Complete = true
  ∧ status_of "b1" (run init (completed_trace ++
        [WorkerStep "b1" (WUncaught "archive error"); Deliver "b1"])) = Some Error
  ∧ (∀ w r, run init completed_trace = Some (w, r) →
        status <$> compressionProgress (on_exit "b1" 1 w) !! "b1" = Some Failed).
Proof.
  split_and!; try (vm_compute; reflexivity).
  intros w r H. vm_compute in H. injection H as <- _. vm_compute. reflexivity.
Qed.

(** ** Runs of one worker (worker.js, [compressAndZip]) *)

Lemma compressAndZip_run_app (t : Thread) (d : Disk) (e1 e2 : list WorkerEvent) :
  compressAndZip_run t d (e1 ++ e2) =
  match compressAndZip_run t d e1 with
  | Some (t1, d1, o1) =>
      match compressAndZip_run t1 d1 e2 with
      | Some (t2, d2, o2) => Some (t2, d2, o1 ++ o2)
      | None => None
      end
  | None => None
  end.
Proof.
  revert t d. induction e1 as [|e e1 IH]; intros t d; simpl.
  - by destruct (compressAndZip_run t d e2) as [[[??]?]|].
  - destruct (compressAndZip_step t e d) as [[[t1 d1] o]|]; [|done].
    rewrite IH. destruct (compressAndZip_run t1 d1 e1) as [[[t2 d2] o1]|]; [|done].
    destruct (compressAndZip_run t2 d2 e2) as [[[t3 d3] o2]|]; [|done].
    by rewrite app_assoc.
Qed.

Lemma compressAndZip_run_snoc (t : Thread) (d : Disk) (evs : list WorkerEvent)
    (e : WorkerEvent) t2 d2 sigs :
  compressAndZip_run t d (evs ++ [e]) = Some (t2, d2, sigs) →
  ∃ t1 d1 o1 o2, compressAndZip_run t d evs = Some (t1, d1, o1)
    ∧ compressAndZip_step t1 e d1 = Some (t2, d2, o2) ∧ sigs = o1 ++ o2.
Proof.
  rewrite compressAndZip_run_app. destruct (compressAndZip_run t d evs) as [[[t1 d1] o1]|]; [|done].
  simpl. destruct (compressAndZip_step t1 e d1) as [[[t3 d3] o2]|] eqn:Hs; [|done].
  intros [= <- <- <-]. exists t1, d1, o1, o2. rewrite app_nil_r. by split_and!.
Qed.

Lemma progress_values_app (l1 l2 : list Signal) :
  progress_values (l1 ++ l2) = progress_values l1 ++ progress_values l2.
Proof. apply omap_app. Qed.

Lemma try_file_uploadDir zip name r d :
  uploadDir (try_file zip name r d).1 = uploadDir d.
Proof.
  unfold try_file. destruct (shouldCompress name), r; simpl; try done;
    by destruct (uploadDir d !! name).
Qed.

Lemma try_file_zip_present zip name r d z' :
  is_Some (tempCompressedDir d !! z') →
  is_Some (tempCompressedDir (try_file zip name r d).1 !! z').
Proof.
  intros H. unfold try_file.
  destruct (shouldCompress name), r; simpl; try done;
    try destruct (uploadDir d !! name); simpl; try done;
    rewrite lookup_alter; case_decide; subst; try done;
    destruct H as [z ->]; by eexists.
Qed.

(** One step keeps the invariant of a worker's run. *)
Lemma compressAndZip_step_inv wd evs t d sigs e t' d' out :
  worker_inv wd evs t d sigs →
  compressAndZip_step t e d = Some (t', d', out) →
  worker_inv wd (evs ++ [e]) t' d' (sigs ++ out).
Proof.
  intros (Hwd & Hpv & Hph) Hstep. unfold compressAndZip_step in Hstep.
  unfold worker_inv. rewrite progress_values_app.
  assert (Hfile : ∀ name rest,
    completedCount t + length (name :: rest) = length (wd_files wd) →
    Forall (fun s => is_error s = false ∧ is_complete s = false) sigs →
    is_Some (tempCompressedDir d !! worker_zipName wd) →
    ∀ r, process_file t name rest r d = (t', d', out) →
    workerData t' = wd
    ∧ progress_values sigs ++ progress_values out = seq 1 (completedCount t')
    ∧ match phase t' with
      | Spawned => completedCount t' = 0 ∧ sigs ++ out = []
      | InLoop rest0 | Broken rest0 =>
          completedCount t' + length rest0 = length (wd_files wd)
          ∧ Forall (fun s => is_error s = false ∧ is_complete s = false) (sigs ++ out)
          ∧ is_Some (tempCompressedDir d' !! worker_zipName wd)
      | AwaitClose =>
          completedCount t' = length (wd_files wd)
          ∧ Forall (fun s => is_error s = false ∧ is_complete s = false) (sigs ++ out)
          ∧ WFinalize true ∈ evs ++ [e]
          ∧ ∃ z, tempCompressedDir d' !! worker_zipName wd = Some z ∧ finalized z = true
      | Returned => completedCount t' = length (wd_files wd)
      | Caught | Exited => completedCount t' ≤ length (wd_files wd)
      end).
  { intros name rest Hc Hsig Hz r Hpf. unfold process_file in Hpf.
    destruct (try_file (worker_zipName (workerData t)) name r d) as [d1 o] eqn:Ht.
    assert (Hloop : completedCount t' + length rest = length (wd_files wd)
                    ∧ Forall (fun s => is_error s = false ∧ is_complete s = false)
                        (sigs ++ out)
                    ∧ is_Some (tempCompressedDir d' !! worker_zipName wd)).
    { simplify_eq. simpl in *. split_and!.
      - lia.
      - apply Forall_app. split; [done|]. by repeat constructor.
      - pose proof (try_file_zip_present (worker_zipName (workerData t)) name r d
                      (worker_zipName (workerData t)) Hz) as Hz'.
        by rewrite Ht in Hz'. }
    split_and!.
    - by simplify_eq.
    - simplify_eq. simpl. rewrite Hpv.
      change (1 :: seq 2 (completedCount t)) with (seq 1 (S (completedCount t))).
      by rewrite seq_S.
    - simplify_eq. simpl in *.
      by destruct (is_broken (phase t) || stream_fails name r d). }
  destruct (phase t) as [|rest|rest| | | |] eqn:Hp; try done.
  - (* Spawned *)
    destruct Hph as [Hc ->].
    destruct e as [[]|r|[]| |err|]; simplify_eq; simpl;
      rewrite ?app_nil_r, ?Hpv; split_and!; try done; try lia.
    rewrite lookup_insert_eq. by eexists.
  - (* InLoop *)
    destruct Hph as (Hc & Hsig & Hz).
    destruct e as [[]|r|[]| |err|]; destruct rest as [|name rest];
      try (injection Hstep as Hstep; by eapply Hfile);
      simplify_eq;
      simpl in *; rewrite ?app_nil_r, ?Hpv; try (split_and!; try done; lia).
    (* finalize *)
    split_and!; try done; [lia| |].
    + set_solver.
    + destruct Hz as [z Hz]. rewrite lookup_alter, decide_True by done.
      rewrite Hz. simpl. by eexists.
  - (* Broken *)
    destruct Hph as (Hc & Hsig & Hz).
    destruct e as [[]|r|[]| |err|]; destruct rest as [|name rest];
      try (injection Hstep as Hstep; by eapply Hfile);
      simplify_eq;
      simpl in *; rewrite ?app_nil_r, ?Hpv; split_and!; try done; lia.
  - (* AwaitClose *)
    destruct e as [[]|r|[]| |err|]; simplify_eq; simpl;
      rewrite ?app_nil_r, ?Hpv; split_and!; try done; lia.
  - destruct e as [[]|r|[]| |err|]; simplify_eq; simpl;
      rewrite ?app_nil_r, ?Hpv; split_and!; try done; lia.
  - destruct e as [[]|r|[]| |err|]; simplify_eq; simpl;
      rewrite ?app_nil_r, ?Hpv; split_and!; try done; lia.
Qed.

Lemma compressAndZip_run_inv wd d evs t d' sigs :
  compressAndZip_run (spawn wd) d evs = Some (t, d', sigs) →
  worker_inv wd evs t d' sigs.
Proof.
  revert t d' sigs. induction evs as [|e evs IH] using rev_ind; intros t d' sigs H.
  - simpl in H. simplify_eq. by split_and!.
  - apply compressAndZip_run_snoc in H as (t1 & d1 & o1 & o2 & Hrun & Hstep & ->).
    eapply compressAndZip_step_inv; eauto.
Qed.

(** After the outer [catch], after [complete], and after the thread's end,
    nothing but an exit code is emitted. *)
Lemma settled_step t e d t' d' out :
  settled (phase t) = true →
  compressAndZip_step t e d = Some (t', d', out) →
  settled (phase t') = true ∧ Forall (fun s => is_complete s = false) out.
Proof.
  unfold compressAndZip_step. intros Hs Hstep.
  destruct (phase t), e as [[]|r|[]| |err|]; simplify_eq; simpl;
    split; try done; by repeat constructor.
Qed.

Lemma settled_run t d evs t' d' out :
  settled (phase t) = true →
  compressAndZip_run t d evs = Some (t', d', out) →
  Forall (fun s => is_complete s = false) out.
Proof.
  revert t d out. induction evs as [|e evs IH]; intros t d out Hs H; simpl in H.
  - simplify_eq. constructor.
  - destruct (compressAndZip_step t e d) as [[[t1 d1] o]|] eqn:Hstep; [|done].
    destruct (compressAndZip_run t1 d1 evs) as [[[t2 d2] o2]|] eqn:Hrun; [|done].
    simplify_eq. destruct (settled_step _ _ _ _ _ _ Hs Hstep) as [Hs1 Ho].
    apply Forall_app. split; [done|]. by eapply IH.
Qed.

(** A [complete] message leaves a worker only at the ['close'] event of a
    finalized archive, and no error signal precedes it. *)
Lemma complete_step wd evs t d sigs e t' d' out :
  worker_inv wd evs t d sigs →
  compressAndZip_step t e d = Some (t', d', out) →
  Exists (fun s => is_complete s = true) out →
  e = WClose ∧ WFinalize true ∈ evs
  ∧ (∃ z, tempCompressedDir d' !! worker_zipName wd = Some z
          ∧ finalized z = true ∧ closed z = true)
  ∧ Forall (fun s => is_error s = false) (sigs ++ out).
Proof.
  intros (Hwd & Hpv & Hph) Hstep Hex. unfold compressAndZip_step in Hstep.
  destruct (phase t) as [|rest|rest| | | |] eqn:Hp; try done;
    destruct e as [[]|r|[]| |err|]; try destruct rest as [|name rest];
    simplify_eq; simpl in *;
    try (by repeat (apply Exists_cons in Hex as [Hex|Hex]; [done|]);
            apply Exists_nil in Hex);
    try (unfold process_file in Hstep;
         destruct (try_file (worker_zipName (workerData t)) name r d) as [d1 o];
         simplify_eq;
         by repeat (apply Exists_cons in Hex as [Hex|Hex]; [done|]);
            apply Exists_nil in Hex).
  destruct Hph as (_ & Hsig & Hfin & z & Hz & Hf).
  split_and!; try done.
  - rewrite lookup_alter, decide_True by done. rewrite Hz. simpl. by eexists.
  - apply Forall_app. split.
    + eapply Forall_impl; [exact Hsig|]. by intros ? [? _].
    + by repeat constructor.
Qed.

(** C4. In every run of the worker: a [complete] message is emitted only by
    the ['close'] event of the output, after a successful finalize, with the
    archive file finalized and closed; no [complete] follows an error
    signal; and every failure outside the per-file [try] (open, finalize,
    an uncaught exception) emits an error signal, after which no
    [complete] is emitted. *)
Theorem complete_after_close_never_after_error
    wd d evs t1 d1 o1 e t2 d2 o2 :
  compressAndZip_run (spawn wd) d evs = Some (t1, d1, o1) →
  compressAndZip_step t1 e d1 = Some (t2, d2, o2) →
  (Exists (fun s => is_complete s = true) o2 →
     e = WClose ∧ WFinalize true ∈ evs
     ∧ (∃ z, tempCompressedDir d2 !! worker_zipName wd = Some z
             ∧ finalized z = true ∧ closed z = true))
  ∧ (∀ pre s post, o1 ++ o2 = pre ++ s :: post → is_complete s = true →
       Forall (fun x => is_error x = false) pre)
  ∧ (fatal e = true →
       Exists (fun s => is_error s = true) o2
       ∧ Forall (fun s => is_complete s = false) o2
       ∧ ∀ evs' t3 d3 o3, compressAndZip_run t2 d2 evs' = Some (t3, d3, o3) →
           Forall (fun s => is_complete s = false) o3).
Proof.
  intros Hrun Hstep. split_and!.
  - intros Hex. pose proof (compressAndZip_run_inv _ _ _ _ _ _ Hrun) as Hinv.
    destruct (complete_step _ _ _ _ _ _ _ _ _ Hinv Hstep Hex) as (? & ? & ? & _).
    done.
  - assert (Hall : compressAndZip_run (spawn wd) d (evs ++ [e]) = Some (t2, d2, o1 ++ o2)).
    { rewrite compressAndZip_run_app, Hrun. simpl. rewrite Hstep. by rewrite app_nil_r. }
    clear Hrun Hstep. revert Hall. generalize (o1 ++ o2). generalize (evs ++ [e]).
    clear. intros evs. revert t2 d2.
    induction evs as [|e evs IH] using rev_ind; intros t2 d2 sigs Hall pre s post Heq Hs.
    { simpl in Hall. simplify_eq. by destruct pre. }
    apply compressAndZip_run_snoc in Hall as (t1 & d1 & o1 & o2 & Hrun & Hstep & ->).
    destruct (decide (Exists (fun s => is_complete s = true) o2)) as [Hex|Hnex].
    + pose proof (compressAndZip_run_inv _ _ _ _ _ _ Hrun) as Hinv.
      destruct (complete_step _ _ _ _ _ _ _ _ _ Hinv Hstep Hex) as (_ & _ & _ & Hfa).
      rewrite Heq in Hfa. by apply Forall_app in Hfa as [? _].
    + assert (Hs' : s ∈ o1 ∧ ∃ post', o1 = pre ++ s :: post') .
      { apply not_Exists_Forall in Hnex; [|intros ?; apply _].
        revert Heq Hnex. clear -Hs. revert post.
        induction o2 as [|x o2 IHo] using rev_ind; intros post Heq Hnex.
        - rewrite app_nil_r in Heq. subst. split; [set_solver|eauto].
        - apply Forall_app in Hnex as [Hn1 Hn2].
          destruct post as [|y post _] using rev_ind.
          + rewrite app_assoc in Heq. apply app_inj_tail in Heq as [_ ->].
            exfalso. exact (proj1 (Forall_singleton _ _) Hn2 Hs).
          + rewrite app_assoc, app_comm_cons, app_assoc in Heq.
            apply app_inj_tail in Heq as [Heq _].
            by eapply IHo. }
      destruct Hs' as [_ [post' ->]]. by eapply IH.
  - intros Hf. pose proof (compressAndZip_run_inv _ _ _ _ _ _ Hrun) as (Hwd & _ & Hph).
    assert (Hs : settled (phase t2) = true
                 ∧ Exists (fun s => is_error s = true) o2
                 ∧ Forall (fun s => is_complete s = false) o2).
    { unfold compressAndZip_step in Hstep.
      destruct (phase t1) as [|rest|rest| | | |]; try done;
        destruct e as [[]|r|[]| |err|]; try done; try destruct rest as [|name rest];
        simplify_eq; simpl; split_and!; try done;
        try (by repeat constructor);
        try (by apply Exists_cons; left). }
    destruct Hs as (Hs & He & Hc). split_and!; try done.
    intros evs' t3 d3 o3 Hrun'. by eapply settled_run.
Qed.

Lemma complete_after_close_never_after_error_witness :
  ∃ t1 d1 o1 t2 d2 o2,
    compressAndZip_run (spawn wd_one) disk_one
      [WOpen true; WFile (Some [Byte.x09]); WFinalize true] = Some (t1, d1, o1)
    ∧ compressAndZip_step t1 WClose d1 = Some (t2, d2, o2)
    ∧ ∀ pre s post, o1 ++ o2 = pre ++ s :: post → is_complete s = true →
        Forall (fun x => is_error x = false) pre.
Proof.
  do 6 eexists. split; [vm_compute; reflexivity|]. split; [vm_compute; reflexivity|].
  eapply (complete_after_close_never_after_error wd_one disk_one
            [WOpen true; WFile (Some [Byte.x09]); WFinalize true] _ _ _ WClose).
  - vm_compute. reflexivity.
  - vm_compute. reflexivity.
Defined.

(** Once a failed stream is queued, or the outer [catch] has run, or the
    thread has ended, no [complete] is posted any more, and the thread
    leaves the body of [compressAndZip] only with an error signal. *)
Lemma doomed_step t e d t' d' out :
  doomed (phase t) = true →
  compressAndZip_step t e d = Some (t', d', out) →
  doomed (phase t') = true
  ∧ Forall (fun s => is_complete s = false) out
  ∧ (settled (phase t') = true →
       settled (phase t) = true ∨ Exists (fun s => is_error s = true) out).
Proof.
  unfold compressAndZip_step, process_file. intros Hd Hstep.
  destruct (phase t) as [|rest|rest| | | |], e as [[]|r|[]| |err|];
    try destruct rest as [|name rest]; simplify_eq; simpl;
    try (split_and!; [done|by repeat constructor|intros _; first [by left|right; by repeat constructor]]).
  destruct (try_file (worker_zipName (workerData t)) name r d) as [d1 o].
  simplify_eq. simpl. split_and!; [done|by repeat constructor|done].
Qed.

Lemma doomed_run t d evs t' d' sigs :
  doomed (phase t) = true →
  compressAndZip_run t d evs = Some (t', d', sigs) →
  doomed (phase t') = true
  ∧ Forall (fun s => is_complete s = false) sigs
  ∧ (settled (phase t') = true →
       settled (phase t) = true ∨ Exists (fun s => is_error s = true) sigs).
Proof.
  revert t d sigs. induction evs as [|e evs IH]; intros t d sigs Hd Hrun; simpl in Hrun.
  - simplify_eq. split_and!; [done|constructor|by left].
  - destruct (compressAndZip_step t e d) as [[[t1 d1] o1]|] eqn:Hstep; [|done].
    destruct (compressAndZip_run t1 d1 evs) as [[[t2 d2] o2]|] eqn:Hrest; [|done].
    simplify_eq. destruct (doomed_step _ _ _ _ _ _ Hd Hstep) as (Hd1 & Hc1 & Hs1).
    destruct (IH _ _ _ Hd1 Hrest) as (Hd2 & Hc2 & Hs2).
    split_and!; [done|by apply Forall_app| ].
    intros Hs. destruct (Hs2 Hs) as [Hs'|Hex].
    + destruct (Hs1 Hs') as [?|Hex]; [by left|right]. apply Exists_app. by left.
    + right. apply Exists_app. by right.
Qed.

(** C6. Every file is counted once: in every run of the worker the
    progress messages are 1, 2, ... up to the number of files handled. An
    image the codec rejects is caught by the per-file [try]: the failure is
    logged, nothing is appended and the loop goes on. A file that is not an
    image and whose source cannot be read is not caught: nothing throws
    inside the [try], which only queues a read stream, so nothing is
    logged there; the file is counted, the loop goes on, and from then on
    the worker never posts [complete]; it leaves [compressAndZip] only
    with an error signal, so the batch is aborted. *)
Theorem unreadable_source_aborts_batch wd d evs t d' sigs :
  compressAndZip_run (spawn wd) d evs = Some (t, d', sigs) →
  progress_values sigs = seq 1 (completedCount t)
  ∧ completedCount t ≤ length (wd_files wd)
  ∧ (∀ name rest, phase t = InLoop (name :: rest) → shouldCompress name = true →
       ∃ t2 d2,
         compressAndZip_step t (WFile None) d'
           = Some (t2, d2, [OnMessage (MsgProgress (S (completedCount t)))])
         ∧ phase t2 = InLoop rest
         ∧ tempCompressedDir d2 = tempCompressedDir d'
         ∧ length (console t) < length (console t2))
  ∧ (∀ name rest r, phase t = InLoop (name :: rest) → shouldCompress name = false →
       r = None ∨ uploadDir d' !! name = None →
       ∃ t2 d2,
         compressAndZip_step t (WFile r) d'
           = Some (t2, d2, [OnMessage (MsgProgress (S (completedCount t)))])
         ∧ phase t2 = Broken rest
         ∧ tempCompressedDir d2 = tempCompressedDir d'
         ∧ (∀ line, line ∈ console t2 →
              line ∈ console t ∨ line = "unlink " +:+ name +:+ ": ENOENT")
         ∧ ∀ evs' t3 d3 sigs',
             compressAndZip_run t2 d2 evs' = Some (t3, d3, sigs') →
             Forall (fun s => is_complete s = false) sigs'
             ∧ phase t3 ≠ AwaitClose ∧ phase t3 ≠ Returned
             ∧ (settled (phase t3) = true →
                  Exists (fun s => is_error s = true) sigs')).
Proof.
  intros Hrun. destruct (compressAndZip_run_inv _ _ _ _ _ _ Hrun) as (Hwd & Hpv & Hph).
  split_and!; [done| | |].
  - destruct (phase t); try lia; destruct Hph; lia.
  - intros name rest Hp Hs. unfold compressAndZip_step, process_file, try_file, stream_fails.
    rewrite Hp, Hs. simpl. do 2 eexists. split_and!; try done.
    simpl. rewrite !length_app. simpl. lia.
  - intros name rest r Hp Hs Hfail.
    unfold compressAndZip_step, process_file. rewrite Hp. simpl.
    assert (Htry : try_file (worker_zipName (workerData t)) name r d' = (d', [])
                   ∧ stream_fails name r d' = true).
    { unfold try_file, stream_fails. rewrite Hs.
      destruct Hfail as [->|Hu]; [done|]. rewrite Hu. by destruct r. }
    destruct Htry as [-> ->]. do 2 eexists. split_and!; try done.
    + simpl. intros line Hin.
      apply elem_of_app in Hin as [Hin|Hin]; [by left|right].
      case_decide; [by apply elem_of_nil in Hin|].
      by apply list_elem_of_singleton in Hin.
    + intros evs' t3 d3 sigs' Hrun'.
      pose proof (fun H => doomed_run _ _ _ _ _ _ H Hrun') as Hdr. simpl in Hdr.
      destruct (Hdr eq_refl) as (Hd & Hc & Hset).
      split_and!; try done.
      * intros H. by rewrite H in Hd.
      * intros H. by rewrite H in Hd.
      * intros Hst. by destruct (Hset Hst).
Qed.

Lemma unreadable_source_aborts_batch_witness :
  ∃ t2 d2,
    compressAndZip_step (mkThread wd_text (InLoop ["notes.txt"]) 0 []) (WFile None)
        (mkDisk (uploadDir disk_text) {["compressed_images_b1.zip" := mkZip [] false false]})
      = Some (t2, d2, [OnMessage (MsgProgress 1)])
    ∧ phase t2 = Broken []
    ∧ compressAndZip_step t2 (WFinalize true) d2 = None
    ∧ signals_of (compressAndZip_run t2 d2 [WUncaught "ENOENT"])
      = [OnError "ENOENT"; OnExit 1].
Proof.
  destruct (unreadable_source_aborts_batch wd_text disk_text [WOpen true] _ _ _ eq_refl)
    as (_ & _ & _ & Hbroken).
  destruct (Hbroken "notes.txt" [] None eq_refl eq_refl (or_introl eq_refl))
    as (t2 & d2 & Hstep & Hp & _).
  exists t2, d2. split; [exact Hstep|]. split; [exact Hp|].
  vm_compute in Hstep. injection Hstep as <- <-. split; reflexivity.
Defined.

(** ** A rejected image (worker.js lines 36-72) *)

(** Whatever the archive and the disk, an image the codec rejects leaves
    the archive as it was: the [catch] only writes to the console. *)
Lemma try_file_rejected_image zip name d :
  shouldCompress name = true →
  (try_file zip name None d).1 = d ∧ (try_file_readFile zip name None d).1 = d.
Proof. intros H. unfold try_file, try_file_readFile. by rewrite H. Qed.

(** C2 fails on the code. The batch has one image, [a.png], stored with two
    bytes; the codec rejects it. The worker logs the failure, counts the
    file, finalizes and reports [complete], and the archive has no entry:
    the original bytes are not included under the original name. *)
Theorem failed_transform_drops_file :
  shouldCompress "a.png" = true
  ∧ uploadDir disk_one !! "a.png" = Some [Byte.x01; Byte.x02]
  ∧ archive_of wd_one (compressAndZip_run (spawn wd_one) disk_one failed_transform_run) = Some []
  ∧ signals_of (compressAndZip_run (spawn wd_one) disk_one failed_transform_run)
    = [OnMessage (MsgProgress 1);
       OnMessage (MsgComplete "temp_compressed/compressed_images_b1.zip"
                              "compressed_images_b1.zip")]
  ∧ try_file "compressed_images_b1.zip" "a.png" None
      (mkDisk (uploadDir disk_one) {["compressed_images_b1.zip" := mkZip [] false false]})
    = (mkDisk (uploadDir disk_one) {["compressed_images_b1.zip" := mkZip [] false false]},
       ["Sharp failed to read a.png for compression. Including as is.";
        "Error processing file a.png: Sharp Read Failure"])
  ∧ (try_file_readFile "compressed_images_b1.zip" "a.png" None
      (mkDisk (uploadDir disk_one) {["compressed_images_b1.zip" := mkZip [] false false]})).1
    = mkDisk (uploadDir disk_one) {["compressed_images_b1.zip" := mkZip [] false false]}.
Proof. split_and!; vm_compute; reflexivity. Qed.

(** ** The handlers, entry by entry *)

Lemma foldl_unlink_tempCompressedDir (l : list string) (d : Disk) :
  tempCompressedDir (foldl (fun d name => unlink_upload name d) d l)
  = tempCompressedDir d.
Proof. revert d. induction l as [|x l IH]; intros d; simpl; [done|]. by rewrite IH. Qed.

Lemma foldl_unlink_uploadDir (l : list string) (d : Disk) (name : string) :
  name ∉ l →
  uploadDir (foldl (fun d name => unlink_upload name d) d l) !! name
  = uploadDir d !! name.
Proof.
  revert d. induction l as [|x l IH]; intros d Hn; simpl; [done|].
  rewrite IH by set_solver. simpl. apply lookup_delete_ne. set_solver.
Qed.

Lemma cleanupBatchUploadedFiles_batchWorkers (batchId : string) (w : World) :
  batchWorkers (cleanupBatchUploadedFiles batchId w) = batchWorkers w.
Proof.
  unfold cleanupBatchUploadedFiles.
  by destruct (compressionProgress w !! batchId).
Qed.

Lemma cleanupBatchUploadedFiles_transfers (batchId : string) (w : World) :
  transfers (cleanupBatchUploadedFiles batchId w) = transfers w.
Proof.
  unfold cleanupBatchUploadedFiles.
  by destruct (compressionProgress w !! batchId).
Qed.

(** A signal of batch [batchId] rewrites the entry of that batch and no
    other, and leaves every worker as it is. *)
Lemma handle_effect (batchId : string) (s : Signal) (w w' : World) :
  handle batchId s w = Some w' →
  workers w' = workers w
  ∧ transfers w' = transfers w
  ∧ compressionProgress w' !! batchId
    = entry_after s <$> compressionProgress w !! batchId
  ∧ (∀ id, id ≠ batchId →
       compressionProgress w' !! id = compressionProgress w !! id).
Proof.
  destruct s as [[n|zp zn|e]|e|code]; simpl;
    unfold on_message, on_error, on_exit;
    destruct (compressionProgress w !! batchId) as [b|] eqn:Hb; try done;
    intros [= <-]; simpl.
  - split_and!; try done; [by rewrite lookup_insert_eq|].
    intros id Hne. by rewrite lookup_insert_ne.
  - split_and!; try done; [by rewrite lookup_insert_eq|].
    intros id Hne. by rewrite lookup_insert_ne.
  - rewrite cleanupBatchUploadedFiles_workers, cleanupBatchUploadedFiles_transfers,
      cleanupBatchUploadedFiles_progress. simpl.
    split_and!; try done; [by rewrite lookup_insert_eq|].
    intros id Hne. by rewrite lookup_insert_ne.
  - rewrite cleanupBatchUploadedFiles_workers, cleanupBatchUploadedFiles_transfers,
      cleanupBatchUploadedFiles_progress. simpl.
    split_and!; try done; [by rewrite lookup_insert_eq|].
    intros id Hne. by rewrite lookup_insert_ne.
  - destruct (negb (code =? 0)%Z && negb (bool_decide (status b = Error))).
    + rewrite cleanupBatchUploadedFiles_workers, cleanupBatchUploadedFiles_transfers,
        cleanupBatchUploadedFiles_progress. simpl.
      split_and!; try done; [by rewrite lookup_insert_eq|].
      intros id Hne. by rewrite lookup_insert_ne.
    + by rewrite Hb.
  - by rewrite Hb.
Qed.

(** ** Counting *)

Lemma chain_weaken (lo lo' : nat) (q : list Signal) (hi : nat) :
  lo ≤ lo' → chain lo' q hi → chain lo q hi.
Proof.
  revert lo lo'. induction q as [|s q IH]; intros lo lo' Hle; simpl; [lia|].
  destruct s as [[n|zp zn|e]|e|code]; eauto.
  intros [? ?]. split; [lia|done].
Qed.

Lemma chain_le (lo : nat) (q : list Signal) (hi : nat) : chain lo q hi → lo ≤ hi.
Proof.
  revert lo. induction q as [|s q IH]; intros lo; simpl; [done|].
  destruct s as [[n|zp zn|e]|e|code]; eauto.
  intros [? H]. apply IH in H. lia.
Qed.

Lemma chain_app (lo mid hi : nat) (q out : list Signal) :
  chain lo q mid → chain mid out hi → chain lo (q ++ out) hi.
Proof.
  revert lo. induction q as [|s q IH]; intros lo; simpl.
  - intros Hle. by apply chain_weaken.
  - destruct s as [[n|zp zn|e]|e|code]; eauto.
    intros [? ?]. split; eauto.
Qed.

Lemma counted_le (t : Thread) :
  counted t → completedCount t ≤ length (wd_files (workerData t)).
Proof. unfold counted. destruct (phase t); lia. Qed.

Lemma inv_worker (w : World) (id : string) (wk : Worker) :
  world_inv w → workers w !! id = Some wk → counted (thread wk).
Proof. intros (Hw & _ & _) H. by destruct (Hw _ _ H). Qed.

Lemma inv_entry (w : World) (id : string) (b : Batch) :
  world_inv w → compressionProgress w !! id = Some b →
  1 ≤ total b
  ∧ total b = length (files b)
  ∧ (status b = Processing → zipName b = None)
  ∧ ∃ wk, workers w !! id = Some wk
          ∧ wd_files (workerData (thread wk)) = files b
          ∧ chain (completed b) (port wk) (completedCount (thread wk)).
Proof.
  intros (_ & Hr & _) H. destruct (Hr _ _ H) as (? & ? & ? & wk & ? & ? & ? & ?).
  split_and!; try done. by exists wk.
Qed.

(** A step of the worker raises its count by at most one, and then posts
    exactly that count; a [complete] it posts carries its archive name. *)
Lemma compressAndZip_step_counted t e d t' d' out :
  counted t →
  compressAndZip_step t e d = Some (t', d', out) →
  counted t' ∧ workerData t' = workerData t
  ∧ chain (completedCount t) out (completedCount t')
  ∧ port_ok (workerData t) out.
Proof.
  intros Hc Hstep. pose proof (counted_le t Hc) as Hle.
  unfold compressAndZip_step in Hstep. unfold counted, port_ok in *.
  destruct (phase t) as [|rest|rest| | | |] eqn:Hp; try done;
    destruct e as [[]|r|[]| |err|]; try destruct rest as [|name rest];
    simplify_eq; simpl in *;
    try (split_and!; try done; try lia; by repeat constructor).
  all: unfold process_file in Hstep;
    destruct (try_file (worker_zipName (workerData t)) name r d) as [d1 o];
    simplify_eq; simpl; destruct Hc as [Hc Hsub];
    destruct (is_broken (phase t) || stream_fails name r d); simpl;
    (split_and!; try done; try lia; try (by repeat constructor); set_solver).
Qed.

Lemma terminate_effect (batchId : string) (w : World) :
  compressionProgress (terminate batchId w) = compressionProgress w
  ∧ disk (terminate batchId w) = disk w
  ∧ transfers (terminate batchId w) = transfers w
  ∧ (∀ id, id ≠ batchId → workers (terminate batchId w) !! id = workers w !! id)
  ∧ (∀ wk, workers w !! batchId = Some wk →
       ∃ wk', workers (terminate batchId w) !! batchId = Some wk'
         ∧ workerData (thread wk') = workerData (thread wk)
         ∧ completedCount (thread wk') = completedCount (thread wk)
         ∧ (phase (thread wk') = phase (thread wk) ∨ phase (thread wk') = Exited)
         ∧ ∃ out, port wk' = port wk ++ out
                  ∧ chain (completedCount (thread wk)) out (completedCount (thread wk))
                  ∧ ∀ wd, port_ok wd out).
Proof.
  unfold terminate. destruct (workers w !! batchId) as [[t q]|] eqn:Hw.
  2: { split_and!; try done. }
  assert (Hkeep : ∃ wk', workers w !! batchId = Some wk'
         ∧ workerData (thread wk') = workerData t
         ∧ completedCount (thread wk') = completedCount t
         ∧ (phase (thread wk') = phase t ∨ phase (thread wk') = Exited)
         ∧ ∃ out, port wk' = q ++ out
                  ∧ chain (completedCount t) out (completedCount t)
                  ∧ ∀ wd, port_ok wd out).
  { eexists. split; [exact Hw|]. simpl. split_and!; try done; [by left|].
    exists []. split_and!; [by rewrite app_nil_r|simpl; lia|by constructor]. }
  assert (Hstop : ∃ wk',
         <[batchId := mkWorker (set_phase Exited t) (q ++ [OnExit 1])]> (workers w)
           !! batchId = Some wk'
         ∧ workerData (thread wk') = workerData t
         ∧ completedCount (thread wk') = completedCount t
         ∧ (phase (thread wk') = phase t ∨ phase (thread wk') = Exited)
         ∧ ∃ out, port wk' = q ++ out
                  ∧ chain (completedCount t) out (completedCount t)
                  ∧ ∀ wd, port_ok wd out).
  { eexists. split; [apply lookup_insert_eq|]. simpl. split_and!; try done; [by right|].
    exists [OnExit 1]. split_and!; [done|simpl; lia|by repeat constructor]. }
  destruct (phase t) eqn:Hp; simpl; split_and!; try done;
    try (intros id Hne; by rewrite lookup_insert_ne);
    intros wk [= <-]; simpl.
  all: rewrite ?Hp; done.
Qed.

(** ** The invariant holds in every reachable state *)

Lemma world_inv_init : world_inv init.
Proof.
  split_and!.
  - intros id x H. simpl in H. by rewrite lookup_empty in H.
  - intros id x H. simpl in H. by rewrite lookup_empty in H.
  - intros id z H. simpl in H. by apply elem_of_nil in H.
Qed.

Lemma entry_after_fields (s : Signal) (b : Batch) :
  total (entry_after s b) = total b
  ∧ files (entry_after s b) = files b
  ∧ ((status b = Processing → zipName b = None) →
     status (entry_after s b) = Processing → zipName (entry_after s b) = None).
Proof.
  destruct s as [[n|zp zn|e]|e|code]; simpl; try done.
  destruct (negb (code =? 0)%Z && negb (bool_decide (status b = Error))); done.
Qed.

Lemma entry_after_chain (s : Signal) (q : list Signal) (b : Batch) (hi : nat) :
  chain (completed b) (s :: q) hi →
  completed b ≤ completed (entry_after s b)
  ∧ chain (completed (entry_after s b)) q hi.
Proof.
  destruct s as [[n|zp zn|e]|e|code]; simpl; try (intros [? ?]; done);
    try (intros ?; split; [lia|done]).
  destruct (negb (code =? 0)%Z && negb (bool_decide (status b = Error)));
    intros ?; split; simpl; try lia; done.
Qed.

Lemma entry_after_zipName (s : Signal) (q : list Signal) (b : Batch) (wd : WorkerData) :
  port_ok wd (s :: q) →
  (∀ z, zipName b = Some z → z = worker_zipName wd) →
  ∀ z, zipName (entry_after s b) = Some z → z = worker_zipName wd.
Proof.
  intros Hp Hz z. apply Forall_cons in Hp as [Hs _].
  destruct s as [[n|zp zn|e]|e|code]; simpl; eauto.
  - intros [= <-]. done.
  - destruct (negb (code =? 0)%Z && negb (bool_decide (status b = Error))); eauto.
Qed.

(** What each event needs for the invariant: how workers and entries
    change. A worker keeps its data; its port grows by well-formed signals
    or loses its head; an entry is the old one or the old one after a
    signal. *)
Lemma world_inv_intro (w w' : World) :
  world_inv w →
  (∀ id wk', workers w' !! id = Some wk' →
     (counted (thread wk') ∧ port_ok (workerData (thread wk')) (port wk'))) →
  (∀ id wk, workers w !! id = Some wk →
     ∃ wk', workers w' !! id = Some wk'
            ∧ workerData (thread wk') = workerData (thread wk)) →
  (∀ id b', compressionProgress w' !! id = Some b' →
     1 ≤ total b'
     ∧ total b' = length (files b')
     ∧ (status b' = Processing → zipName b' = None)
     ∧ ∃ wk, workers w' !! id = Some wk
             ∧ wd_files (workerData (thread wk)) = files b'
             ∧ (∀ z, zipName b' = Some z → z = worker_zipName (workerData (thread wk)))
             ∧ chain (completed b') (port wk) (completedCount (thread wk))) →
  (∀ id z, (id, z) ∈ transfers w' →
     (id, z) ∈ transfers w
     ∨ ∃ b, compressionProgress w !! id = Some b ∧ zipName b = Some z) →
  world_inv w'.
Proof.
  intros (Hw & Hr & Ht) Hw' Hkeep Hr' Ht'. split_and!; [done|done|].
  intros id z Hin. destruct (Ht' _ _ Hin) as [Hold|(b & Hb & Hz)].
  - destruct (Ht _ _ Hold) as (wk & Hwk & ->).
    destruct (Hkeep _ _ Hwk) as (wk' & Hwk' & Hd). exists wk'. by rewrite Hd.
  - destruct (Hr _ _ Hb) as (_ & _ & _ & wk & Hwk & _ & Hzn & _).
    destruct (Hkeep _ _ Hwk) as (wk' & Hwk' & Hd). exists wk'.
    split; [done|]. rewrite Hd. by apply Hzn.
Qed.

Lemma step_world_inv (w : World) (ev : Event) (w' : World) (r : option Response) :
  world_inv w → step w ev = Some (w', r) → world_inv w'.
Proof.
  intros Hinv Hstep. pose proof Hinv as (Hw & Hr & Ht).
  destruct ev as [id fs body|id|id|k|id|id e|id]; simpl in Hstep.
  - (* POST /compress *)
    destruct fs as [[|f fs]|]; try (cbn in Hstep; simplify_eq; done).
    case_decide as Hfresh; [done|]. cbn in Hstep. simplify_eq.
    apply (world_inv_intro w); [done|..]; simpl.
    + intros id' wk. rewrite lookup_insert. case_decide; [|by eauto].
      intros [= <-]. split; [done|constructor].
    + intros id' wk Hwk. exists wk. split; [|done].
      rewrite lookup_insert_ne; [done|]. intros ->. apply Hfresh. eauto.
    + intros id' b. rewrite lookup_insert. case_decide as Hid.
      * intros [= <-]. subst id'. simpl. rewrite length_map. split_and!; try done; [lia|].
        eexists. rewrite lookup_insert_eq. split; [done|]. simpl.
        split_and!; try done; lia.
      * intros Hb. destruct (Hr _ _ Hb) as (? & ? & ? & wk & Hwk & ? & ? & ?).
        split_and!; try done. exists wk. by rewrite lookup_insert_ne.
    + by left.
  - by simplify_eq.
  - (* GET /download *)
    unfold get_download in Hstep.
    destruct (compressionProgress w !! id) as [b|] eqn:Hb; [|by simplify_eq].
    destruct (status b), (zipName b) as [z|] eqn:Hz; try (by simplify_eq).
    destruct (truthy z); [|by simplify_eq]. case_decide; [|by simplify_eq].
    simplify_eq. apply (world_inv_intro w); [done|..]; simpl; try done; eauto.
    intros id' z' Hin. apply elem_of_app in Hin as [?|Hin]; [by left|].
    apply list_elem_of_singleton in Hin as [= -> ->]. right. eauto.
  - (* the transfer's callback *)
    destruct (transfers w !! k) as [[id z]|]; [|done]. simplify_eq.
    apply (world_inv_intro w); [done|..]; simpl; try done; eauto.
    + intros id' b Hb. apply lookup_delete_Some in Hb as [Hne Hb]. by apply Hr.
    + intros id' z' Hin. left. by eapply list_elem_of_delete_inv.
  - (* POST /cleanup *)
    unfold post_cleanup in Hstep.
    destruct (compressionProgress w !! id) as [b0|] eqn:Hb0; [|by simplify_eq].
    simplify_eq. destruct (terminate_effect id w) as (Hcp & _ & Htr & Hother & Hself).
    set (w1 := if decide (id ∈ batchWorkers w)
               then set_batchWorkers (fun s => s ∖ {[id]}) (terminate id w) else w) in *.
    assert (Hws : ∀ id' wk, workers w !! id' = Some wk →
              ∃ wk', workers w1 !! id' = Some wk'
                ∧ (id' ≠ id → wk' = wk)
                ∧ workerData (thread wk') = workerData (thread wk)
                ∧ completedCount (thread wk') = completedCount (thread wk)
                ∧ (phase (thread wk') = phase (thread wk) ∨ phase (thread wk') = Exited)
                ∧ ∃ out, port wk' = port wk ++ out ∧ ∀ wd, port_ok wd out).
    { intros id' wk Hwk. subst w1. case_decide; simpl.
      - destruct (decide (id' = id)) as [->|Hne].
        + destruct (Hself _ Hwk) as (wk' & ? & ? & ? & ? & out & ? & _ & ?).
          exists wk'. split_and!; try done. by exists out.
        + exists wk. rewrite Hother by done. split_and!; try done; [by left|].
          exists []. split; [by rewrite app_nil_r|]. intros ?. constructor.
      - exists wk. split_and!; try done; [by left|].
        exists []. split; [by rewrite app_nil_r|]. intros ?. constructor. }
    assert (Hws' : ∀ id' wk', workers w1 !! id' = Some wk' →
              ∃ wk, workers w !! id' = Some wk).
    { intros id' wk'. subst w1. case_decide; simpl; [|by eauto].
      destruct (decide (id' = id)) as [->|Hne].
      - unfold terminate. destruct (workers w !! id) as [[t q]|] eqn:Hq; [by eauto|].
        simpl. by rewrite Hq.
      - rewrite Hother by done. eauto. }
    assert (Hwk3 : workers
              match zipName b0 with
              | Some z => if truthy z
                          then set_disk (unlink_zip z) (cleanupBatchUploadedFiles id w1)
                          else cleanupBatchUploadedFiles id w1
              | None => cleanupBatchUploadedFiles id w1
              end = workers w1).
    { destruct (zipName b0) as [z|]; [destruct (truthy z)|]; simpl;
        by rewrite cleanupBatchUploadedFiles_workers. }
    assert (Hcp3 : compressionProgress
              match zipName b0 with
              | Some z => if truthy z
                          then set_disk (unlink_zip z) (cleanupBatchUploadedFiles id w1)
                          else cleanupBatchUploadedFiles id w1
              | None => cleanupBatchUploadedFiles id w1
              end = compressionProgress w).
    { destruct (zipName b0) as [z|]; [destruct (truthy z)|]; simpl;
        rewrite cleanupBatchUploadedFiles_progress; subst w1; case_decide; simpl; done. }
    assert (Htr3 : transfers
              match zipName b0 with
              | Some z => if truthy z
                          then set_disk (unlink_zip z) (cleanupBatchUploadedFiles id w1)
                          else cleanupBatchUploadedFiles id w1
              | None => cleanupBatchUploadedFiles id w1
              end = transfers w).
    { destruct (zipName b0) as [z|]; [destruct (truthy z)|]; simpl;
        rewrite cleanupBatchUploadedFiles_transfers; subst w1; case_decide; simpl; done. }
    apply (world_inv_intro w); [done|..]; simpl; rewrite ?Hwk3, ?Hcp3, ?Htr3.
    + intros id' wk' Hwk'.
      destruct (Hws' _ _ Hwk') as [wk Hwk].
      destruct (Hws _ _ Hwk) as (wk2 & Hwk2 & _ & Hd & Hc & Hp & out & Hout & Hok).
      assert (wk2 = wk') by congruence. subst wk2.
      destruct (Hw _ _ Hwk) as [Hcount Hport].
      pose proof (counted_le _ Hcount) as Hle. split.
      * unfold counted in *. rewrite Hd, Hc. destruct Hp as [-> | ->]; [done|lia].
      * rewrite Hd, Hout. apply Forall_app. split; [done|apply Hok].
    + intros id' wk Hwk. destruct (Hws _ _ Hwk) as (wk2 & Hwk2 & _ & Hd & _). eauto.
    + intros id' b Hb.
      apply lookup_delete_Some in Hb as [Hne Hb].
      destruct (Hr _ _ Hb) as (? & ? & ? & wk & Hwk & ? & ? & ?).
      split_and!; try done.
      destruct (Hws _ _ Hwk) as (wk2 & Hwk2 & Heq & _). rewrite (Heq ltac:(done)) in Hwk2.
      by exists wk.
    + by left.
  - (* a step of a worker *)
    destruct (workers w !! id) as [[t q]|] eqn:Hq; [|done].
    destruct (compressAndZip_step t e (disk w)) as [[[t' d'] out]|] eqn:Hs; [|done].
    simplify_eq. destruct (Hw _ _ Hq) as [Hc Hp]. simpl in Hc, Hp.
    destruct (compressAndZip_step_counted _ _ _ _ _ _ Hc Hs) as (Hc' & Hd & Hch & Hok).
    apply (world_inv_intro w); [done|..]; simpl.
    + intros id' wk. rewrite lookup_insert. case_decide; [|by eauto].
      intros [= <-]. simpl. split; [done|]. rewrite Hd. by apply Forall_app.
    + intros id' wk Hwk. rewrite lookup_insert. case_decide; [|by eauto].
      subst id'. rewrite Hq in Hwk. simplify_eq. eauto.
    + intros id' b Hb. destruct (Hr _ _ Hb) as (? & ? & ? & wk & Hwk & ? & ? & ?).
      split_and!; try done. rewrite lookup_insert. case_decide as Hid.
      * subst id'. rewrite Hq in Hwk. simplify_eq. simpl in *.
        eexists. split; [done|]. simpl. rewrite Hd.
        split_and!; try done. by eapply chain_app.
      * by exists wk.
    + by left.
  - (* delivery of a signal *)
    destruct (workers w !! id) as [[t [|s q]]|] eqn:Hq; try done.
    destruct (handle id s (set_workers <[id := mkWorker t q]> w)) as [w1|] eqn:Hh; [|done].
    simplify_eq. apply handle_effect in Hh as (Hwk & Htr & Hself & Hother). simpl in *.
    destruct (Hw _ _ Hq) as [Hc Hp]. simpl in Hc, Hp.
    apply (world_inv_intro w); [done|..]; rewrite ?Hwk, ?Htr.
    + intros id' wk. rewrite lookup_insert. case_decide; [|by eauto].
      intros [= <-]. simpl. split; [done|]. by apply Forall_cons in Hp as [_ ?].
    + intros id' wk Hwk'. rewrite lookup_insert. case_decide; [|by eauto].
      subst id'. rewrite Hq in Hwk'. simplify_eq. eauto.
    + intros id' b. destruct (decide (id' = id)) as [->|Hne].
      * rewrite Hself. destruct (compressionProgress w !! id) as [b0|] eqn:Hb0; [|done].
        intros [= <-]. destruct (Hr _ _ Hb0) as (? & ? & Hz & wk & Hwk0 & ? & Hzn & Hch).
        rewrite Hq in Hwk0. simplify_eq. simpl in *.
        destruct (entry_after_fields s b0) as (-> & -> & Hz').
        destruct (entry_after_chain _ _ _ _ Hch) as [_ Hch'].
        split_and!; try done; [by apply Hz'|].
        eexists. rewrite lookup_insert_eq. split; [done|]. simpl.
        split_and!; try done. by eapply entry_after_zipName.
      * rewrite Hother by done. intros Hb.
        destruct (Hr _ _ Hb) as (? & ? & ? & wk & Hwk0 & ? & ? & ?).
        split_and!; try done. exists wk. by rewrite lookup_insert_ne.
    + by left.
Qed.

Lemma run_world_inv (w : World) (tr : list Event) (w' : World) rs :
  world_inv w → run w tr = Some (w', rs) → world_inv w'.
Proof.
  revert w rs. induction tr as [|ev tr IH]; intros w rs Hinv H; simpl in H.
  - by simplify_eq.
  - destruct (step w ev) as [[w1 r]|] eqn:Hstep; [|done].
    destruct (run w1 tr) as [[w2 rs']|] eqn:Hrun; [|done]. simplify_eq.
    eapply IH; [|done]. by eapply step_world_inv.
Qed.

Local Ltac same_entry id :=
  match goal with
  | |- context [compressionProgress ?w !! id] =>
      destruct (compressionProgress w !! id); [split_and?; (done || lia)|done]
  end.

(** One event against one batch: its count does not fall and its total
    stays; an entry appears only for an id no worker was started for; and a
    worker, once started, stays in the table of threads. *)
Lemma step_entry (w : World) (ev : Event) (w' : World) (r : option Response)
    (id : string) :
  world_inv w → step w ev = Some (w', r) →
  (is_Some (workers w !! id) → is_Some (workers w' !! id))
  ∧ match compressionProgress w !! id, compressionProgress w' !! id with
    | Some b, Some b' =>
        completed b ≤ completed b' ∧ total b' = total b ∧ files b' = files b
    | None, Some _ => workers w !! id = None
    | _, None => True
    end.
Proof.
  intros Hinv Hstep.
  pose proof (fun id wk => inv_worker w id wk Hinv) as Hw.
  pose proof (fun id b => inv_entry w id b Hinv) as Hr.
  destruct ev as [id0 fs body|id0|id0|k|id0|id0 e|id0]; simpl in Hstep.
  - destruct fs as [[|f fs]|];
      try (cbn in Hstep; simplify_eq; split; [done|];
           same_entry id).
    case_decide as Hfresh; [done|]. cbn in Hstep. simplify_eq. simpl.
    destruct (decide (id = id0)) as [->|Hne].
    + rewrite !lookup_insert_eq. split; [by eauto|].
      destruct (compressionProgress w !! id0) as [b|] eqn:Hb.
      * destruct (Hr _ _ Hb) as (_ & _ & _ & wk & Hwk & _). exfalso. apply Hfresh. eauto.
      * by apply eq_None_not_Some.
    + rewrite !lookup_insert_ne by done. split; [done|].
      same_entry id.
  - simplify_eq. split; [done|]. same_entry id.
  - assert (compressionProgress w' = compressionProgress w ∧ workers w' = workers w)
      as [-> ->].
    { unfold get_download in Hstep.
      destruct (compressionProgress w !! id0) as [b|]; [|by simplify_eq].
      destruct (status b), (zipName b) as [z|]; try (by simplify_eq).
      destruct (truthy z); [|by simplify_eq]. case_decide; by simplify_eq. }
    split; [done|]. same_entry id.
  - destruct (transfers w !! k) as [[id1 z]|]; [|done]. simplify_eq. simpl.
    split; [done|]. destruct (decide (id = id1)) as [->|Hne].
    + rewrite lookup_delete_eq. same_entry id1.
    + rewrite lookup_delete_ne by done. same_entry id.
  - unfold post_cleanup in Hstep.
    destruct (compressionProgress w !! id0) as [b0|] eqn:Hb0.
    2: { simplify_eq. split; [done|]. same_entry id. }
    simplify_eq. destruct (terminate_effect id0 w) as (Hcp & _ & _ & Hother & Hself).
    set (w1 := if decide (id0 ∈ batchWorkers w)
               then set_batchWorkers (fun s => s ∖ {[id0]}) (terminate id0 w) else w).
    assert (Hwk3 : workers
              match zipName b0 with
              | Some z => if truthy z
                          then set_disk (unlink_zip z) (cleanupBatchUploadedFiles id0 w1)
                          else cleanupBatchUploadedFiles id0 w1
              | None => cleanupBatchUploadedFiles id0 w1
              end = workers w1).
    { destruct (zipName b0) as [z|]; [destruct (truthy z)|]; simpl;
        by rewrite cleanupBatchUploadedFiles_workers. }
    assert (Hcp3 : compressionProgress
              match zipName b0 with
              | Some z => if truthy z
                          then set_disk (unlink_zip z) (cleanupBatchUploadedFiles id0 w1)
                          else cleanupBatchUploadedFiles id0 w1
              | None => cleanupBatchUploadedFiles id0 w1
              end = compressionProgress w).
    { destruct (zipName b0) as [z|]; [destruct (truthy z)|]; simpl;
        rewrite cleanupBatchUploadedFiles_progress; subst w1; case_decide; simpl; done. }
    simpl. rewrite Hwk3, Hcp3. split.
    + intros [wk Hwk]. subst w1. case_decide; simpl; [|by eauto].
      destruct (decide (id = id0)) as [->|Hne].
      * destruct (Hself _ Hwk) as (wk' & ? & _). eauto.
      * rewrite Hother by done. eauto.
    + destruct (decide (id = id0)) as [->|Hne].
      * rewrite lookup_delete_eq. by rewrite Hb0.
      * rewrite lookup_delete_ne by done. same_entry id.
  - destruct (workers w !! id0) as [[t q]|] eqn:Hq; [|done].
    destruct (compressAndZip_step t e (disk w)) as [[[t' d'] out]|] eqn:Hs; [|done].
    simplify_eq. simpl. split.
    + rewrite lookup_insert. case_decide; [by eauto|done].
    + same_entry id.
  - destruct (workers w !! id0) as [[t [|s q]]|] eqn:Hq; try done.
    destruct (handle id0 s (set_workers <[id0 := mkWorker t q]> w)) as [w1|] eqn:Hh; [|done].
    simplify_eq. apply handle_effect in Hh as (Hwk & _ & Hself & Hother). simpl in *.
    rewrite Hwk. split.
    + rewrite lookup_insert. case_decide; [by eauto|done].
    + destruct (decide (id = id0)) as [->|Hne].
      * rewrite Hself. destruct (compressionProgress w !! id0) as [b0|] eqn:Hb0; [|done].
        simpl. destruct (Hr _ _ Hb0) as (_ & _ & _ & wk & Hwk0 & _ & Hch).
        rewrite Hq in Hwk0. simplify_eq. simpl in *.
        destruct (entry_after_fields s b0) as (-> & -> & _).
        destruct (entry_after_chain _ _ _ _ Hch) as [Hle _]. done.
      * rewrite Hother by done. same_entry id.
Qed.

(** Over a whole run: an entry that is there at both ends has not lost
    count, and has its total. *)
Lemma run_entry (w : World) (tr : list Event) (w' : World) rs (id : string) b b' :
  world_inv w → run w tr = Some (w', rs) →
  compressionProgress w !! id = Some b →
  compressionProgress w' !! id = Some b' →
  completed b ≤ completed b' ∧ total b' = total b.
Proof.
  intros Hinv Hrun Hb Hb'.
  assert (Hgone : ∀ tr w w' rs, world_inv w → run w tr = Some (w', rs) →
            is_Some (workers w !! id) → compressionProgress w !! id = None →
            compressionProgress w' !! id = None).
  { clear. induction tr as [|ev tr IH]; intros w w' rs Hinv H Hwk Hnone; simpl in H.
    - by simplify_eq.
    - destruct (step w ev) as [[w1 r]|] eqn:Hstep; [|done].
      destruct (run w1 tr) as [[w2 rs']|] eqn:Hrun; [|done]. simplify_eq.
      destruct (step_entry _ _ _ _ id Hinv Hstep) as [Hk He].
      eapply IH; [by eapply step_world_inv|done|by apply Hk|].
      rewrite Hnone in He. destruct (compressionProgress w1 !! id); [|done].
      rewrite He in Hwk. by destruct Hwk. }
  revert w rs b Hinv Hrun Hb. induction tr as [|ev tr IH]; intros w rs b Hinv H Hb;
    simpl in H.
  - simplify_eq. split; [lia|done].
  - destruct (step w ev) as [[w1 r]|] eqn:Hstep; [|done].
    destruct (run w1 tr) as [[w2 rs']|] eqn:Hrun; [|done]. simplify_eq.
    destruct (step_entry _ _ _ _ id Hinv Hstep) as [Hk He]. rewrite Hb in He.
    pose proof (step_world_inv _ _ _ _ Hinv Hstep) as Hinv1.
    destruct (compressionProgress w1 !! id) as [b1|] eqn:Hb1.
    + destruct He as (Hle & Ht & _).
      destruct (IH _ _ _ Hinv1 Hrun Hb1) as [Hle' Ht']. split; [lia|congruence].
    + exfalso.
      destruct (inv_entry _ _ _ Hinv Hb) as (_ & _ & _ & wk & Hwk & _).
      assert (is_Some (workers w1 !! id)) as Hs by (apply Hk; eauto).
      pose proof (Hgone _ _ _ _ Hinv1 Hrun Hs Hb1). congruence.
Qed.

(** ** Cleanup of a batch in progress (index.js lines 244-278) *)

(** The handler removes an archive only under the name the registry has,
    and the registry has none before the [complete] message. *)
Lemma post_cleanup_unreported_archive (w : World) (batchId : string) (b : Batch) :
  compressionProgress w !! batchId = Some b →
  zipName b = None →
  (post_cleanup batchId w).2 = JsonSuccess
  ∧ compressionProgress (post_cleanup batchId w).1 !! batchId = None
  ∧ tempCompressedDir (disk (post_cleanup batchId w).1) = tempCompressedDir (disk w).
Proof.
  intros Hb Hz. unfold post_cleanup. rewrite Hb, Hz. simpl.
  split_and!; [done|by rewrite lookup_delete_eq|].
  unfold cleanupBatchUploadedFiles.
  assert (Hfold : ∀ l d0, tempCompressedDir
            (foldl (fun d name => unlink_upload name d) d0 l) = tempCompressedDir d0).
  { induction l as [|x l IH]; intros d0; simpl; [done|]. by rewrite IH. }
  case_decide; simpl;
    [unfold terminate; destruct (workers w !! batchId) as [[t q]|]; simpl;
     [destruct (phase t)|]|];
    simpl; rewrite ?Hb; simpl; by rewrite ?Hfold.
Qed.

(** In every reachable state, cleanup of a batch that is still
    [Processing] answers success, removes the entry, and leaves the output
    area exactly as it was, whatever the worker has written there. *)
Lemma cleanup_processing_keeps_archives (tr : list Event) (w : World) rs
    (batchId : string) (b : Batch) :
  run init tr = Some (w, rs) →
  compressionProgress w !! batchId = Some b →
  status b = Processing →
  (post_cleanup batchId w).2 = JsonSuccess
  ∧ compressionProgress (post_cleanup batchId w).1 !! batchId = None
  ∧ tempCompressedDir (disk (post_cleanup batchId w).1) = tempCompressedDir (disk w).
Proof.
  intros Hrun Hb Hs.
  pose proof (run_world_inv _ _ _ _ world_inv_init Hrun) as Hinv.
  destruct (inv_entry _ _ _ Hinv Hb) as (_ & _ & Hz & _).
  apply (post_cleanup_unreported_archive w batchId b Hb). by apply Hz.
Qed.

(** C1 fails on the code. A batch of two files is being processed; its
    worker has opened the archive and handled the first file when the client
    asks for cleanup. The answer is [{success: true}], the worker is
    stopped, the uploads and the entry are gone, and the partial archive is
    still in the output area. *)
Theorem cleanup_leaves_partial_archive :
  status_of "b1" (run init (removelast cleanup_trace)) = Some Processing
  ∧ last (responses (run init cleanup_trace)) = Some (Some JsonSuccess)
  ∧ compressionProgress (final_world (run init cleanup_trace)) !! "b1" = None
  ∧ uploadDir (disk (final_world (run init cleanup_trace))) = ∅
  ∧ phase <$> (thread <$> workers (final_world (run init cleanup_trace)) !! "b1")
    = Some Exited
  ∧ tempCompressedDir (disk (final_world (run init cleanup_trace)))
      !! "compressed_images_b1.zip"
    = Some (mkZip [("a.webp", [Byte.x09])] false false).
Proof. split_and!; vm_compute; reflexivity. Qed.

(** ** The count of a batch (worker.js lines 74-75, index.js lines 136-138) *)

(** C5. In every reachable state the count of an entry lies between 0 and
    its total, and the progress endpoint reports that count; in every later
    state in which the entry is still there, the count is at least what it
    was and the total is the same. Batch ids are drawn once (see [step]). *)
Theorem completed_monotone_bounded (tr1 tr2 : list Event) (w1 w2 : World) rs1 rs2
    (batchId : string) (b1 : Batch) :
  run init tr1 = Some (w1, rs1) →
  run w1 tr2 = Some (w2, rs2) →
  compressionProgress w1 !! batchId = Some b1 →
  0 ≤ completed b1 ≤ total b1
  ∧ get_progress batchId w1
    = JsonProgress (progressPercent (completed b1) (total b1)) (status b1)
                   (total b1) (completed b1)
  ∧ (∀ b2, compressionProgress w2 !! batchId = Some b2 →
       completed b1 ≤ completed b2 ∧ total b2 = total b1).
Proof.
  intros Hrun1 Hrun2 Hb.
  pose proof (run_world_inv _ _ _ _ world_inv_init Hrun1) as Hinv.
  split_and!.
  - lia.
  - destruct (inv_entry _ _ _ Hinv Hb) as (_ & Ht & _ & wk & Hwk & Hf & Hch).
    apply chain_le in Hch. pose proof (counted_le _ (inv_worker _ _ _ Hinv Hwk)) as Hle.
    rewrite Hf in Hle. lia.
  - unfold get_progress. by rewrite Hb.
  - intros b2 Hb2. by eapply run_entry.
Qed.

Lemma completed_monotone_bounded_witness :
  ∃ w1 rs1 w2 rs2 b1 b2,
    run init progress_trace_1 = Some (w1, rs1)
    ∧ run w1 progress_trace_2 = Some (w2, rs2)
    ∧ compressionProgress w1 !! "b1" = Some b1
    ∧ compressionProgress w2 !! "b1" = Some b2
    ∧ completed b1 = 1 ∧ completed b2 = 2
    ∧ completed b1 ≤ completed b2 ∧ total b2 = total b1.
Proof.
  do 6 eexists.
  split; [vm_compute; reflexivity|]. split; [vm_compute; reflexivity|].
  split; [vm_compute; reflexivity|]. split; [vm_compute; reflexivity|].
  split; [reflexivity|]. split; [reflexivity|].
  eapply (completed_monotone_bounded progress_trace_1 progress_trace_2 _ _ _ _ "b1").
  - vm_compute. reflexivity.
  - vm_compute. reflexivity.
  - vm_compute. reflexivity.
  - vm_compute. reflexivity.
Defined.

(** ** Totals (index.js lines 98-113 and 195-211) *)

(** C10. The submission handler answers 400 and changes nothing when the
    file list is absent or empty; otherwise it creates the entry with the
    number of uploaded files as its total. So every entry of a reachable
    state has a total equal to the number of its files and at least 1, and
    the progress computation has a non-zero divisor. *)
Theorem total_positive (tr : list Event) (w : World) rs (batchId : string) (b : Batch) :
  run init tr = Some (w, rs) →
  compressionProgress w !! batchId = Some b →
  total b = length (files b)
  ∧ 1 ≤ total b
  ∧ is_Some (progressPercent (completed b) (total b))
  ∧ (∀ w0 id body,
       post_compress id None body w0 = (w0, Status400 "No files uploaded.")
       ∧ post_compress id (Some []) body w0 = (w0, Status400 "No files uploaded."))
  ∧ (∀ w0 id body f fs,
       compressionProgress (post_compress id (Some (f :: fs)) body w0).1 !! id
       = Some (mkBatch (length (f :: fs)) 0 Processing (map originalname (f :: fs)) None)
       ∧ (post_compress id (Some (f :: fs)) body w0).2 = JsonBatchId id).
Proof.
  intros Hrun Hb.
  pose proof (run_world_inv _ _ _ _ world_inv_init Hrun) as Hinv.
  destruct (inv_entry _ _ _ Hinv Hb) as (Hpos & Ht & _).
  split_and!; try done.
  - unfold progressPercent. rewrite decide_False by lia. by eexists.
  - intros w0 id body f fs. simpl. by rewrite lookup_insert_eq.
Qed.

Lemma total_positive_witness :
  ∃ w rs b,
    run init progress_trace_1 = Some (w, rs)
    ∧ compressionProgress w !! "b1" = Some b
    ∧ total b = 2
    ∧ is_Some (progressPercent (completed b) (total b)).
Proof.
  do 3 eexists.
  split; [vm_compute; reflexivity|]. split; [vm_compute; reflexivity|].
  split; [reflexivity|].
  eapply (total_positive progress_trace_1 _ _ "b1").
  - vm_compute. reflexivity.
  - vm_compute. reflexivity.
Defined.

(** ** Two batches on the same storage (index.js lines 16-21) *)

(** C9 as stated fails when two batches upload a file of the same name,
    here an image, with archive names that are plain and differ. Both
    submissions are accepted; the second upload replaces the first on
    storage, so the one file holds the bytes of the second batch; the
    worker of the first batch hands that file to the codec and then
    deletes it, while the second batch, whose only file it is, has not
    started on it. *)
Lemma same_name_batches_interfere :
  responses (run init same_name_uploads)
    = [Some (JsonBatchId "b1"); Some (JsonBatchId "b2")]
  ∧ uploadDir (disk (final_world (run init same_name_uploads))) !! "a.png"
    = Some [Byte.x02]
  ∧ is_Some (run init same_name_trace)
  ∧ uploadDir (disk (final_world (run init same_name_trace))) !! "a.png" = None
  ∧ ((fun wk => (phase (thread wk), wd_files (workerData (thread wk)),
                 worker_zipName (workerData (thread wk))))
       <$> workers (final_world (run init same_name_trace)) !! "b2")
    = Some (Spawned, ["a.png"], "compressed_images_b2.zip")
  ∧ (worker_zipName <$> (workerData <$> (thread
       <$> workers (final_world (run init same_name_trace)) !! "b1")))
    = Some "compressed_images_b1.zip".
Proof. split_and!; try (vm_compute; reflexivity). vm_compute. by eexists. Qed.

Lemma multer_store_other (fs : list Upload) (d : Disk) (n : string) :
  n ∉ map originalname fs →
  uploadDir (multer_store fs d) !! n = uploadDir d !! n.
Proof.
  unfold multer_store. simpl. generalize (uploadDir d).
  induction fs as [|f fs IH]; intros m Hn; simpl; [done|].
  simpl in Hn. apply not_elem_of_cons in Hn as [Hne Hn].
  rewrite IH by done. by apply lookup_insert_ne.
Qed.

Lemma cleanupBatchUploadedFiles_disk (batchId : string) (w : World) :
  tempCompressedDir (disk (cleanupBatchUploadedFiles batchId w))
  = tempCompressedDir (disk w)
  ∧ ∀ n, (∀ b, compressionProgress w !! batchId = Some b → n ∉ files b) →
      uploadDir (disk (cleanupBatchUploadedFiles batchId w)) !! n
      = uploadDir (disk w) !! n.
Proof.
  unfold cleanupBatchUploadedFiles.
  destruct (compressionProgress w !! batchId) as [b|]; simpl; [|done].
  split; [apply foldl_unlink_tempCompressedDir|].
  intros n Hn. apply foldl_unlink_uploadDir. by apply Hn.
Qed.

(** A signal of a batch leaves the output area alone and removes uploads
    only under the names in that batch's entry. *)
Lemma handle_disk (batchId : string) (s : Signal) (w w' : World) :
  handle batchId s w = Some w' →
  tempCompressedDir (disk w') = tempCompressedDir (disk w)
  ∧ ∀ n, (∀ b, compressionProgress w !! batchId = Some b → n ∉ files b) →
      uploadDir (disk w') !! n = uploadDir (disk w) !! n.
Proof.
  assert (Hc : ∀ b st,
    compressionProgress w !! batchId = Some b →
    tempCompressedDir (disk (cleanupBatchUploadedFiles batchId
        (set_progress <[batchId := with_status st b]> w))) = tempCompressedDir (disk w)
    ∧ ∀ n, (∀ b, compressionProgress w !! batchId = Some b → n ∉ files b) →
        uploadDir (disk (cleanupBatchUploadedFiles batchId
          (set_progress <[batchId := with_status st b]> w))) !! n
        = uploadDir (disk w) !! n).
  { intros b st Hb.
    destruct (cleanupBatchUploadedFiles_disk batchId
                (set_progress <[batchId := with_status st b]> w)) as [H1 H2].
    split; [done|]. intros n Hn. rewrite H2; [done|]. simpl.
    intros b'. rewrite lookup_insert_eq. intros [= <-]. simpl. by apply Hn. }
  destruct s as [[n|zp zn|e]|e|code]; simpl;
    unfold on_message, on_error, on_exit;
    destruct (compressionProgress w !! batchId) as [b|] eqn:Hb; try done;
    intros [= <-]; simpl; try done; try (by apply Hc).
  destruct (negb (code =? 0)%Z && negb (bool_decide (status b = Error)));
    [by apply Hc|done].
Qed.

(** A step of a worker changes the output area only under the worker's
    archive name, and the uploads only under the name of the file it is at. *)
Lemma compressAndZip_step_disk t e d t' d' out :
  compressAndZip_step t e d = Some (t', d', out) →
  (∀ z, z ≠ worker_zipName (workerData t) →
     tempCompressedDir d' !! z = tempCompressedDir d !! z)
  ∧ (∀ n, (∀ rest, phase t = InLoop rest ∨ phase t = Broken rest → n ∉ rest) →
     uploadDir d' !! n = uploadDir d !! n).
Proof.
  intros Hstep. unfold compressAndZip_step in Hstep.
  destruct (phase t) as [|rest|rest| | | |] eqn:Hp; try done;
    destruct e as [[]|r|[]| |err|]; try destruct rest as [|name rest];
    simplify_eq; simpl;
    try (split; [intros z Hz|intros n Hn]; try done;
         first [by rewrite lookup_insert_ne | by rewrite lookup_alter_ne]).
  all: unfold process_file in Hstep;
    destruct (try_file (worker_zipName (workerData t)) name r d) as [d1 o] eqn:Ht;
    simplify_eq; simpl;
    assert (uploadDir d1 = uploadDir d
            ∧ ∀ z, z ≠ worker_zipName (workerData t) →
                tempCompressedDir d1 !! z = tempCompressedDir d !! z) as [Hu Hz1]
      by (unfold try_file in Ht;
          destruct (shouldCompress name), r; simplify_eq; simpl; try done;
          try destruct (uploadDir d !! name); simplify_eq; simpl;
          split; try done; intros z Hz; by rewrite lookup_alter_ne);
    (split; [done|]); intros n Hn; rewrite Hu; apply lookup_delete_ne;
    first [specialize (Hn _ (or_introl eq_refl))|specialize (Hn _ (or_intror eq_refl))];
    set_solver.
Qed.

Lemma try_file_reads_own zip name r d1 d2 :
  uploadDir d2 !! name = uploadDir d1 !! name →
  tempCompressedDir d2 !! zip = tempCompressedDir d1 !! zip →
  (try_file zip name r d2).2 = (try_file zip name r d1).2
  ∧ tempCompressedDir (try_file zip name r d2).1 !! zip
    = tempCompressedDir (try_file zip name r d1).1 !! zip.
Proof.
  intros Hn Hz. unfold try_file. rewrite Hn.
  destruct (shouldCompress name), r as [buf|]; simpl; try done;
    try destruct (uploadDir d1 !! name); simpl; try done;
    by rewrite !lookup_alter, !decide_True, Hz by done.
Qed.

(** What a step of a worker yields depends on the disk only through the
    worker's own files and archive. *)
Lemma compressAndZip_step_reads_own t e d1 d2 t' d1' out :
  counted t →
  (∀ n, n ∈ wd_files (workerData t) → uploadDir d2 !! n = uploadDir d1 !! n) →
  tempCompressedDir d2 !! worker_zipName (workerData t)
    = tempCompressedDir d1 !! worker_zipName (workerData t) →
  compressAndZip_step t e d1 = Some (t', d1', out) →
  ∃ d2', compressAndZip_step t e d2 = Some (t', d2', out)
    ∧ tempCompressedDir d2' !! worker_zipName (workerData t)
      = tempCompressedDir d1' !! worker_zipName (workerData t).
Proof.
  intros Hc Hup Hz Hstep. unfold compressAndZip_step in *. unfold counted in Hc.
  destruct (phase t) as [|rest|rest| | | |] eqn:Hp; try done;
    destruct e as [[]|r|[]| |err|]; try destruct rest as [|name rest];
    simplify_eq; simpl.
  all: try (eexists; split; [done|]; simpl; try done;
         first [by rewrite !lookup_insert_eq
               | by rewrite !lookup_alter, !decide_True, Hz by done]).
  all: destruct Hc as [_ Hsub];
    assert (Hname : uploadDir d2 !! name = uploadDir d1 !! name)
      by (apply Hup; apply Hsub; set_solver);
    destruct (try_file_reads_own (worker_zipName (workerData t)) name r d1 d2 Hname Hz)
      as [Hlog Hzip];
    pose proof (try_file_uploadDir (worker_zipName (workerData t)) name r d1) as Hu1;
    pose proof (try_file_uploadDir (worker_zipName (workerData t)) name r d2) as Hu2;
    assert (Hsf : stream_fails name r d2 = stream_fails name r d1)
      by (unfold stream_fails; by rewrite Hname);
    unfold process_file in *;
    destruct (try_file (worker_zipName (workerData t)) name r d1) as [x1 o1];
    destruct (try_file (worker_zipName (workerData t)) name r d2) as [x2 o2];
    simpl in *; subst o2; simplify_eq; rewrite Hu1, Hu2, Hname, Hsf;
    (eexists; split; [done|]); done.
Qed.

(** C9, as the code has it. Let an event of batch [A] happen in a
    reachable state and its handler run to its end, and let [B] be another
    batch whose upload names are not among [A]'s and whose archive name is
    not [A]'s, both archive names being plain names, without a separator,
    so that both archives lie in the output directory itself. Then the
    event (the upload, a step of [A]'s worker, a signal of [A]'s worker
    with the cleanup it triggers, the cleanup request, the download)
    changes none of [B]'s uploads, nor [B]'s archive, nor [B]'s entry, nor
    [B]'s worker; and what a step of [A]'s worker yields depends on the
    disk only through [A]'s own files and archive. A handler that throws,
    which [step] does not let happen, ends the process for every batch. *)
Theorem distinct_names_isolated (tr : list Event) (w : World) rs (ev : Event)
    (w' : World) (r : option Response) (A B : string) (wB : Worker) :
  run init tr = Some (w, rs) →
  step w ev = Some (w', r) →
  event_batch w ev = Some A → A ≠ B →
  workers w !! B = Some wB →
  (∀ n, n ∈ wd_files (workerData (thread wB)) → n ∉ event_names w ev) →
  event_zip w ev ≠ Some (worker_zipName (workerData (thread wB))) →
  (∀ z, event_zip w ev = Some z → Path.plain z = true) →
  Path.plain (worker_zipName (workerData (thread wB))) = true →
  (∀ n, n ∈ wd_files (workerData (thread wB)) →
     uploadDir (disk w') !! n = uploadDir (disk w) !! n)
  ∧ tempCompressedDir (disk w') !! worker_zipName (workerData (thread wB))
    = tempCompressedDir (disk w) !! worker_zipName (workerData (thread wB))
  ∧ compressionProgress w' !! B = compressionProgress w !! B
  ∧ workers w' !! B = workers w !! B
  ∧ (∀ e t q d2, ev = WorkerStep A e → workers w !! A = Some (mkWorker t q) →
       (∀ n, n ∈ wd_files (workerData t) →
          uploadDir d2 !! n = uploadDir (disk w) !! n) →
       tempCompressedDir d2 !! worker_zipName (workerData t)
         = tempCompressedDir (disk w) !! worker_zipName (workerData t) →
       ∃ t' d1' d2' out,
         compressAndZip_step t e (disk w) = Some (t', d1', out)
         ∧ compressAndZip_step t e d2 = Some (t', d2', out)
         ∧ tempCompressedDir d2' !! worker_zipName (workerData t)
           = tempCompressedDir d1' !! worker_zipName (workerData t)).
Proof.
  intros Hrun Hstep HA Hne HB Hnames Hzip _ _.
  pose proof (run_world_inv _ _ _ _ world_inv_init Hrun) as Hinv.
  pose proof Hinv as (Hw & Hr & Ht).
  set (zB := worker_zipName (workerData (thread wB))) in *.
  destruct ev as [id fs body|id|id|k|id|id e|id]; simpl in HA, Hstep.
  - (* POST /compress *)
    simplify_eq. destruct fs as [[|f fs]|];
      try (cbn in Hstep; simplify_eq; split_and!; done).
    case_decide as Hfresh; [done|]. cbn in Hstep. simplify_eq. simpl.
    split_and!; try done.
    + intros n Hn. apply (multer_store_other (f :: fs)). by apply Hnames.
    + by rewrite lookup_insert_ne.
    + by rewrite lookup_insert_ne.
  - simplify_eq. split_and!; done.
  - (* GET /download *)
    assert (disk w' = disk w ∧ compressionProgress w' = compressionProgress w
            ∧ workers w' = workers w) as (-> & -> & ->).
    { unfold get_download in Hstep.
      destruct (compressionProgress w !! id) as [b|]; [|by simplify_eq].
      destruct (status b), (zipName b) as [z|]; try (by simplify_eq).
      destruct (truthy z); [|by simplify_eq]. case_decide; by simplify_eq. }
    split_and!; done.
  - (* the transfer's callback *)
    destruct (transfers w !! k) as [[id z]|] eqn:Hk; [|done]. simpl in HA.
    simplify_eq. simpl. simpl in Hzip. rewrite Hk in Hzip. simpl in Hzip.
    destruct (Ht A z) as (wk & Hwk & ->); [by eapply list_elem_of_lookup_2|].
    rewrite Hwk in Hzip. simpl in Hzip.
    split_and!; try done.
    + rewrite lookup_delete_ne; [done|]. congruence.
    + by rewrite lookup_delete_ne.
  - (* POST /cleanup *)
    simplify_eq. unfold post_cleanup in Hstep.
    destruct (compressionProgress w !! A) as [b0|] eqn:Hb0.
    2: { simplify_eq. split_and!; done. }
    simplify_eq. destruct (Hr _ _ Hb0) as (_ & _ & _ & wk & Hwk & Hf & Hzn & _).
    simpl in Hnames, Hzip. rewrite Hwk in Hnames, Hzip. simpl in Hzip.
    destruct (terminate_effect A w) as (Hcp & Hdk & _ & Hother & _).
    set (w1 := if decide (A ∈ batchWorkers w)
               then set_batchWorkers (fun s => s ∖ {[A]}) (terminate A w) else w).
    assert (compressionProgress w1 = compressionProgress w ∧ disk w1 = disk w
            ∧ workers w1 !! B = workers w !! B) as (Hcp1 & Hdk1 & Hwk1).
    { subst w1. case_decide; simpl; [|done]. split_and!; try done. by apply Hother. }
    destruct (cleanupBatchUploadedFiles_disk A w1) as [Hct Hcu].
    assert (Hcu' : ∀ n, n ∈ wd_files (workerData (thread wB)) →
              uploadDir (disk (cleanupBatchUploadedFiles A w1)) !! n
              = uploadDir (disk w) !! n).
    { intros n Hn. rewrite Hcu, Hdk1; [done|]. rewrite Hcp1, Hb0.
      intros b [= <-]. rewrite <- Hf. by apply Hnames. }
    rewrite Hdk1 in Hct.
    assert (Hzz : ∀ z, zipName b0 = Some z → z ≠ zB).
    { intros z Hz ->. apply Hzip. f_equal. symmetry. by apply Hzn. }
    destruct (zipName b0) as [z|]; [destruct (truthy z)|]; simpl;
      rewrite ?cleanupBatchUploadedFiles_workers, ?cleanupBatchUploadedFiles_progress;
      rewrite ?Hcp1, ?Hct; split_and!; try done;
      try (by rewrite lookup_delete_ne);
      rewrite lookup_delete_ne by (by apply Hzz); by rewrite ?Hct.
  - (* a step of A's worker *)
    simplify_eq. destruct (workers w !! A) as [[t q]|] eqn:Hq; [|done].
    destruct (compressAndZip_step t e (disk w)) as [[[t' d'] out]|] eqn:Hs; [|done].
    simplify_eq. simpl. simpl in Hnames, Hzip. rewrite Hq in Hnames, Hzip.
    simpl in Hnames, Hzip. destruct (Hw _ _ Hq) as [Hc _]. simpl in Hc.
    destruct (compressAndZip_step_disk _ _ _ _ _ _ Hs) as [Hdz Hdu].
    split_and!; try done.
    + intros n Hn. apply Hdu. intros rest Hp Hin.
      apply (Hnames n Hn). unfold counted in Hc.
      destruct Hp as [Hp|Hp]; rewrite Hp in Hc;
        destruct Hc as [_ Hsub]; by apply Hsub.
    + apply Hdz. congruence.
    + by rewrite lookup_insert_ne.
    + intros e0 t0 q0 d2 [= <-] [= <- <-] Hag Hagz.
      destruct (compressAndZip_step_reads_own _ _ _ d2 _ _ _ Hc Hag Hagz Hs) as (d2' & ? & ?).
      by exists t', d', d2', out.
  - (* a signal of A's worker *)
    simplify_eq. destruct (workers w !! A) as [[t [|s q]]|] eqn:Hq; try done.
    destruct (handle A s (set_workers <[A := mkWorker t q]> w)) as [w1|] eqn:Hh; [|done].
    simplify_eq. simpl in Hnames. rewrite Hq in Hnames. simpl in Hnames.
    destruct (handle_effect _ _ _ _ Hh) as (Hwk & _ & _ & Hother).
    destruct (handle_disk _ _ _ _ Hh) as [Hdz Hdu]. simpl in *.
    split_and!; try done.
    + intros n Hn. apply Hdu. intros b Hb.
      destruct (Hr _ _ Hb) as (_ & _ & _ & wk & Hwk0 & Hf & _).
      rewrite Hq in Hwk0. simplify_eq. simpl in Hf. rewrite <- Hf. by apply Hnames.
    + by rewrite Hdz.
    + by apply Hother.
    + rewrite Hwk. by rewrite lookup_insert_ne.
Qed.

Lemma distinct_names_isolated_witness :
  ∃ w' r,
    step distinct_world (WorkerStep "b1" (WFile (Some []))) = Some (w', r)
    ∧ uploadDir (disk w') !! "c.txt" = uploadDir (disk distinct_world) !! "c.txt"
    ∧ compressionProgress w' !! "b2" = compressionProgress distinct_world !! "b2".
Proof.
  assert (Hrun : run init distinct_names_trace
                 = Some (distinct_world, responses (run init distinct_names_trace)))
    by (vm_compute; reflexivity).
  destruct (step distinct_world (WorkerStep "b1" (WFile (Some []))))
    as [[w' r]|] eqn:Hstep; [|vm_compute in Hstep; discriminate].
  destruct (workers distinct_world !! "b2") as [wB|] eqn:HB;
    [|vm_compute in HB; discriminate].
  assert (Hfiles : wd_files (workerData (thread wB)) = ["c.txt"]
                   ∧ worker_zipName (workerData (thread wB)) = "compressed_images_b2.zip")
    by (vm_compute in HB; injection HB as <-; split; reflexivity).
  destruct Hfiles as [Hfiles Hzip].
  exists w', r. split; [reflexivity|].
  destruct (distinct_names_isolated distinct_names_trace distinct_world
              (responses (run init distinct_names_trace))
              (WorkerStep "b1" (WFile (Some []))) w' r "b1" "b2" wB)
    as (Hu & _ & Hc & _).
  - exact Hrun.
  - exact Hstep.
  - reflexivity.
  - discriminate.
  - exact HB.
  - intros n Hn. rewrite Hfiles in Hn. apply list_elem_of_singleton in Hn as ->.
    vm_compute. intros Hin. apply list_elem_of_singleton in Hin. discriminate.
  - rewrite Hzip. vm_compute. discriminate.
  - intros z Hz. vm_compute in Hz. injection Hz as <-. reflexivity.
  - rewrite Hzip. reflexivity.
  - split; [|exact Hc]. apply Hu. rewrite Hfiles. apply list_elem_of_singleton. reflexivity.
Defined.

(** * Further properties *)

(** ** Which files are transformed (worker.js lines 9-12, 34, 38-39) *)

Lemma append_nil_l (s : string) : "" +:+ s = s.
Proof. reflexivity. Qed.

Lemma append_cons (c : ascii) (a b : string) : String c a +:+ b = String c (a +:+ b).
Proof. reflexivity. Qed.

Lemma has_sep_app (a b : string) :
  Path.has_sep (a +:+ b) = Path.has_sep a || Path.has_sep b.
Proof.
  induction a as [|c a IH]; rewrite ?append_nil_l, ?append_cons; simpl; [done|].
  rewrite IH. by rewrite orb_assoc.
Qed.

Lemma basename_no_sep (s : string) : Path.has_sep s = false → Path.basename s = s.
Proof.
  destruct s as [|c s]; simpl; [done|].
  intros H. apply orb_false_iff in H as [Hc Hs]. by rewrite Hs, Hc.
Qed.

Lemma split_last_dot_no_dot (s : string) :
  has_dot s = false → Path.split_last_dot s = None.
Proof.
  induction s as [|c s IH]; simpl; [done|].
  intros H. apply orb_false_iff in H as [Hc Hs]. by rewrite IH, Hc.
Qed.

Lemma split_last_dot_app (stem e : string) :
  has_dot e = false →
  Path.split_last_dot (stem +:+ "." +:+ e) = Some (stem, "." +:+ e).
Proof.
  intros He. change ("." +:+ e) with (String "."%char e).
  induction stem as [|c stem IH].
  - change ("" +:+ String "."%char e) with (String "."%char e).
    simpl. by rewrite split_last_dot_no_dot.
  - change (String c stem +:+ String "."%char e)
      with (String c (stem +:+ String "."%char e)).
    simpl. by rewrite IH.
Qed.

Lemma lower_ascii_dot (c : ascii) :
  Ascii.eqb (lower_ascii c) "."%char = Ascii.eqb c "."%char.
Proof. by destruct c as [[] [] [] [] [] [] [] []]. Qed.

Lemma lower_ascii_sep (c : ascii) :
  Ascii.eqb (lower_ascii c) "/"%char = Ascii.eqb c "/"%char.
Proof. by destruct c as [[] [] [] [] [] [] [] []]. Qed.

Lemma toLowerCase_has_dot (s : string) : has_dot (toLowerCase s) = has_dot s.
Proof.
  induction s as [|c s IH]; simpl; [done|]. by rewrite IH, lower_ascii_dot.
Qed.

Lemma toLowerCase_has_sep (s : string) : Path.has_sep (toLowerCase s) = Path.has_sep s.
Proof.
  induction s as [|c s IH]; simpl; [done|]. by rewrite IH, lower_ascii_sep.
Qed.

(** X1. A file named [stem.EXT], where [EXT] is [jpg], [jpeg] or [png] in
    any mix of upper and lower case and [stem] is a non-empty plain name,
    is transformed, and its archive entry is named [stem.webp] and holds
    the codec's output. *)
Theorem image_extension_any_case (stem e : string) (zip : string)
    (buf : bytes) (d : Disk) :
  stem ≠ "" →
  Path.has_sep stem = false →
  toLowerCase e = "jpg" ∨ toLowerCase e = "jpeg" ∨ toLowerCase e = "png" →
  shouldCompress (stem +:+ "." +:+ e) = true
  ∧ Path.parse_name (stem +:+ "." +:+ e) = stem
  ∧ try_file zip (stem +:+ "." +:+ e) (Some buf) d
    = (append_entry zip (stem +:+ ".webp") buf d, []).
Proof.
  intros Hne Hsep Hext.
  assert (Hdot : has_dot e = false).
  { rewrite <- toLowerCase_has_dot. by destruct Hext as [->|[->| ->]]. }
  assert (Hsep' : Path.has_sep e = false).
  { rewrite <- toLowerCase_has_sep. by destruct Hext as [->|[->| ->]]. }
  assert (He : e ≠ "") by (intros ->; by destruct Hext as [?|[?|?]]).
  assert (Hbase : Path.basename (stem +:+ "." +:+ e) = stem +:+ "." +:+ e).
  { apply basename_no_sep. rewrite has_sep_app, Hsep. simpl. exact Hsep'. }
  assert (Hstem : String.eqb stem "" = false) by by apply String.eqb_neq.
  assert (Hnd : String.eqb stem "." && String.eqb ("." +:+ e) "." = false).
  { apply andb_false_iff. right. apply String.eqb_neq. intros [= H]. done. }
  assert (Hs : shouldCompress (stem +:+ "." +:+ e) = true).
  { unfold shouldCompress, Path.extname.
    rewrite Hbase, split_last_dot_app, Hstem, Hnd by done.
    change ("." +:+ e) with (String "."%char e). simpl.
    by destruct Hext as [->|[->| ->]]. }
  assert (Hp : Path.parse_name (stem +:+ "." +:+ e) = stem).
  { unfold Path.parse_name.
    by rewrite Hbase, split_last_dot_app, Hstem, Hnd by done. }
  split_and!; try done. unfold try_file. by rewrite Hs, Hp.
Qed.

Lemma image_extension_any_case_witness :
  shouldCompress "holiday.photo.JpEg" = true
  ∧ Path.parse_name "holiday.photo.JpEg" = "holiday.photo".
Proof.
  destruct (image_extension_any_case "holiday.photo" "JpEg" "z.zip" [] (mkDisk ∅ ∅))
    as (H1 & H2 & _); [discriminate|reflexivity|right; left; reflexivity|].
  split; [exact H1|exact H2].
Defined.

(** X2. A name whose base has no dot, or whose only dot is its first
    character, is never transformed, whatever follows the dot: such a file
    goes into the archive under its own name with its own bytes. *)
Theorem no_extension_passed_through (name zip : string) (x data : bytes) (d : Disk) :
  Path.has_sep name = false →
  has_dot name = false ∨ (∃ rest, name = "." +:+ rest ∧ has_dot rest = false) →
  uploadDir d !! name = Some data →
  shouldCompress name = false
  ∧ try_file zip name (Some x) d = (append_entry zip name data d, []).
Proof.
  intros Hsep Hname Hd.
  assert (Hs : shouldCompress name = false).
  { unfold shouldCompress, Path.extname. rewrite basename_no_sep by done.
    destruct Hname as [Hnd|(rest & -> & Hnd)].
    - by rewrite split_last_dot_no_dot.
    - change ("." +:+ rest) with ("" +:+ "." +:+ rest).
      by rewrite split_last_dot_app. }
  split; [done|]. unfold try_file. by rewrite Hs, Hd.
Qed.

Lemma no_extension_passed_through_witness :
  shouldCompress ".png" = false ∧ shouldCompress "README" = false.
Proof.
  split.
  - apply (no_extension_passed_through ".png" "z.zip" [] []
             (mkDisk {[".png" := []]} ∅)); [reflexivity| |reflexivity].
    right. exists "png". split; reflexivity.
  - apply (no_extension_passed_through "README" "z.zip" [] []
             (mkDisk {["README" := []]} ∅)); [reflexivity| |reflexivity].
    left. reflexivity.
Defined.

(** ** One event, seen from one batch *)

Lemma handle_batchWorkers (batchId : string) (s : Signal) (w w' : World) :
  handle batchId s w = Some w' →
  batchWorkers w'
  = if is_progress s then batchWorkers w else batchWorkers w ∖ {[batchId]}.
Proof.
  destruct s as [[n|zp zn|e]|e|code]; simpl;
    unfold on_message, on_error, on_exit;
    destruct (compressionProgress w !! batchId) as [b|] eqn:Hb; try done;
    intros [= <-]; simpl; rewrite ?cleanupBatchUploadedFiles_batchWorkers; try done.
  destruct (negb (code =? 0)%Z && negb (bool_decide (status b = Error))); simpl;
    by rewrite ?cleanupBatchUploadedFiles_batchWorkers.
Qed.

Lemma post_cleanup_fields (batchId : string) (w : World) (b0 : Batch) :
  compressionProgress w !! batchId = Some b0 →
  let w' := (post_cleanup batchId w).1 in
  compressionProgress w' = delete batchId (compressionProgress w)
  ∧ batchWorkers w' = batchWorkers w ∖ {[batchId]}
  ∧ transfers w' = transfers w
  ∧ workers w' = workers (if decide (batchId ∈ batchWorkers w)
                          then terminate batchId w else w).
Proof.
  intros Hb0. unfold post_cleanup. rewrite Hb0. simpl.
  destruct (terminate_effect batchId w) as (Hcp & _ & Htr & _).
  assert (Hbw : batchWorkers (terminate batchId w) = batchWorkers w).
  { unfold terminate. destruct (workers w !! batchId) as [[t q]|]; [|done].
    by destruct (phase t). }
  destruct (zipName b0) as [z|]; [destruct (truthy z)|]; simpl;
    rewrite ?cleanupBatchUploadedFiles_progress, ?cleanupBatchUploadedFiles_batchWorkers,
      ?cleanupBatchUploadedFiles_transfers, ?cleanupBatchUploadedFiles_workers;
    case_decide; simpl; rewrite ?Hcp, ?Htr, ?Hbw; split_and!; try done; set_solver.
Qed.

(** Every event is, for a given batch with a worker, one of five things. *)
Lemma step_cases (w : World) (ev : Event) (w' : World) (r : option Response)
    (id : string) (wk' : Worker) :
  step w ev = Some (w', r) →
  workers w' !! id = Some wk' →
  Change w w' ev id wk'.
Proof.
  intros Hstep Hwk'.
  destruct ev as [id0 fs body|id0|id0|k|id0|id0 e|id0]; simpl in Hstep.
  - (* POST /compress *)
    destruct fs as [[|f fs]|];
      try (cbn in Hstep; simplify_eq; apply Untouched; [done|by left|done]).
    case_decide as Hfresh; [done|]. cbn in Hstep. simplify_eq. simpl in *.
    destruct (decide (id = id0)) as [->|Hne].
    + rewrite lookup_insert_eq in Hwk'. simplify_eq.
      eapply Created; try done.
      * by apply eq_None_not_Some.
      * simpl. by rewrite lookup_insert_eq.
      * simpl. set_solver.
    + rewrite lookup_insert_ne in Hwk' by done.
      apply Untouched; simpl; [done|left; by rewrite lookup_insert_ne|set_solver].
  - simplify_eq. apply Untouched; [done|by left|done].
  - assert (compressionProgress w' = compressionProgress w ∧ workers w' = workers w
            ∧ batchWorkers w' = batchWorkers w) as (Hc & Hw & Hb).
    { unfold get_download in Hstep.
      destruct (compressionProgress w !! id0) as [b|]; [|by simplify_eq].
      destruct (status b), (zipName b) as [z|]; try (by simplify_eq).
      destruct (truthy z); [|by simplify_eq]. case_decide; by simplify_eq. }
    apply Untouched; [by rewrite <- Hw|left; by rewrite Hc|by rewrite Hb].
  - destruct (transfers w !! k) as [[id1 z]|]; [|done]. simplify_eq. simpl in *.
    apply Untouched; [done| |done]. simpl.
    destruct (decide (id = id1)) as [->|Hne];
      [right; by rewrite lookup_delete_eq|left; by rewrite lookup_delete_ne].
  - (* POST /cleanup *)
    destruct (compressionProgress w !! id0) as [b0|] eqn:Hb0.
    2: { unfold post_cleanup in Hstep. rewrite Hb0 in Hstep. simplify_eq.
         apply Untouched; [done|by left|done]. }
    destruct (post_cleanup_fields id0 w b0 Hb0) as (Hc & Hbw & _ & Hws).
    destruct (post_cleanup id0 w) as [w1 r1] eqn:Hpc. simplify_eq. simpl in *.
    destruct (terminate_effect id0 w) as (_ & _ & _ & Hother & Hself).
    destruct (decide (id = id0)) as [->|Hne].
    + case_decide as Hin.
      * rewrite Hws in Hwk'.
        assert (∃ wk, workers w !! id0 = Some wk) as [wk Hwk].
        { unfold terminate in Hwk'.
          destruct (workers w !! id0) as [[t q]|] eqn:Hq; [by eauto|]. by rewrite Hq in Hwk'. }
        unfold terminate in Hwk'. rewrite Hwk in Hwk'. destruct wk as [t q].
        destruct (phase t) eqn:Hp;
          try (simpl in Hwk'; rewrite lookup_insert_eq in Hwk'; simplify_eq;
               eapply Terminated; try done; by rewrite Hc, lookup_delete_eq).
        apply Untouched; [by simpl in Hwk'|right; by rewrite Hc, lookup_delete_eq|].
        rewrite Hc, lookup_delete_eq. by intros [? ?].
      * rewrite Hws in Hwk'.
        apply Untouched; [done|right; by rewrite Hc, lookup_delete_eq|].
        rewrite Hc, lookup_delete_eq. by intros [? ?].
    + apply Untouched.
      * rewrite Hws in Hwk'. case_decide; [by rewrite <- Hother|done].
      * left. by rewrite Hc, lookup_delete_ne.
      * intros _. rewrite Hbw. set_solver.
  - (* a step of a worker *)
    destruct (workers w !! id0) as [[t q]|] eqn:Hq; [|done].
    destruct (compressAndZip_step t e (disk w)) as [[[t' d'] out]|] eqn:Hs; [|done].
    simplify_eq. simpl in *. destruct (decide (id = id0)) as [->|Hne].
    + rewrite lookup_insert_eq in Hwk'. simplify_eq. by eapply Stepped.
    + rewrite lookup_insert_ne in Hwk' by done. apply Untouched; [done|by left|done].
  - (* delivery of a signal *)
    destruct (workers w !! id0) as [[t [|s q]]|] eqn:Hq; try done.
    destruct (handle id0 s (set_workers <[id0 := mkWorker t q]> w)) as [w1|] eqn:Hh; [|done].
    simplify_eq. pose proof (handle_batchWorkers _ _ _ _ Hh) as Hbw.
    apply handle_effect in Hh as (Hwk & _ & Hself & Hother). simpl in *.
    rewrite Hwk in Hwk'. destruct (decide (id = id0)) as [->|Hne].
    + rewrite lookup_insert_eq in Hwk'. simplify_eq.
      eapply Delivered; try done. rewrite Hbw.
      destruct (is_progress s); set_solver.
    + rewrite lookup_insert_ne in Hwk' by done.
      apply Untouched; [done|left; by apply Hother|].
      intros _. rewrite Hbw. destruct (is_progress s); set_solver.
Qed.

(** ** Signals in order *)

Lemma progress_values_nil_quiet (q : list Signal) : progress_values q = [] → quiet q.
Proof.
  induction q as [|s q IH]; [done|]. destruct s as [[n|zp zn|e]|e|code]; simpl; try done.
Qed.

Lemma quiet_app (q out : list Signal) :
  quiet q → progress_values out = [] → quiet (q ++ out).
Proof.
  intros Hq Ho. induction q as [|s q IH]; simpl.
  - by apply progress_values_nil_quiet.
  - destruct s as [[n|zp zn|e]|e|code]; simpl in *; eauto.
    by rewrite progress_values_app, Hq, Ho.
Qed.

Lemma quiet_app_progress (q out : list Signal) :
  Forall (fun s => is_progress s = true) q → quiet out → quiet (q ++ out).
Proof.
  intros Hq Ho. induction Hq as [|s q Hs Hq IH]; simpl; [done|].
  by destruct s as [[n|zp zn|e]|e|code].
Qed.

Lemma announced_app (q out : list Signal) : announced q → announced (q ++ out).
Proof.
  induction q as [|s q IH]; simpl; [done|].
  destruct s as [[n|zp zn|e]|e|code]; simpl; eauto.
Qed.

Lemma announced_app_progress (q out : list Signal) :
  Forall (fun s => is_progress s = true) q → announced out → announced (q ++ out).
Proof.
  intros Hq Ho. induction Hq as [|s q Hs Hq IH]; simpl; [done|].
  by destruct s as [[n|zp zn|e]|e|code].
Qed.

Lemma progress_only_no_complete (q : list Signal) :
  Forall (fun s => is_progress s = true) q →
  ¬ Exists (fun s => is_complete s = true) q.
Proof.
  intros Hq Hex. apply Exists_exists in Hex as (s & Hin & Hs).
  rewrite Forall_forall in Hq. specialize (Hq _ Hin).
  by destruct s as [[n|zp zn|e]|e|code].
Qed.

Lemma progress_only_not_announced (q : list Signal) :
  Forall (fun s => is_progress s = true) q → ¬ announced q.
Proof.
  intros Hq. induction Hq as [|s q Hs Hq IH]; simpl; [by intros []|].
  by destruct s as [[n|zp zn|e]|e|code].
Qed.

(** What a step of the worker does to its count and its port. *)
Lemma compressAndZip_step_summary t e d t' d' out :
  counted t →
  compressAndZip_step t e d = Some (t', d', out) →
  let n := length (wd_files (workerData t)) in
  workerData t' = workerData t
  ∧ ((settled (phase t) = false ∧ settled (phase t') = false
      ∧ ((out = [] ∧ completedCount t' = completedCount t)
         ∨ (out = [OnMessage (MsgProgress (S (completedCount t)))]
            ∧ completedCount t' = S (completedCount t)))
      ∧ (phase t' = AwaitClose → completedCount t' = n))
     ∨ (phase t = AwaitClose ∧ settled (phase t') = true
        ∧ completedCount t' = completedCount t
        ∧ ∃ zp zn, out = [OnMessage (MsgComplete zp zn)])
     ∨ (settled (phase t') = true
        ∧ completedCount t' = completedCount t
        ∧ progress_values out = []
        ∧ ¬ Exists (fun s => is_complete s = true) out
        ∧ (settled (phase t) = false → announced out))).
Proof.
  intros Hc Hstep n. unfold compressAndZip_step in Hstep. unfold counted in Hc.
  assert (Hnc : ∀ l, Forall (fun s => is_complete s = false) l →
                     ¬ Exists (fun s => is_complete s = true) l).
  { intros l Hl Hex. apply Exists_exists in Hex as (s & Hin & Hs).
    rewrite Forall_forall in Hl. specialize (Hl _ Hin). congruence. }
  destruct (phase t) as [|rest|rest| | | |] eqn:Hp; try done;
    destruct e as [[]|r|[]| |err|]; try destruct rest as [|name rest];
    simplify_eq; simpl in *.
  all: try (split; [done|]; right; right; split_and!; try done;
            by apply Hnc; repeat constructor).
  all: try (split; [done|]; right; left; split_and!; try done; by eexists _, _).
  all: try (split; [done|]; left; split_and!; try done; try (by left);
            try (intros ?; subst n; lia)).
  all: unfold process_file in Hstep;
    destruct (try_file (worker_zipName (workerData t)) name r d) as [d1 o];
    simplify_eq; simpl; (split; [done|]); left;
    destruct (is_broken (phase t) || stream_fails name r d);
    split_and!; try done; by right.
Qed.

Lemma entry_inv_mono (P P' : Prop) (b : Batch) (wk : Worker) :
  (P → P') → entry_inv P b wk → entry_inv P' b wk.
Proof.
  intros HP (K1 & K2 & K7 & K0 & K3 & K4 & K6). split_and!; try done.
  intros Hs. destruct (K6 Hs) as [? ?]. split; [by apply HP|done].
Qed.

Lemma Exists_complete_app_inv (q out : list Signal) :
  ¬ Exists (fun s => is_complete s = true) out →
  Exists (fun s => is_complete s = true) (q ++ out) →
  Exists (fun s => is_complete s = true) q.
Proof. intros Hn H. apply Exists_app in H as [?|?]; [done|by destruct Hn]. Qed.

Lemma settled_false_true (p : Phase) : settled p = false → settled p = true → False.
Proof. congruence. Qed.

Lemma entry_inv_stepped (P : Prop) (b : Batch) t q e d t' d' out :
  counted t →
  entry_inv P b (mkWorker t q) →
  compressAndZip_step t e d = Some (t', d', out) →
  entry_inv P b (mkWorker t' (q ++ out)).
Proof.
  intros Hc (K1 & K2 & K7 & K0 & K3 & K4 & K6) Hstep. simpl in *.
  destruct (compressAndZip_step_summary _ _ _ _ _ _ Hc Hstep) as [Hwd Hcases].
  unfold entry_inv. simpl. rewrite Hwd, progress_values_app.
  destruct Hcases as [(Hu & Hu' & Hout & Hac)|[(Hph & Hs' & Hcount & zp & zn & ->)
                      |(Hs' & Hcount & Hpv & Hnc & Han)]].
  - (* still running *)
    pose proof (K7 Hu) as Hq.
    assert (Hno : ¬ (status b = Complete ∨ Exists (fun s => is_complete s = true) q)).
    { intros H. destruct (K3 H) as [_ Hs]. congruence. }
    destruct Hout as [[-> Hcount]|[-> Hcount]]; simpl.
    + rewrite !app_nil_r. split_and!.
      * by rewrite Hcount.
      * done.
      * done.
      * done.
      * intros H. by destruct Hno.
      * intros H. destruct Hno. by left.
      * intros H. destruct (K6 H) as [? _]. split; [done|]. congruence.
    + split_and!.
      * by rewrite last_snoc, Hcount.
      * by apply quiet_app_progress.
      * intros _. apply Forall_app. split; [done|]. by repeat constructor.
      * done.
      * intros [H|H]; [destruct Hno; by left|].
        destruct Hno. right. eapply Exists_complete_app_inv; [|done].
        intros Hex. apply Exists_cons in Hex as [?|Hex]; [done|by apply Exists_nil in Hex].
      * intros H. destruct Hno. by left.
      * intros H. destruct (K6 H) as [? _]. split; [done|]. congruence.
  - (* the complete message *)
    assert (Hu : settled (phase t) = false) by by rewrite Hph.
    pose proof (K7 Hu) as Hq. simpl. rewrite app_nil_r.
    split_and!.
    + by rewrite Hcount.
    + by apply quiet_app_progress.
    + congruence.
    + intros Hp. rewrite Hp in Hs'. done.
    + intros _. rewrite Hcount. split; [by apply K0|done].
    + intros H. destruct (K3 (or_introl H)) as [_ Hs]. congruence.
    + intros H. destruct (K6 H) as [? _]. split; [done|].
      intros _. by apply announced_app_progress.
  - (* an error or the end of the thread *)
    rewrite Hpv, app_nil_r. split_and!.
    + by rewrite Hcount.
    + by apply quiet_app.
    + congruence.
    + intros Hp. rewrite Hp in Hs'. done.
    + intros H. rewrite Hcount. split; [|done]. apply K3. destruct H as [?|H]; [by left|].
      right. by eapply Exists_complete_app_inv.
    + done.
    + intros H. destruct (K6 H) as [? Ha]. split; [done|]. intros _.
      destruct (settled (phase t)) eqn:Hst.
      * by apply announced_app, Ha.
      * apply announced_app_progress; [by apply K7|by apply Han].
Qed.

Lemma last_progress_cons (c n : nat) (l : list nat) :
  default c (last (n :: l)) = default n (last l).
Proof.
  destruct l as [|x l]; [done|]. rewrite last_cons_cons.
  destruct (last (x :: l)) eqn:H; [done|]. by apply last_None in H.
Qed.

Lemma entry_inv_delivered (P : Prop) (b : Batch) t s q :
  entry_inv P b (mkWorker t (s :: q)) →
  entry_inv (P ∧ is_progress s = true) (entry_after s b) (mkWorker t q).
Proof.
  intros (K1 & K2 & K7 & K0 & K3 & K4 & K6). unfold entry_inv. simpl in *.
  assert (K7' : settled (phase t) = false → Forall (fun s => is_progress s = true) q).
  { intros H. specialize (K7 H). by apply Forall_cons in K7 as [_ ?]. }
  assert (K3' : Exists (fun s => is_complete s = true) q →
                completedCount t = length (wd_files (workerData t))
                ∧ settled (phase t) = true).
  { intros H. apply K3. right. by apply Exists_cons_tl. }
  destruct s as [[n|zp zn|e]|e|code]; simpl in *.
  - rewrite last_progress_cons in K1. split_and!; try done.
    + intros [H|H]; [apply K3; by left|by apply K3'].
    + intros H. by destruct (K4 H).
    + intros H. destruct (K6 H) as [? ?]. done.
  - split_and!; try done.
    + by apply progress_values_nil_quiet.
    + intros _. apply K3. right. by apply Exists_cons_hd.
  - split_and!; try done. intros [H|H]; [done|by apply K3'].
  - split_and!; try done. intros [H|H]; [done|by apply K3'].
  - destruct (negb (code =? 0)%Z && negb (bool_decide (status b = Error))); simpl.
    + split_and!; try done. intros [H|H]; [done|by apply K3'].
    + split_and!; try done.
      * intros [H|H]; [apply K3; by left|by apply K3'].
      * intros H. destruct (K6 H) as [_ Ha]. exfalso.
        destruct (settled (phase t)) eqn:Hst; [by apply Ha|].
        specialize (K7 eq_refl). by apply Forall_cons in K7 as [? _].
Qed.

Lemma delivery_inv_init : delivery_inv init.
Proof. split; intros id x; simpl; by rewrite lookup_empty. Qed.

Lemma step_delivery_inv (w : World) (ev : Event) (w' : World) (r : option Response) :
  world_inv w → delivery_inv w → step w ev = Some (w', r) → delivery_inv w'.
Proof.
  intros Hinv [Hid Hent] Hstep. split.
  - intros id wk' Hwk'.
    destruct (step_cases _ _ _ _ _ _ Hstep Hwk')
      as [Hwk _ _|f fs body _ _ -> _ _|e t q t' d' out _ Hwk Hs -> _ _
         |s t q _ Hwk -> _ _|wk _ Hwk Hd _ _].
    + by apply Hid.
    + done.
    + simpl. pose proof (inv_worker _ _ _ Hinv Hwk) as Hc.
      destruct (compressAndZip_step_counted _ _ _ _ _ _ Hc Hs) as (_ & -> & _).
      by apply (Hid _ _ Hwk).
    + by apply (Hid _ _ Hwk).
    + rewrite Hd. by apply Hid.
  - intros id b' wk' Hb' Hwk'.
    destruct (step_cases _ _ _ _ _ _ Hstep Hwk')
      as [Hwk Hcp Hbw|f fs body _ _ -> Hcp Hin|e t q t' d' out _ Hwk Hs -> Hcp Hbw
         |s t q _ Hwk -> Hcp Hbw|wk _ _ _ _ Hcp].
    + destruct Hcp as [Hcp|Hcp]; [|congruence].
      eapply entry_inv_mono; [|apply (Hent id b' wk'); [congruence|done]].
      apply Hbw. by rewrite Hb'.
    + rewrite Hcp in Hb'. simplify_eq. unfold entry_inv. simpl.
      split_and!; try done. by intros [?|H%Exists_nil].
    + rewrite Hcp in Hb'. rewrite Hbw.
      eapply entry_inv_stepped; [|by apply Hent|done].
      by apply (inv_worker _ _ _ Hinv Hwk).
    + destruct (compressionProgress w !! id) as [b|] eqn:Hb; [|by rewrite Hcp in Hb'].
      rewrite Hcp in Hb'. simpl in Hb'. simplify_eq.
      eapply entry_inv_mono; [|apply entry_inv_delivered; by apply Hent].
      by apply Hbw.
    + congruence.
Qed.

Lemma run_delivery_inv (tr : list Event) (w : World) rs :
  run init tr = Some (w, rs) → world_inv w ∧ delivery_inv w.
Proof.
  assert (H : ∀ tr w0 w rs, world_inv w0 → delivery_inv w0 →
              run w0 tr = Some (w, rs) → world_inv w ∧ delivery_inv w).
  { clear. induction tr as [|ev tr IH]; intros w0 w rs Hi Hd H; simpl in H.
    - by simplify_eq.
    - destruct (step w0 ev) as [[w1 r]|] eqn:Hstep; [|done].
      destruct (run w1 tr) as [[w2 rs']|] eqn:Hrun; [|done]. simplify_eq.
      eapply IH; [| |done].
      + by eapply step_world_inv.
      + by eapply step_delivery_inv. }
  apply H; [apply world_inv_init|apply delivery_inv_init].
Qed.

(** ** A batch that is Complete (index.js lines 136-143, 195-228) *)

(** *** Rounding to the nearest double *)

Section DoubleFacts.
Local Open Scope Q_scope.
Import Double.

Lemma pow2_pos (z : Z) : 0 < 2 ^ z.
Proof. apply Qpower_0_lt. reflexivity. Qed.

Lemma pow2_add (a b : Z) : 2 ^ (a + b) == 2 ^ a * 2 ^ b.
Proof. apply Qpower_plus. discriminate. Qed.

Lemma pow2_succ (a : Z) : 2 ^ (a + 1) == 2 * 2 ^ a.
Proof. rewrite pow2_add. change (2 ^ 1) with 2. ring. Qed.

Lemma pow2_inject (a : Z) : (0 <= a)%Z → inject_Z (2 ^ a) == 2 ^ a.
Proof. intros Ha. by apply (Zpower_Qpower 2). Qed.

Lemma pow2_lt_inv (a b : Z) : 2 ^ a < 2 ^ b → (a < b)%Z.
Proof. intros H. by apply (Qpower_lt_compat_l_inv 2). Qed.

Lemma pow2_le (a b : Z) : (a <= b)%Z → 2 ^ a <= 2 ^ b.
Proof. intros H. by apply Qpower_le_compat_l. Qed.

Lemma nearest_even_comp (x y : Q) : x == y → nearest_even x = nearest_even y.
Proof.
  intros H. unfold nearest_even. rewrite (Qfloor_comp _ _ H).
  assert (Hc : Qcompare (x - inject_Z (Qfloor y)) (1 # 2)
               = Qcompare (y - inject_Z (Qfloor y)) (1 # 2)).
  { apply Qcompare_comp; [|reflexivity]. rewrite H. reflexivity. }
  cbv zeta. by rewrite Hc.
Qed.

Lemma nearest_even_inject (z : Z) : nearest_even (inject_Z z) = z.
Proof.
  unfold nearest_even. rewrite Qfloor_Z.
  destruct (Qcompare_spec (inject_Z z - inject_Z z) (1 # 2)) as [H|H|H]; [lra|done|lra].
Qed.

Lemma nearest_even_mono (x y : Q) : x <= y → (nearest_even x <= nearest_even y)%Z.
Proof.
  intros Hxy. pose proof (Qfloor_resp_le _ _ Hxy) as Hf.
  pose proof (Qfloor_le x) as Hx1. pose proof (Qlt_floor x) as Hx2.
  pose proof (Qfloor_le y) as Hy1. pose proof (Qlt_floor y) as Hy2.
  rewrite inject_Z_plus in Hx2, Hy2.
  unfold nearest_even.
  destruct (Z.eq_dec (Qfloor x) (Qfloor y)) as [Heq|Hne].
  - rewrite <- Heq in *.
    destruct (Qcompare_spec (x - inject_Z (Qfloor x)) (1 # 2)) as [H1|H1|H1],
             (Qcompare_spec (y - inject_Z (Qfloor x)) (1 # 2)) as [H2|H2|H2];
      try destruct (Z.even (Qfloor x)); try lia; lra.
  - destruct (Qcompare (x - inject_Z (Qfloor x)) (1 # 2)),
             (Qcompare (y - inject_Z (Qfloor y)) (1 # 2));
      try destruct (Z.even (Qfloor x)); try destruct (Z.even (Qfloor y)); lia.
Qed.

Lemma exponent_spec (x : Q) :
  0 < x → 2 ^ (52 + exponent x) <= x ∧ x < 2 ^ (53 + exponent x).
Proof.
  intros Hx. destruct x as [n d]. unfold exponent. cbn [Qnum Qden].
  assert (Hn : (0 < n)%Z) by (unfold Qlt in Hx; simpl in Hx; lia).
  destruct (Z.log2_spec n Hn) as [Hn1 Hn2].
  destruct (Z.log2_spec (Zpos d) eq_refl) as [Hd1 Hd2].
  pose proof (Z.log2_nonneg n) as Hln. pose proof (Z.log2_nonneg (Zpos d)) as Hld.
  set (ln := Z.log2 n) in *. set (ld := Z.log2 (Zpos d)) in *.
  rewrite Zle_Qle, pow2_inject in Hn1, Hd1 by done.
  rewrite Zlt_Qlt, pow2_inject in Hn2, Hd2 by lia.
  replace (Z.succ ln) with (ln + 1)%Z in Hn2 by lia.
  replace (Z.succ ld) with (ld + 1)%Z in Hd2 by lia.
  rewrite pow2_succ in Hn2, Hd2.
  assert (Hk : 2 ^ (ln - ld) * 2 ^ ld == 2 ^ ln).
  { rewrite <- pow2_add. by replace (ln - ld + ld)%Z with ln by lia. }
  assert (Hxd : (n # d) * inject_Z (Zpos d) == inject_Z n).
  { rewrite (Qmake_Qdiv n d). field. discriminate. }
  pose proof (pow2_pos (ln - ld)) as HK. pose proof (pow2_pos ld) as HB.
  set (K := 2 ^ (ln - ld)) in *. set (B := 2 ^ ld) in *. set (A := 2 ^ ln) in *.
  set (D := inject_Z (Zpos d)) in *. set (N := inject_Z n) in *. set (X := n # d) in *.
  assert (Hlo : K < 2 * X) by nra.
  assert (Hhi : X < 2 * K) by nra.
  destruct (Qle_bool K X) eqn:Hb.
  - apply Qle_bool_iff in Hb.
    replace (52 + (ln - ld - 52))%Z with (ln - ld)%Z by lia.
    replace (53 + (ln - ld - 52))%Z with (ln - ld + 1)%Z by lia.
    rewrite pow2_succ. fold K. split; [done|lra].
  - assert (Hlt : X < K).
    { apply Qnot_le_lt. intros H. apply Qle_bool_iff in H. congruence. }
    replace (53 + (ln - ld - 53))%Z with (ln - ld)%Z by lia.
    assert (HK2 : K == 2 * 2 ^ (52 + (ln - ld - 53))).
    { rewrite <- pow2_succ. unfold K. by replace (52 + (ln - ld - 53) + 1)%Z with (ln - ld)%Z by lia. }
    fold K. split; [lra|done].
Qed.

Lemma exponent_unique (x : Q) (e : Z) :
  2 ^ (52 + e) <= x → x < 2 ^ (53 + e) → exponent x = e.
Proof.
  intros H1 H2.
  assert (Hx : 0 < x) by (pose proof (pow2_pos (52 + e)); lra).
  destruct (exponent_spec x Hx) as [H3 H4].
  assert (Ha : 2 ^ (52 + e) < 2 ^ (53 + exponent x)) by lra.
  assert (Hb : 2 ^ (52 + exponent x) < 2 ^ (53 + e)) by lra.
  apply pow2_lt_inv in Ha, Hb. lia.
Qed.

Lemma scaled_spec (x : Q) :
  0 < x → inject_Z (2 ^ 52) <= x / 2 ^ exponent x ∧ x / 2 ^ exponent x < inject_Z (2 ^ 53).
Proof.
  intros Hx. destruct (exponent_spec x Hx) as [H1 H2].
  rewrite pow2_add in H1, H2. pose proof (pow2_pos (exponent x)) as Hp.
  rewrite !pow2_inject by done. split.
  - by apply Qle_shift_div_l.
  - by apply Qlt_shift_div_r.
Qed.

Lemma round_zero (x : Q) : x == 0 → round x == 0.
Proof.
  intros Hx. unfold round.
  rewrite (nearest_even_comp (x / 2 ^ exponent x) (inject_Z 0)).
  - rewrite nearest_even_inject. ring.
  - apply Qeq_trans with (0 * / 2 ^ exponent x); [|ring].
    apply Qmult_comp; [exact Hx|reflexivity].
Qed.

Lemma round_nonneg (x : Q) : 0 <= x → 0 <= round x.
Proof.
  intros Hx. unfold round. pose proof (pow2_pos (exponent x)) as Hp.
  apply Qmult_le_0_compat; [|lra].
  change 0 with (inject_Z 0). rewrite <- Zle_Qle.
  rewrite <- (nearest_even_inject 0). apply nearest_even_mono.
  apply Qle_shift_div_l; [done|]. change (inject_Z 0) with 0. lra.
Qed.

Lemma round_exact (x : Q) (m e : Z) :
  (2 ^ 52 <= m < 2 ^ 53)%Z → x == inject_Z m * 2 ^ e → round x == x.
Proof.
  intros [Hm1 Hm2] Hx. pose proof (pow2_pos e) as Hp.
  rewrite Zle_Qle in Hm1. rewrite Zlt_Qlt in Hm2. rewrite pow2_inject in Hm1, Hm2 by done.
  assert (He : exponent x = e).
  { apply exponent_unique; rewrite pow2_add, Hx.
    - apply Qmult_le_compat_r; lra.
    - apply Qmult_lt_compat_r; lra. }
  unfold round. rewrite He.
  rewrite (nearest_even_comp (x / 2 ^ e) (inject_Z m)).
  - rewrite nearest_even_inject. by rewrite Hx.
  - rewrite Hx. field. lra.
Qed.

Lemma round_mono (x y : Q) : 0 <= x → x <= y → round x <= round y.
Proof.
  intros Hx Hxy. destruct (Qeq_dec x 0) as [H0|H0].
  { rewrite (round_zero x H0). apply round_nonneg. lra. }
  assert (Hx' : 0 < x) by (apply Qle_lteq in Hx as [?|?]; [done|]; exfalso; apply H0; by symmetry).
  assert (Hy' : 0 < y) by lra.
  destruct (exponent_spec x Hx') as [Hx1 Hx2]. destruct (exponent_spec y Hy') as [Hy1 Hy2].
  destruct (scaled_spec x Hx') as [Sx1 Sx2]. destruct (scaled_spec y Hy') as [Sy1 Sy2].
  assert (Hle : (exponent x <= exponent y)%Z).
  { assert (H : 2 ^ (52 + exponent x) < 2 ^ (53 + exponent y)) by lra.
    apply pow2_lt_inv in H. lia. }
  pose proof (pow2_pos (exponent x)) as Hpx. pose proof (pow2_pos (exponent y)) as Hpy.
  unfold round. destruct (Z.eq_dec (exponent x) (exponent y)) as [He|He].
  - rewrite <- He in *. apply Qmult_le_compat_r; [|lra].
    rewrite <- Zle_Qle. apply nearest_even_mono.
    apply Qle_shift_div_l; [done|]. unfold Qdiv. rewrite <- Qmult_assoc.
    rewrite (Qmult_comm (/ _)), Qmult_inv_r by lra. lra.
  - assert (Hnx : (nearest_even (x / 2 ^ exponent x) <= 2 ^ 53)%Z).
    { rewrite <- (nearest_even_inject (2 ^ 53)). apply nearest_even_mono. lra. }
    assert (Hny : (2 ^ 52 <= nearest_even (y / 2 ^ exponent y))%Z).
    { rewrite <- (nearest_even_inject (2 ^ 52)). by apply nearest_even_mono. }
    rewrite Zle_Qle in Hnx, Hny. rewrite pow2_inject in Hnx, Hny by done.
    assert (Hp : 2 ^ (53 + exponent x) <= 2 ^ (52 + exponent y)) by (apply pow2_le; lia).
    rewrite !pow2_add in Hp.
    apply Qle_trans with (2 ^ 53 * 2 ^ exponent x).
    + apply Qmult_le_compat_r; lra.
    + apply Qle_trans with (2 ^ 52 * 2 ^ exponent y); [done|].
      apply Qmult_le_compat_r; lra.
Qed.

Lemma Math_round_mono (x y : Q) : x <= y → (Math_round x <= Math_round y)%Z.
Proof. intros H. apply Qfloor_resp_le. lra. Qed.

Lemma Math_round_comp (x y : Q) : x == y → Math_round x = Math_round y.
Proof.
  intros H. unfold Math_round. apply Qfloor_comp. rewrite H. reflexivity.
Qed.

Lemma round_one (x : Q) : x == 1 → round x == 1.
Proof.
  intros Hx. rewrite (round_exact x (2 ^ 52) (-52)); [done|lia|]. by rewrite Hx.
Qed.

Lemma round_hundred (x : Q) : x == 100 → round x == 100.
Proof.
  intros Hx. rewrite (round_exact x (100 * 2 ^ 46) (-46)); [done|lia|]. by rewrite Hx.
Qed.

End DoubleFacts.

Lemma progressPercent_full (n : nat) : 1 ≤ n → progressPercent n n = Some 100%Z.
Proof.
  intros Hn. unfold progressPercent. rewrite decide_False by lia. f_equal.
  unfold Double.mul, Double.div.
  assert (H1 : (inject_Z (Z.of_nat n) / inject_Z (Z.of_nat n) == 1)%Q).
  { field. intros H. unfold Qeq in H. simpl in H. lia. }
  apply round_one in H1.
  assert (H2 : (Double.round (inject_Z (Z.of_nat n) / inject_Z (Z.of_nat n)) * 100 == 100)%Q)
    by (rewrite H1; ring).
  apply round_hundred in H2. by rewrite (Math_round_comp _ _ H2).
Qed.

(** X3. In every reachable state, an entry whose status is [Complete]
    has counted all its files: the progress endpoint answers 100 with
    [completedFiles] equal to [totalFiles]. The [complete] message leaves
    the worker after its last progress message, and signals are delivered
    in order. *)
Theorem complete_means_all_counted (tr : list Event) (w : World) rs
    (batchId : string) (b : Batch) :
  run init tr = Some (w, rs) →
  compressionProgress w !! batchId = Some b →
  status b = Complete →
  completed b = total b
  ∧ get_progress batchId w = JsonProgress (Some 100%Z) Complete (total b) (total b).
Proof.
  intros Hrun Hb Hs. destruct (run_delivery_inv _ _ _ Hrun) as [Hinv [_ Hent]].
  destruct Hinv as (_ & Hr & _).
  destruct (Hr _ _ Hb) as (Hpos & Ht & _ & wk & Hwk & Hf & _ & _).
  destruct (Hent _ _ _ Hb Hwk) as (K1 & _ & _ & _ & K3 & K4 & _).
  destruct (K4 Hs) as [Hpv _]. destruct (K3 (or_introl Hs)) as [Hn _].
  rewrite Hpv in K1. simpl in K1.
  assert (Hc : completed b = total b) by congruence.
  split; [done|]. unfold get_progress. rewrite Hb, Hc, Hs.
  by rewrite progressPercent_full.
Qed.

Lemma complete_means_all_counted_witness :
  get_progress "b1" (final_world (run init completed_trace))
  = JsonProgress (Some 100%Z) Complete 1 1.
Proof.
  assert (Hrun : run init completed_trace
                 = Some (final_world (run init completed_trace),
                         responses (run init completed_trace)))
    by (vm_compute; reflexivity).
  assert (Hb : compressionProgress (final_world (run init completed_trace)) !! "b1"
               = Some (mkBatch 1 1 Complete ["a.txt"] (Some "compressed_images_b1.zip")))
    by (vm_compute; reflexivity).
  exact (proj2 (complete_means_all_counted _ _ _ "b1" _ Hrun Hb eq_refl)).
Defined.

Lemma zipName_of_truthy (folder : option string) (batchId : string) :
  truthy (zipName_of folder batchId) = true.
Proof.
  unfold zipName_of. destruct folder as [f|]; [|done].
  destruct (truthy f) eqn:Hf; [|done]. by destruct f.
Qed.

(** X4. In every reachable state, the archive name recorded for a
    [Complete] entry is the name its worker computed from the submitted
    folder label and the batch id, and the download request of that batch
    is refused only when that file is not in the output area. *)
Theorem complete_download (tr : list Event) (w : World) rs
    (batchId : string) (b : Batch) :
  run init tr = Some (w, rs) →
  compressionProgress w !! batchId = Some b →
  status b = Complete →
  ∃ wk, workers w !! batchId = Some wk
    ∧ let zn := zipName_of (wd_zipFolderName (workerData (thread wk))) batchId in
      zipName b = Some zn
      ∧ (is_Some (tempCompressedDir (disk w) !! zn) →
           (get_download batchId w).2 = Download (Path.join tempCompressedPath zn) zn)
      ∧ (tempCompressedDir (disk w) !! zn = None →
           get_download batchId w = (w, Status404 "Zip file not found on server disk.")).
Proof.
  intros Hrun Hb Hs. destruct (run_delivery_inv _ _ _ Hrun) as [Hinv [Hid Hent]].
  destruct Hinv as (_ & Hr & _).
  destruct (Hr _ _ Hb) as (_ & _ & _ & wk & Hwk & _ & Hzn & _).
  destruct (Hent _ _ _ Hb Hwk) as (_ & _ & _ & _ & _ & K4 & _).
  destruct (K4 Hs) as [_ [z Hz]]. pose proof (Hzn _ Hz) as ->.
  exists wk. split; [done|]. unfold worker_zipName in Hz. rewrite (Hid _ _ Hwk) in Hz.
  simpl. split_and!; [done| |]; unfold get_download; rewrite Hb, Hs, Hz, zipName_of_truthy.
  - intros Hf. by rewrite decide_True.
  - intros Hf. rewrite decide_False; [done|]. rewrite Hf. by intros [? ?].
Qed.

Lemma complete_download_witness :
  (get_download "b1" (final_world (run init completed_trace))).2
  = Download "temp_compressed/compressed_images_b1.zip" "compressed_images_b1.zip".
Proof.
  assert (Hrun : run init completed_trace
                 = Some (final_world (run init completed_trace),
                         responses (run init completed_trace)))
    by (vm_compute; reflexivity).
  assert (Hb : compressionProgress (final_world (run init completed_trace)) !! "b1"
               = Some (mkBatch 1 1 Complete ["a.txt"] (Some "compressed_images_b1.zip")))
    by (vm_compute; reflexivity).
  destruct (complete_download _ _ _ "b1" _ Hrun Hb eq_refl) as (wk & Hwk & Hz & Hd & _).
  vm_compute in Hwk. injection Hwk as <-.
  apply Hd. vm_compute. eexists. reflexivity.
Defined.

(** ** The percentage of the progress endpoint (index.js line 203) *)

Lemma ratio_bounds (c t : nat) :
  1 ≤ t → (0 <= inject_Z (Z.of_nat c) / inject_Z (Z.of_nat t))%Q
          ∧ (c ≤ t → (inject_Z (Z.of_nat c) / inject_Z (Z.of_nat t) <= 1)%Q).
Proof.
  intros Ht.
  assert (Hpos : (0 < inject_Z (Z.of_nat t))%Q).
  { change 0%Q with (inject_Z 0). rewrite <- Zlt_Qlt. lia. }
  split.
  - apply Qle_shift_div_l; [done|]. rewrite Qmult_0_l.
    change 0%Q with (inject_Z 0). rewrite <- Zle_Qle. lia.
  - intros Hc. apply Qle_shift_div_r; [done|]. rewrite Qmult_1_l.
    rewrite <- Zle_Qle. lia.
Qed.

Lemma percent_mono (x y : Q) :
  (0 <= x)%Q → (x <= y)%Q →
  (Double.Math_round (Double.mul (Double.round x) 100)
   ≤ Double.Math_round (Double.mul (Double.round y) 100))%Z.
Proof.
  intros Hx Hxy. apply Math_round_mono. unfold Double.mul.
  pose proof (round_nonneg x Hx) as H0. pose proof (round_mono x y Hx Hxy) as H1.
  apply round_mono; lra.
Qed.

Lemma percent_zero : Double.Math_round (Double.mul (Double.round 0) 100) = 0%Z.
Proof. by vm_compute. Qed.

Lemma percent_one : Double.Math_round (Double.mul (Double.round 1) 100) = 100%Z.
Proof. by vm_compute. Qed.

Lemma progressPercent_bounds (c t : nat) :
  1 ≤ t → c ≤ t →
  ∃ p, progressPercent c t = Some p ∧ (0 ≤ p ≤ 100)%Z.
Proof.
  intros Ht Hc. unfold progressPercent. rewrite decide_False by lia.
  eexists. split; [done|]. unfold Double.div.
  destruct (ratio_bounds c t Ht) as [H0 H1]. specialize (H1 Hc). split.
  - rewrite <- percent_zero. by apply percent_mono.
  - rewrite <- percent_one. apply percent_mono; [done|]. done.
Qed.

Lemma progressPercent_mono (c1 c2 t : nat) (p1 p2 : Z) :
  c1 ≤ c2 →
  progressPercent c1 t = Some p1 → progressPercent c2 t = Some p2 → (p1 ≤ p2)%Z.
Proof.
  unfold progressPercent. intros Hc. case_decide as Ht; [done|].
  intros [= <-] [= <-]. unfold Double.div.
  destruct (ratio_bounds c1 t ltac:(lia)) as [H0 _].
  apply percent_mono; [done|].
  assert (Hpos : (0 < inject_Z (Z.of_nat t))%Q).
  { change 0%Q with (inject_Z 0). rewrite <- Zlt_Qlt. lia. }
  apply Qmult_le_compat_r.
  - rewrite <- Zle_Qle. lia.
  - apply Qlt_le_weak, Qinv_lt_0_compat. done.
Qed.

(** The model against the machine's doubles: on every pair of counts up
    to 100, the product the model computes is the double the processor
    computes. *)
Lemma progressPercent_is_double :
  forallb (fun t => forallb (fun c => agrees_with_float c t) (seq 0 (S t))) (seq 1 100) = true.
Proof. vm_compute. reflexivity. Qed.

(** X5 (index.js lines 195-211). In every reachable state the progress
    endpoint reports, for an existing batch, a percentage between 0 and
    100, and in every later state in which the batch still exists the
    percentage is at least what it was. The percentage is computed in
    doubles: rounding to the nearest double keeps the order of the ratios,
    and 1 and 100 are doubles. *)
Theorem progress_percent_rises (tr1 tr2 : list Event) (w1 w2 : World) rs1 rs2
    (batchId : string) (b1 b2 : Batch) :
  run init tr1 = Some (w1, rs1) →
  run w1 tr2 = Some (w2, rs2) →
  compressionProgress w1 !! batchId = Some b1 →
  compressionProgress w2 !! batchId = Some b2 →
  ∃ p1 p2,
    get_progress batchId w1 = JsonProgress (Some p1) (status b1) (total b1) (completed b1)
    ∧ get_progress batchId w2 = JsonProgress (Some p2) (status b2) (total b1) (completed b2)
    ∧ (0 ≤ p1 ≤ p2)%Z ∧ (p2 ≤ 100)%Z.
Proof.
  intros Hrun1 Hrun2 Hb1 Hb2.
  pose proof (run_world_inv _ _ _ _ world_inv_init Hrun1) as Hinv1.
  pose proof (run_world_inv _ _ _ _ Hinv1 Hrun2) as Hinv2.
  destruct (run_entry _ _ _ _ _ _ _ Hinv1 Hrun2 Hb1 Hb2) as [Hle Ht].
  assert (Hbound : ∀ w b, world_inv w → compressionProgress w !! batchId = Some b →
            1 ≤ total b ∧ completed b ≤ total b).
  { intros w b Hinv Hb.
    destruct (inv_entry _ _ _ Hinv Hb) as (? & ? & _ & wk & Hwk & Hf & Hch).
    apply chain_le in Hch. pose proof (counted_le _ (inv_worker _ _ _ Hinv Hwk)) as H'.
    rewrite Hf in H'. split; lia. }
  destruct (Hbound _ _ Hinv1 Hb1) as [Hp1 Hc1].
  destruct (Hbound _ _ Hinv2 Hb2) as [Hp2 Hc2].
  destruct (progressPercent_bounds _ _ Hp1 Hc1) as (p1 & Hpp1 & Hr1).
  destruct (progressPercent_bounds _ _ Hp2 Hc2) as (p2 & Hpp2 & Hr2).
  exists p1, p2. unfold get_progress. rewrite Hb1, Hb2, Hpp1, Hpp2, Ht.
  split_and!; try done; try lia.
  rewrite Ht in Hpp2. exact (progressPercent_mono _ _ _ _ _ Hle Hpp1 Hpp2).
Qed.

Lemma progress_percent_rises_witness :
  ∃ p1 p2,
    get_progress "b1" (final_world (run init progress_trace_1))
      = JsonProgress (Some p1) Processing 2 1
    ∧ get_progress "b1"
        (final_world (run (final_world (run init progress_trace_1)) progress_trace_2))
      = JsonProgress (Some p2) Processing 2 2
    ∧ (0 ≤ p1 ≤ p2)%Z ∧ (p2 ≤ 100)%Z.
Proof.
  assert (H1 : run init progress_trace_1
               = Some (final_world (run init progress_trace_1),
                       responses (run init progress_trace_1)))
    by (vm_compute; reflexivity).
  assert (H2 : run (final_world (run init progress_trace_1)) progress_trace_2
               = Some (final_world (run (final_world (run init progress_trace_1))
                                       progress_trace_2),
                       responses (run (final_world (run init progress_trace_1))
                                      progress_trace_2)))
    by (vm_compute; reflexivity).
  assert (Hb1 : compressionProgress (final_world (run init progress_trace_1)) !! "b1"
                = Some (mkBatch 2 1 Processing ["a.png"; "b.txt"] None))
    by (vm_compute; reflexivity).
  assert (Hb2 : compressionProgress
                  (final_world (run (final_world (run init progress_trace_1))
                                    progress_trace_2)) !! "b1"
                = Some (mkBatch 2 2 Processing ["a.png"; "b.txt"] None))
    by (vm_compute; reflexivity).
  exact (progress_percent_rises _ _ _ _ _ _ "b1" _ _ H1 H2 Hb1 Hb2).
Defined.

(** ** Cleanup stops the worker (index.js lines 252-258) *)

(** X6. In every reachable state, the cleanup request of a batch that is
    still [Processing] finds its worker on record and terminates it:
    afterwards the worker's thread has exited and no step of that worker
    can happen any more. *)
Theorem cleanup_stops_worker (tr : list Event) (w : World) rs
    (batchId : string) (b : Batch) :
  run init tr = Some (w, rs) →
  compressionProgress w !! batchId = Some b →
  status b = Processing →
  batchId ∈ batchWorkers w
  ∧ (∃ wk', workers (post_cleanup batchId w).1 !! batchId = Some wk'
            ∧ phase (thread wk') = Exited)
  ∧ (∀ e, step (post_cleanup batchId w).1 (WorkerStep batchId e) = None).
Proof.
  intros Hrun Hb Hs. destruct (run_delivery_inv _ _ _ Hrun) as [Hinv [_ Hent]].
  destruct (inv_entry _ _ _ Hinv Hb) as (_ & _ & _ & wk & Hwk & _).
  destruct (Hent _ _ _ Hb Hwk) as (_ & _ & _ & _ & _ & _ & K6).
  destruct (K6 Hs) as [Hin _].
  destruct (post_cleanup_fields _ _ _ Hb) as (_ & _ & _ & Hws).
  rewrite decide_True in Hws by done.
  assert (Hex : ∃ wk', workers (terminate batchId w) !! batchId = Some wk'
                       ∧ phase (thread wk') = Exited).
  { unfold terminate. rewrite Hwk. destruct wk as [t q].
    destruct (phase t) eqn:Hp; simpl; rewrite ?lookup_insert_eq; eauto. }
  destruct Hex as (wk' & Hwk' & Hp). split; [done|]. split.
  - exists wk'. by rewrite Hws.
  - intros e. simpl. rewrite Hws, Hwk'. destruct wk' as [t' q']. simpl in Hp.
    unfold compressAndZip_step. by rewrite Hp.
Qed.

Lemma cleanup_stops_worker_witness :
  step (post_cleanup "b1" (final_world (run init progress_trace_1))).1
       (WorkerStep "b1" (WFile (Some []))) = None.
Proof.
  assert (Hrun : run init progress_trace_1
                 = Some (final_world (run init progress_trace_1),
                         responses (run init progress_trace_1)))
    by (vm_compute; reflexivity).
  assert (Hb : compressionProgress (final_world (run init progress_trace_1)) !! "b1"
               = Some (mkBatch 2 1 Processing ["a.png"; "b.txt"] None))
    by (vm_compute; reflexivity).
  exact (proj2 (proj2 (cleanup_stops_worker _ _ _ "b1" _ Hrun Hb eq_refl)) _).
Defined.

(** ** What cleanup removes (index.js lines 178-193, 244-278) *)

Lemma foldl_unlink_uploadDir_full (l : list string) (d : Disk) (n : string) :
  uploadDir (foldl (fun d name => unlink_upload name d) d l) !! n
  = if decide (n ∈ l) then None else uploadDir d !! n.
Proof.
  revert d. induction l as [|x l IH]; intros d.
  - cbn [foldl]. case_decide as H; [by apply elem_of_nil in H|done].
  - cbn [foldl]. rewrite IH. cbn [unlink_upload uploadDir].
    destruct (decide (n ∈ l)) as [Hin|Hnin].
    + case_decide as H; [done|]. destruct H. apply elem_of_cons; by right.
    + destruct (decide (n = x)) as [->|Hne].
      * rewrite lookup_delete_eq. case_decide as H; [done|].
        destruct H. apply elem_of_cons; by left.
      * rewrite lookup_delete_ne by done. case_decide as H; [|done].
        apply elem_of_cons in H as [?|?]; done.
Qed.

Lemma cleanupBatchUploadedFiles_uploads (batchId : string) (w : World) (b : Batch)
    (n : string) :
  compressionProgress w !! batchId = Some b →
  uploadDir (disk (cleanupBatchUploadedFiles batchId w)) !! n
  = if decide (n ∈ files b) then None else uploadDir (disk w) !! n.
Proof.
  intros Hb. unfold cleanupBatchUploadedFiles. rewrite Hb. simpl.
  apply foldl_unlink_uploadDir_full.
Qed.



(** ** Failure signals (index.js lines 144-172) *)

(** X8. When the handler of a failure signal runs for an existing entry
    (a posted error, the thread's error event, or a non-zero exit while the
    status is not [Error]), the entry stays in the registry with status
    [Error] or [Failed], the batch leaves [batchWorkers], every upload
    named in the entry is removed and no other, and the output area is not
    touched. A progress or [complete] message changes nothing on disk. *)
Theorem failure_signal_removes_uploads (w : World) (batchId : string) (b : Batch)
    (s : Signal) :
  compressionProgress w !! batchId = Some b →
  ∃ w', handle batchId s w = Some w'
    ∧ compressionProgress w' !! batchId = Some (entry_after s b)
    ∧ tempCompressedDir (disk w') = tempCompressedDir (disk w)
    ∧ ((is_error s = true
        ∨ (∃ code, s = OnExit code ∧ code ≠ 0%Z ∧ status b ≠ Error)) →
         status (entry_after s b) = (if is_error s then Error else Failed)
         ∧ (batchId ∉ batchWorkers w')
         ∧ (∀ n, uploadDir (disk w') !! n
                 = if decide (n ∈ files b) then None else uploadDir (disk w) !! n))
    ∧ ((is_progress s = true ∨ is_complete s = true) → disk w' = disk w).
Proof.
  intros Hb.
  assert (Hfail : ∀ st,
    let w1 := cleanupBatchUploadedFiles batchId
                (set_progress <[batchId := with_status st b]> w) in
    compressionProgress w1 !! batchId = Some (with_status st b)
    ∧ tempCompressedDir (disk w1) = tempCompressedDir (disk w)
    ∧ ∀ n, uploadDir (disk w1) !! n
           = if decide (n ∈ files b) then None else uploadDir (disk w) !! n).
  { intros st w1. subst w1. rewrite cleanupBatchUploadedFiles_progress. simpl.
    rewrite lookup_insert_eq. split; [done|].
    split; [exact (proj1 (cleanupBatchUploadedFiles_disk batchId
                            (set_progress <[batchId := with_status st b]> w)))|].
    intros n. rewrite (cleanupBatchUploadedFiles_uploads _ _ (with_status st b));
      [done|by simpl; rewrite lookup_insert_eq]. }
  destruct s as [[n|zp zn|e]|e|code]; simpl; unfold on_message, on_error, on_exit;
    rewrite Hb; eexists; (split; [done|]); simpl.
  - rewrite lookup_insert_eq. split_and!; try done.
    + intros [?|(code & ? & _)]; done.
  - rewrite lookup_insert_eq. split_and!; try done.
    + intros [?|(code & ? & _)]; done.
  - destruct (Hfail Error) as (H1 & H2 & H3). split_and!; try done.
    + intros _. split_and!; [done|set_solver|done].
    + intros [?|?]; done.
  - destruct (Hfail Error) as (H1 & H2 & H3). split_and!; try done.
    + intros _. split_and!; [done|set_solver|done].
    + intros [?|?]; done.
  - destruct (negb (code =? 0)%Z && negb (bool_decide (status b = Error))) eqn:Hg; simpl.
    + destruct (Hfail Failed) as (H1 & H2 & H3). split_and!; try done.
      * intros _. split_and!; [done|set_solver|done].
      * intros [?|?]; done.
    + split_and!; try done.
      * intros [?|(code' & [= <-] & Hc & He)]; [done|]. exfalso.
        apply andb_false_iff in Hg as [Hg|Hg].
        -- apply negb_false_iff, Z.eqb_eq in Hg. done.
        -- apply negb_false_iff, bool_decide_eq_true in Hg. done.
Qed.

Lemma failure_signal_removes_uploads_witness :
  ∃ w', handle "b1" (OnError "boom") one_processing = Some w'
    ∧ status <$> compressionProgress w' !! "b1" = Some Error.
Proof.
  assert (Hb : compressionProgress one_processing !! "b1"
               = Some (mkBatch 1 0 Processing ["a.txt"] None))
    by (vm_compute; reflexivity).
  destruct (failure_signal_removes_uploads one_processing "b1" _ (OnError "boom") Hb)
    as (w' & Hh & Hc & _).
  exists w'. split; [exact Hh|]. rewrite Hc. reflexivity.
Defined.

(** ** A signal that arrives after the entry is gone (index.js lines 136-172) *)

(** X9. If a message or an error event of a worker is still waiting when
    the entry of its batch is removed, by the cleanup request or by the
    callback of a download, then the handler that later runs for it throws:
    it writes to an entry that is not there. The exit handler checks for the
    entry and never throws. *)
Theorem signal_after_removal (w : World) (batchId : string) (b : Batch)
    (t : Thread) (s : Signal) (q : list Signal) (z : string) :
  compressionProgress w !! batchId = Some b →
  workers w !! batchId = Some (mkWorker t (s :: q)) →
  is_exit s = false →
  (∃ t' q', workers (post_cleanup batchId w).1 !! batchId = Some (mkWorker t' (s :: q'))
            ∧ handle batchId s
                (set_workers <[batchId := mkWorker t' q']> (post_cleanup batchId w).1)
              = None)
  ∧ step (post_cleanup batchId w).1 (Deliver batchId) = None
  ∧ handle batchId s
      (set_workers <[batchId := mkWorker t q]> (download_callback batchId z w)) = None
  ∧ step (download_callback batchId z w) (Deliver batchId) = None
  ∧ (∀ w0 code, is_Some (handle batchId (OnExit code) w0)).
Proof.
  intros Hb Hwk Hs.
  assert (Hthrow : ∀ w0, compressionProgress w0 !! batchId = None →
                         handle batchId s w0 = None).
  { intros w0 H0. destruct s as [[n|zp zn|e]|e|code]; simpl;
      unfold on_message, on_error; by rewrite ?H0. }
  destruct (post_cleanup_fields _ _ _ Hb) as (Hcp & _ & _ & Hws).
  assert (Hw1 : ∃ t' q', workers (post_cleanup batchId w).1 !! batchId
                         = Some (mkWorker t' (s :: q'))).
  { rewrite Hws. case_decide; [|by eauto]. unfold terminate. rewrite Hwk.
    destruct (phase t); simpl; rewrite ?lookup_insert_eq; eauto. }
  destruct Hw1 as (t' & q' & Hw1).
  assert (Hn1 : ∀ wk, compressionProgress
            (set_workers <[batchId := wk]> (post_cleanup batchId w).1) !! batchId = None).
  { intros wk. simpl. by rewrite Hcp, lookup_delete_eq. }
  split_and!.
  - exists t', q'. split; [done|]. by apply Hthrow.
  - simpl. rewrite Hw1. by rewrite Hthrow.
  - apply Hthrow. simpl. by rewrite lookup_delete_eq.
  - simpl. rewrite Hwk. rewrite Hthrow; [done|]. simpl. by rewrite lookup_delete_eq.
  - intros w0 code. simpl. by eexists.
Qed.

Lemma signal_after_removal_witness :
  step (post_cleanup "b1"
          (final_world (run init (removelast progress_trace_1)))).1 (Deliver "b1") = None.
Proof.
  assert (Hb : compressionProgress (final_world (run init (removelast progress_trace_1)))
                 !! "b1" = Some (mkBatch 2 0 Processing ["a.png"; "b.txt"] None))
    by (vm_compute; reflexivity).
  destruct (workers (final_world (run init (removelast progress_trace_1))) !! "b1")
    as [[t [|s q]]|] eqn:Hwk; try (vm_compute in Hwk; discriminate).
  assert (Hs : is_exit s = false)
    by (vm_compute in Hwk; injection Hwk as _ <- _; reflexivity).
  exact (proj1 (proj2 (signal_after_removal _ "b1" _ t s q "" Hb Hwk Hs))).
Defined.

(** ** Stored uploads (index.js lines 16-19, 98-113) *)

Lemma multer_store_lookup (fs : list Upload) (d : Disk) (n : string) :
  uploadDir (multer_store fs d) !! n
  = match last_named n fs with
    | Some u => Some (content u)
    | None => uploadDir d !! n
    end.
Proof.
  unfold multer_store, last_named. simpl.
  induction fs as [|u fs IH] using rev_ind; [done|].
  rewrite foldl_app, filter_app. simpl.
  destruct (decide (originalname u = n)) as [<-|Hne].
  - rewrite lookup_insert_eq. rewrite filter_cons_True by done.
    rewrite filter_nil. by rewrite last_snoc.
  - rewrite lookup_insert_ne by done. rewrite filter_cons_False by done.
    rewrite filter_nil, app_nil_r. exact IH.
Qed.

Lemma NoDup_map_elem_eq {A B} (f : A → B) (l : list A) (x y : A) :
  NoDup (map f l) → x ∈ l → y ∈ l → f x = f y → x = y.
Proof.
  induction l as [|a l IH]; simpl; intros Hnd Hx Hy Hf.
  - by apply elem_of_nil in Hx.
  - apply NoDup_cons in Hnd as [Ha Hnd].
    apply elem_of_cons in Hx as [->|Hx]; apply elem_of_cons in Hy as [->|Hy].
    + done.
    + destruct Ha. rewrite Hf. by apply (list_elem_of_fmap_2 f).
    + destruct Ha. rewrite <- Hf. by apply (list_elem_of_fmap_2 f).
    + by apply IH.
Qed.

(** X10. A submission with files stores every one of them under its
    original name in the upload area before the batch is registered. When
    two files of the request have the same name, the later one is what is
    stored; a name that is not in the request keeps what it had; the
    output area is not touched. *)
Theorem submission_stores_uploads (batchId : string) (f : Upload) (fs : list Upload)
    (body : Body) (w : World) :
  let w' := (post_compress batchId (Some (f :: fs)) body w).1 in
  (∀ n, uploadDir (disk w') !! n
        = match last_named n (f :: fs) with
          | Some u => Some (content u)
          | None => uploadDir (disk w) !! n
          end)
  ∧ (∀ u, u ∈ f :: fs → is_Some (uploadDir (disk w') !! originalname u))
  ∧ (NoDup (map originalname (f :: fs)) →
       ∀ u, u ∈ f :: fs → uploadDir (disk w') !! originalname u = Some (content u))
  ∧ tempCompressedDir (disk w') = tempCompressedDir (disk w)
  ∧ files <$> compressionProgress w' !! batchId = Some (map originalname (f :: fs)).
Proof.
  intros w'. subst w'. cbn [post_compress fst]. simpl disk.
  assert (Hlast : ∀ u, u ∈ f :: fs →
            ∃ u', last_named (originalname u) (f :: fs) = Some u'
                  ∧ originalname u' = originalname u ∧ u' ∈ f :: fs).
  { intros u Hu. unfold last_named.
    destruct (last (filter (fun u0 => originalname u0 = originalname u) (f :: fs)))
      as [u'|] eqn:Hl.
    - exists u'. split; [done|]. apply last_Some_elem_of in Hl.
      by apply list_elem_of_filter in Hl.
    - apply last_None in Hl.
      assert (u ∈ filter (fun u0 => originalname u0 = originalname u) (f :: fs))
        by by apply list_elem_of_filter.
      rewrite Hl in H. by apply elem_of_nil in H. }
  split_and!.
  - intros n. apply multer_store_lookup.
  - intros u Hu. rewrite multer_store_lookup.
    destruct (Hlast u Hu) as (u' & -> & _). by eexists.
  - intros Hnd u Hu. rewrite multer_store_lookup.
    destruct (Hlast u Hu) as (u' & -> & Hname & Hu'). f_equal. f_equal.
    by eapply (NoDup_map_elem_eq originalname).
  - done.
  - simpl. by rewrite lookup_insert_eq.
Qed.

Lemma submission_stores_uploads_witness :
  uploadDir (disk (post_compress "b1"
                     (Some [mkUpload "a.txt" [Byte.x01]; mkUpload "a.txt" [Byte.x02]])
                     body0 init).1) !! "a.txt" = Some [Byte.x02].
Proof.
  etransitivity.
  - apply (proj1 (submission_stores_uploads "b1" (mkUpload "a.txt" [Byte.x01])
                    [mkUpload "a.txt" [Byte.x02]] body0 init) "a.txt").
  - vm_compute. reflexivity.
Defined.

(** ** The archive of a full run (worker.js lines 26-84) *)




Lemma streams_deliver_head (u : gmap string bytes) (name : string) (r : option bytes)
    (d : Disk) :
  uploadDir d = u →
  delivers u name r →
  stream_fails name r d = false.
Proof.
  intros <- H. unfold stream_fails, delivers in *. destruct (shouldCompress name); [done|].
  destruct H as [[buf ->] [data ->]]; done.
Qed.




(** ** Sweeps of the two directories (index.js lines 30-96 and 287-317) *)

Lemma bool_decide_cons_ne (n file : string) (rest : list string) :
  n ≠ file → bool_decide (n ∈ file :: rest) = bool_decide (n ∈ rest).
Proof.
  intros Hne. apply bool_decide_ext. rewrite elem_of_cons. naive_solver.
Qed.

Lemma bool_decide_cons_eq (file : string) (rest : list string) :
  bool_decide (file ∈ file :: rest) = true.
Proof. apply bool_decide_eq_true_2, elem_of_cons. by left. Qed.

Lemma cleanup_each_lookup {A} (fs : Fs) (directory : string) (files : list string)
    (dir : gmap string A) (n : string) :
  (cleanup_each fs directory files dir).1 !! n
  = if bool_decide (n ∈ files) && unlinkSync fs (Path.join directory n)
    then None else dir !! n.
Proof.
  revert dir. induction files as [|file rest IH]; intros dir; [done|].
  simpl. unfold unlink_sync.
  assert (Hkeep : (dir !! file = None ∨ unlinkSync fs (Path.join directory file) = false) →
    (let '(dir', out) := cleanup_each fs directory rest dir in
     (dir', failed_to_delete directory file :: out)).1 !! n
    = if bool_decide (n ∈ file :: rest) && unlinkSync fs (Path.join directory n)
      then None else dir !! n).
  { intros Hfail. specialize (IH dir).
    destruct (cleanup_each fs directory rest dir) as [d' o]. simpl in *. rewrite IH.
    destruct (decide (n = file)) as [->|Hne].
    - rewrite bool_decide_cons_eq. simpl.
      destruct Hfail as [Hnone|Hu]; rewrite ?Hnone, ?Hu, ?andb_false_r; [|done].
      by destruct (_ && _), (unlinkSync _ _).
    - by rewrite bool_decide_cons_ne. }
  destruct (dir !! file) as [a|] eqn:Hf;
    [destruct (unlinkSync fs (Path.join directory file)) eqn:Hu|].
  - rewrite IH. destruct (decide (n = file)) as [->|Hne].
    + rewrite lookup_delete_eq, Hu, bool_decide_cons_eq. simpl.
      by destruct (bool_decide (file ∈ rest)).
    + by rewrite lookup_delete_ne, bool_decide_cons_ne.
  - apply Hkeep. by right.
  - apply Hkeep. by left.
Qed.

Lemma filter_ext_elem {B} (P Q : B → Prop) `{∀ x, Decision (P x)} `{∀ x, Decision (Q x)}
    (l : list B) :
  (∀ x, x ∈ l → (P x ↔ Q x)) → filter P l = filter Q l.
Proof.
  induction l as [|x l IH]; intros Hpq; [done|].
  rewrite !filter_cons, IH by (intros; apply Hpq, elem_of_cons; by right).
  assert (Hx : P x ↔ Q x) by (apply Hpq, elem_of_cons; by left).
  destruct (decide (P x)), (decide (Q x)); naive_solver.
Qed.

Lemma cleanup_each_console {A} (fs : Fs) (directory : string) (files : list string)
    (dir : gmap string A) :
  NoDup files →
  (cleanup_each fs directory files dir).2
  = map (failed_to_delete directory)
        (filter (fun f => ¬ (is_Some (dir !! f)
                             ∧ unlinkSync fs (Path.join directory f) = true)) files).
Proof.
  revert dir. induction files as [|file rest IH]; intros dir Hnd; [done|].
  apply NoDup_cons in Hnd as [Hfile Hnd]. simpl. unfold unlink_sync.
  assert (Hrest : ∀ dir1 : gmap string A, (∀ n, n ≠ file → dir1 !! n = dir !! n) →
    filter (fun f => ¬ (is_Some (dir1 !! f)
                        ∧ unlinkSync fs (Path.join directory f) = true)) rest
    = filter (fun f => ¬ (is_Some (dir !! f)
                          ∧ unlinkSync fs (Path.join directory f) = true)) rest).
  { intros dir1 Hsame. apply filter_ext_elem. intros f Hin.
    rewrite Hsame; [done|]. intros ->. done. }
  destruct (dir !! file) as [a|] eqn:Hf;
    [destruct (unlinkSync fs (Path.join directory file)) eqn:Hu|].
  - rewrite IH by done. rewrite filter_cons_False.
    + f_equal. apply Hrest. intros n Hne. by apply lookup_delete_ne.
    + intros Hno. apply Hno. rewrite Hf. by split.
  - specialize (IH dir Hnd). destruct (cleanup_each fs directory rest dir) as [d' o].
    simpl in *. rewrite filter_cons_True by (rewrite Hu; intros [_ ?]; done).
    simpl. by rewrite IH.
  - specialize (IH dir Hnd). destruct (cleanup_each fs directory rest dir) as [d' o].
    simpl in *. rewrite filter_cons_True by (rewrite Hf; intros [[? ?] _]; done).
    simpl. by rewrite IH.
Qed.

(** X12 (index.js lines 30-45). [cleanupDirectory] removes every listed
    file that can be removed and nothing else: a file that cannot be removed
    does not stop it. With a listing without repetitions, its console names
    exactly the listed files that were not there or could not be removed,
    in the order of the listing, before the closing line. *)
Theorem cleanupDirectory_removes_what_it_can {A} (fs : Fs) (directory : string)
    (files : list string) (dir : gmap string A) :
  readdirSync fs directory = Some files →
  (∀ n, (cleanupDirectory fs directory dir).1 !! n
        = if bool_decide (n ∈ files) && unlinkSync fs (Path.join directory n)
          then None else dir !! n)
  ∧ (NoDup files →
     (cleanupDirectory fs directory dir).2
     = map (failed_to_delete directory)
           (filter (fun f => ¬ (is_Some (dir !! f)
                                ∧ unlinkSync fs (Path.join directory f) = true)) files)
       ++ ["Cleaned up directory: " +:+ directory]).
Proof.
  intros Hls. unfold cleanupDirectory. rewrite Hls. split.
  - intros n. rewrite <- cleanup_each_lookup.
    by destruct (cleanup_each fs directory files dir).
  - intros Hnd. rewrite <- cleanup_each_console by done.
    by destruct (cleanup_each fs directory files dir).
Qed.

Lemma cleanupDirectory_removes_what_it_can_witness :
  (∀ n, (cleanupDirectory fs_stale uploadPath (uploadDir disk_two)).1 !! n
        = if bool_decide (n ∈ ["notes.txt"; "gone.png"; "a.png"])
             && unlinkSync fs_stale (Path.join uploadPath n)
          then None else uploadDir disk_two !! n)
  ∧ (NoDup ["notes.txt"; "gone.png"; "a.png"] →
     (cleanupDirectory fs_stale uploadPath (uploadDir disk_two)).2
     = map (failed_to_delete uploadPath)
           (filter (fun f => ¬ (is_Some (uploadDir disk_two !! f)
                                ∧ unlinkSync fs_stale (Path.join uploadPath f) = true))
                   ["notes.txt"; "gone.png"; "a.png"])
       ++ ["Cleaned up directory: " +:+ uploadPath]).
Proof.
  exact (cleanupDirectory_removes_what_it_can fs_stale uploadPath
           ["notes.txt"; "gone.png"; "a.png"] (uploadDir disk_two) eq_refl).
Defined.

Lemma cleanupDirectory_empty {A} (fs : Fs) (directory : string) (files : list string)
    (dir : gmap string A) :
  readdirSync fs directory = Some files →
  removable fs directory files dir →
  (cleanupDirectory fs directory dir).1 = ∅.
Proof.
  intros Hls Hrm. apply map_eq. intros n. rewrite lookup_empty.
  unfold cleanupDirectory. rewrite Hls.
  pose proof (cleanup_each_lookup fs directory files dir n) as Hlk.
  destruct (cleanup_each fs directory files dir) as [d' o]. simpl in *. rewrite Hlk.
  destruct (dir !! n) as [a|] eqn:Hn; [|by destruct (_ && _)].
  destruct (Hrm n a Hn) as [Hin Hu]. by rewrite Hu, bool_decide_eq_true_2.
Qed.

Lemma cleanupDirectories_empty (fs : Fs) (d : Disk) (lu lt : list string) :
  readdirSync fs uploadPath = Some lu →
  readdirSync fs tempCompressedPath = Some lt →
  removable fs uploadPath lu (uploadDir d) →
  removable fs tempCompressedPath lt (tempCompressedDir d) →
  (cleanupDirectories fs d).1 = mkDisk ∅ ∅.
Proof.
  intros Hlu Hlt Hu Ht. unfold cleanupDirectories.
  pose proof (cleanupDirectory_empty fs uploadPath lu (uploadDir d) Hlu Hu) as H1.
  pose proof (cleanupDirectory_empty fs tempCompressedPath lt (tempCompressedDir d) Hlt Ht) as H2.
  destruct (cleanupDirectory fs uploadPath (uploadDir d)) as [u o1].
  destruct (cleanupDirectory fs tempCompressedPath (tempCompressedDir d)) as [t o2].
  simpl in *. by subst.
Qed.

(** X13 (index.js lines 54-58). When both listings name every file that is
    there and every removal goes through, the startup cleanup leaves the
    upload area and the output area empty. *)
Theorem cleanupOnStart_empties (fs : Fs) (d : Disk) (lu lt : list string) :
  readdirSync fs uploadPath = Some lu →
  readdirSync fs tempCompressedPath = Some lt →
  removable fs uploadPath lu (uploadDir d) →
  removable fs tempCompressedPath lt (tempCompressedDir d) →
  (cleanupOnStart fs d).1 = mkDisk ∅ ∅.
Proof.
  intros Hlu Hlt Hu Ht. unfold cleanupOnStart.
  pose proof (cleanupDirectories_empty fs d lu lt Hlu Hlt Hu Ht) as He.
  by destruct (cleanupDirectories fs d).
Qed.

Lemma cleanupOnStart_empties_witness :
  (cleanupOnStart fs_two disk_two).1 = mkDisk ∅ ∅.
Proof.
  assert (Hu : removable fs_two uploadPath ["a.png"; "notes.txt"; "other.gif"]
                 (uploadDir disk_two))
    by (apply (bool_decide_unpack _); vm_compute; reflexivity).
  assert (Ht : removable fs_two tempCompressedPath ["old.zip"] (tempCompressedDir disk_two))
    by (apply (bool_decide_unpack _); vm_compute; reflexivity).
  exact (cleanupOnStart_empties fs_two disk_two _ _ eq_refl eq_refl Hu Ht).
Defined.

(** [maxAge] is thirty minutes in milliseconds, and the test is strict: a
    file exactly that old is kept. *)
Lemma maxAge_value : maxAge = 1800000%float.
Proof. reflexivity. Qed.

Lemma too_old_strict :
  too_old 1800000 0 = false ∧ too_old 1800001 0 = true.
Proof. split; reflexivity. Qed.

Lemma sweep_each_lookup {A} (fs : Fs) (directory : string) (now : float) (kind : string)
    (files : list string) (dir : gmap string A) (n : string) :
  (sweep_each fs directory now kind files dir).1.1 !! n = dir !! n
  ∨ ((sweep_each fs directory now kind files dir).1.1 !! n = None
     ∧ n ∈ files
     ∧ old_at fs directory now n = true
     ∧ unlinkSync fs (Path.join directory n) = true).
Proof.
  revert dir. induction files as [|file rest IH]; intros dir; [by left|].
  simpl. unfold stat_sync, unlink_sync, old_at in *.
  destruct (dir !! file) as [a|] eqn:Hf; [|by left].
  destruct (statSync fs (Path.join directory file)) as [m|] eqn:Hst; [|by left].
  destruct (too_old now m) eqn:Hold.
  - destruct (unlinkSync fs (Path.join directory file)) eqn:Hu; [|by left].
    specialize (IH (delete file dir)).
    destruct (sweep_each fs directory now kind rest (delete file dir)) as [[d' o] thr].
    simpl in *. destruct IH as [IH|(Hnone & Hin & Ho & Hul)].
    + destruct (decide (n = file)) as [->|Hne].
      * right. rewrite IH, lookup_delete_eq, Hst. split_and!; try done.
        apply elem_of_cons. by left.
      * left. by rewrite IH, lookup_delete_ne.
    + right. split_and!; try done. apply elem_of_cons. by right.
  - destruct (IH dir) as [IH'|(Hnone & Hin & Ho & Hul)]; [by left|].
    right. split_and!; try done. apply elem_of_cons. by right.
Qed.

Lemma sweep_each_other {A} (fs : Fs) (directory : string) (now : float) (kind : string)
    (files : list string) (dir : gmap string A) (n : string) :
  n ∉ files → (sweep_each fs directory now kind files dir).1.1 !! n = dir !! n.
Proof.
  intros Hn. destruct (sweep_each_lookup fs directory now kind files dir n)
    as [H|(_ & Hin & _)]; done.
Qed.

Lemma sweep_each_app {A} (fs : Fs) (directory : string) (now : float) (kind : string)
    (l1 l2 : list string) (dir : gmap string A) :
  sweep_each fs directory now kind (l1 ++ l2) dir
  = match sweep_each fs directory now kind l1 dir with
    | (d1, o1, true) => (d1, o1, true)
    | (d1, o1, false) =>
        let '(d2, o2, threw) := sweep_each fs directory now kind l2 d1 in
        (d2, o1 ++ o2, threw)
    end.
Proof.
  revert dir. induction l1 as [|file rest IH]; intros dir.
  - simpl. by destruct (sweep_each fs directory now kind l2 dir) as [[? ?] ?].
  - simpl. destruct (stat_sync fs directory file dir) as [m|]; [|done].
    destruct (too_old now m).
    + destruct (unlink_sync fs directory file dir) as [dir1|]; [|done].
      rewrite IH. destruct (sweep_each fs directory now kind rest dir1) as [[d1 o1] [|]];
        [done|]. by destruct (sweep_each fs directory now kind l2 d1) as [[? ?] ?].
    + apply IH.
Qed.

Lemma periodic_pass_lookup {A} (fs : Fs) (directory : string) (now : float)
    (kind : string) (dir : gmap string A) (n : string) :
  (periodic_pass fs directory now kind dir).1 !! n = dir !! n
  ∨ ((periodic_pass fs directory now kind dir).1 !! n = None
     ∧ (∃ files, readdirSync fs directory = Some files ∧ n ∈ files)
     ∧ (∃ mtimeMs, statSync fs (Path.join directory n) = Some mtimeMs
                   ∧ too_old now mtimeMs = true)
     ∧ unlinkSync fs (Path.join directory n) = true).
Proof.
  unfold periodic_pass. destruct (readdirSync fs directory) as [files|]; [|by left].
  pose proof (sweep_each_lookup fs directory now kind files dir n) as Hlk.
  destruct (sweep_each fs directory now kind files dir) as [[d' o] thr]. simpl in *.
  destruct Hlk as [H|(Hnone & Hin & Hold & Hu)]; [by left|right].
  split_and!; try done; [by exists files|].
  unfold old_at in Hold. destruct (statSync fs (Path.join directory n)) as [m|]; [|done].
  by exists m.
Qed.

(** X14 (index.js lines 62-95). The periodic cleanup never adds or changes
    a file of either directory, and the only files it removes are files of
    the listing of their directory whose [stat] answered with a time more
    than [maxAge] before [now]. *)
Theorem periodicCleanup_removes_only_old (fs : Fs) (now : float) (d : Disk) (n : string) :
  (uploadDir (periodicCleanup fs now d).1 !! n = uploadDir d !! n
   ∨ (uploadDir (periodicCleanup fs now d).1 !! n = None
      ∧ (∃ files, readdirSync fs uploadPath = Some files ∧ n ∈ files)
      ∧ (∃ mtimeMs, statSync fs (Path.join uploadPath n) = Some mtimeMs
                    ∧ too_old now mtimeMs = true)
      ∧ unlinkSync fs (Path.join uploadPath n) = true))
  ∧ (tempCompressedDir (periodicCleanup fs now d).1 !! n = tempCompressedDir d !! n
     ∨ (tempCompressedDir (periodicCleanup fs now d).1 !! n = None
        ∧ (∃ files, readdirSync fs tempCompressedPath = Some files ∧ n ∈ files)
        ∧ (∃ mtimeMs, statSync fs (Path.join tempCompressedPath n) = Some mtimeMs
                      ∧ too_old now mtimeMs = true)
        ∧ unlinkSync fs (Path.join tempCompressedPath n) = true)).
Proof.
  unfold periodicCleanup.
  pose proof (periodic_pass_lookup fs uploadPath now "upload" (uploadDir d) n) as Hu.
  pose proof (periodic_pass_lookup fs tempCompressedPath now "compressed"
                (tempCompressedDir d) n) as Ht.
  destruct (periodic_pass fs uploadPath now "upload" (uploadDir d)) as [u o1].
  destruct (periodic_pass fs tempCompressedPath now "compressed" (tempCompressedDir d))
    as [t o2].
  done.
Qed.

Lemma sweep_each_no_failure {A} (fs : Fs) (directory : string) (now : float) (kind : string)
    (files : list string) (dir : gmap string A) :
  NoDup files →
  Forall (visit_ok fs directory now dir) files →
  (∀ n, (sweep_each fs directory now kind files dir).1.1 !! n
        = if bool_decide (n ∈ files) && old_at fs directory now n then None else dir !! n)
  ∧ (sweep_each fs directory now kind files dir).1.2
    = map (deleted_old kind) (filter (fun f => old_at fs directory now f = true) files)
  ∧ (sweep_each fs directory now kind files dir).2 = false.
Proof.
  revert dir. induction files as [|file rest IH]; intros dir Hnd Hok; [done|].
  apply NoDup_cons in Hnd as [Hfile Hnd]. apply Forall_cons in Hok as [Hv Hok].
  destruct Hv as ([a Hf] & [m Hst] & Hul).
  simpl. unfold stat_sync, unlink_sync. rewrite Hf, Hst.
  assert (Hoa : old_at fs directory now file = too_old now m)
    by (unfold old_at; by rewrite Hst).
  destruct (too_old now m) eqn:Hold.
  - rewrite Hul by done.
    destruct (IH (delete file dir) Hnd) as (Hlk & Hout & Hthr).
    { apply Forall_forall. intros f Hin.
      destruct (proj1 (Forall_forall _ _) Hok f Hin) as (Hs & ? & ?).
      split_and!; try done. rewrite lookup_delete_ne; [done|]. intros ->. done. }
    destruct (sweep_each fs directory now kind rest (delete file dir)) as [[d' o] thr].
    simpl in *. split_and!; [|by rewrite filter_cons_True, Hout by done|done].
    intros n. rewrite Hlk. destruct (decide (n = file)) as [->|Hne].
    + rewrite bool_decide_cons_eq, Hoa, lookup_delete_eq. simpl. by destruct (_ && _).
    + by rewrite bool_decide_cons_ne, lookup_delete_ne.
  - destruct (IH dir Hnd Hok) as (Hlk & Hout & Hthr).
    split_and!; [|by rewrite filter_cons_False by (rewrite Hoa; done)|done].
    intros n. rewrite Hlk. destruct (decide (n = file)) as [->|Hne].
    + rewrite bool_decide_cons_eq, Hoa. simpl. rewrite andb_false_r. done.
    + by rewrite bool_decide_cons_ne.
Qed.

(** X15 (index.js lines 62-95). When the listing has no repetition and
    every visit goes through, a periodic pass removes exactly the listed
    files found older than [maxAge], and writes one line for each, in the
    order of the listing, and no error line. *)
Theorem periodic_pass_no_failure {A} (fs : Fs) (directory : string) (now : float)
    (kind : string) (files : list string) (dir : gmap string A) :
  readdirSync fs directory = Some files →
  NoDup files →
  Forall (visit_ok fs directory now dir) files →
  (∀ n, (periodic_pass fs directory now kind dir).1 !! n
        = if bool_decide (n ∈ files) && old_at fs directory now n then None else dir !! n)
  ∧ (periodic_pass fs directory now kind dir).2
    = map (deleted_old kind) (filter (fun f => old_at fs directory now f = true) files).
Proof.
  intros Hls Hnd Hok. unfold periodic_pass. rewrite Hls.
  destruct (sweep_each_no_failure fs directory now kind files dir Hnd Hok)
    as (Hlk & Hout & Hthr).
  destruct (sweep_each fs directory now kind files dir) as [[d' o] thr]. simpl in *.
  subst thr. by rewrite app_nil_r.
Qed.

Lemma periodic_pass_no_failure_witness :
  (∀ n, (periodic_pass fs_two uploadPath 1800001 "upload" (uploadDir disk_two)).1 !! n
        = if bool_decide (n ∈ ["a.png"; "notes.txt"; "other.gif"])
             && old_at fs_two uploadPath 1800001 n
          then None else uploadDir disk_two !! n)
  ∧ (periodic_pass fs_two uploadPath 1800001 "upload" (uploadDir disk_two)).2
    = map (deleted_old "upload")
          (filter (fun f => old_at fs_two uploadPath 1800001 f = true)
                  ["a.png"; "notes.txt"; "other.gif"]).
Proof.
  assert (Hnd : NoDup ["a.png"; "notes.txt"; "other.gif"])
    by (apply (bool_decide_unpack _); vm_compute; reflexivity).
  assert (Hok : Forall (visit_ok fs_two uploadPath 1800001 (uploadDir disk_two))
                       ["a.png"; "notes.txt"; "other.gif"])
    by (apply (bool_decide_unpack _); vm_compute; reflexivity).
  exact (periodic_pass_no_failure fs_two uploadPath 1800001 "upload" _
           (uploadDir disk_two) eq_refl Hnd Hok).
Defined.

(** X16 (index.js lines 67-79 and 82-94). The first call that throws ends
    a periodic pass of a directory: when a listed file is gone, or its
    [stat] throws, or it is found too old and cannot be removed, no file
    listed after it is removed, however old, and the last line on the
    console is the error line. [cleanupDirectory] goes on in that case. *)
Theorem periodic_pass_stops_at_failure {A} (fs : Fs) (directory : string) (now : float)
    (kind : string) (l1 l2 : list string) (f : string) (dir : gmap string A) :
  readdirSync fs directory = Some (l1 ++ f :: l2) →
  f ∉ l1 →
  (dir !! f = None
   ∨ statSync fs (Path.join directory f) = None
   ∨ (old_at fs directory now f = true
      ∧ unlinkSync fs (Path.join directory f) = false)) →
  (∀ n, n ∉ l1 → (periodic_pass fs directory now kind dir).1 !! n = dir !! n)
  ∧ last (periodic_pass fs directory now kind dir).2
    = Some ("Error during periodic cleanup of " +:+ directory +:+ ":").
Proof.
  intros Hls Hf Hfail. unfold periodic_pass. rewrite Hls, sweep_each_app.
  pose proof (λ n, sweep_each_other fs directory now kind l1 dir n) as Hother.
  destruct (sweep_each fs directory now kind l1 dir) as [[d1 o1] thr]. simpl in Hother.
  assert (Hstop : sweep_each fs directory now kind (f :: l2) d1 = (d1, [], true)).
  { simpl. unfold stat_sync, unlink_sync, old_at in *. rewrite (Hother f Hf).
    destruct (dir !! f) as [a|]; [|done].
    destruct Hfail as [?|[Hst|[Hold Hu]]]; [done|by rewrite Hst|].
    destruct (statSync fs (Path.join directory f)) as [m|]; [|done].
    by rewrite Hold, Hu. }
  destruct thr; [|rewrite Hstop]; simpl; rewrite ?app_nil_r;
    (split; [exact Hother|by rewrite last_snoc]).
Qed.

Lemma periodic_pass_stops_at_failure_witness :
  (∀ n, n ∉ ["notes.txt"] →
        (periodic_pass fs_stale uploadPath 1800001 "upload" (uploadDir disk_two)).1 !! n
        = uploadDir disk_two !! n)
  ∧ last (periodic_pass fs_stale uploadPath 1800001 "upload" (uploadDir disk_two)).2
    = Some ("Error during periodic cleanup of " +:+ uploadPath +:+ ":").
Proof.
  assert (Hf : "gone.png" ∉ ["notes.txt"])
    by (apply (bool_decide_unpack _); vm_compute; reflexivity).
  exact (periodic_pass_stops_at_failure fs_stale uploadPath 1800001 "upload"
           ["notes.txt"] ["a.png"] "gone.png" (uploadDir disk_two) eq_refl Hf
           (or_introl eq_refl)).
Defined.

(** ** Shutdown (index.js lines 287-317) *)

Lemma terminate_fields (batchId : string) (w : World) :
  compressionProgress (terminate batchId w) = compressionProgress w
  ∧ batchWorkers (terminate batchId w) = batchWorkers w
  ∧ disk (terminate batchId w) = disk w
  ∧ transfers (terminate batchId w) = transfers w.
Proof.
  unfold terminate. destruct (workers w !! batchId) as [[t q]|]; [|done].
  by destruct (phase t).
Qed.

Lemma terminate_phase (batchId id : string) (w : World) (wk : Worker) :
  workers w !! id = Some wk →
  ∃ wk', workers (terminate batchId w) !! id = Some wk'
         ∧ (id = batchId ∨ phase (thread wk) = Exited → phase (thread wk') = Exited).
Proof.
  intros Hwk. unfold terminate.
  destruct (workers w !! batchId) as [[t q]|] eqn:Hb.
  2: { exists wk. split; [done|]. intros [->|?]; [congruence|done]. }
  destruct (decide (id = batchId)) as [->|Hne].
  - rewrite Hwk in Hb. injection Hb as ->.
    destruct (phase t) eqn:Hp; simpl; rewrite ?lookup_insert_eq; eexists; (split; [done|]);
      simpl; done.
  - destruct (phase t); simpl; rewrite ?lookup_insert_ne by done; exists wk;
      (split; [done|]); intros [?|?]; done.
Qed.

Lemma foldl_terminate_fields (ids : list string) (w : World) :
  compressionProgress (foldl (fun w id => terminate id w) w ids) = compressionProgress w
  ∧ batchWorkers (foldl (fun w id => terminate id w) w ids) = batchWorkers w
  ∧ disk (foldl (fun w id => terminate id w) w ids) = disk w
  ∧ transfers (foldl (fun w id => terminate id w) w ids) = transfers w.
Proof.
  revert w. induction ids as [|i ids IH]; intros w; [done|]. simpl.
  destruct (IH (terminate i w)) as (-> & -> & -> & ->). apply terminate_fields.
Qed.

Lemma foldl_terminate_phase (ids : list string) (id : string) (w : World) (wk : Worker) :
  workers w !! id = Some wk →
  ∃ wk', workers (foldl (fun w id => terminate id w) w ids) !! id = Some wk'
         ∧ (id ∈ ids ∨ phase (thread wk) = Exited → phase (thread wk') = Exited).
Proof.
  revert w wk. induction ids as [|i ids IH]; intros w wk Hwk.
  - exists wk. split; [done|]. intros [Hin|?]; [by apply elem_of_nil in Hin|done].
  - simpl. destruct (terminate_phase i id w wk Hwk) as (wk1 & Hwk1 & Hp1).
    destruct (IH _ _ Hwk1) as (wk' & Hwk' & Hp'). exists wk'. split; [done|].
    intros [Hin|Hex].
    + apply elem_of_cons in Hin as [->|Hin]; [|by apply Hp'; left].
      apply Hp'. right. apply Hp1. by left.
    + apply Hp'. right. apply Hp1. by right.
Qed.

(** X17 (index.js lines 287-317). In every reachable state, the handler of
    [SIGINT] and [SIGTERM] stops the worker of every batch that is still
    [Processing] and leaves the registry as it is; when both listings name
    every file that is there and every removal goes through, it leaves the
    upload area and the output area empty, the archives of finished
    batches that were not downloaded included. *)
Theorem shutdown_stops_and_empties (fs : Fs) (tr : list Event) (w : World) rs
    (lu lt : list string) :
  run init tr = Some (w, rs) →
  readdirSync fs uploadPath = Some lu →
  readdirSync fs tempCompressedPath = Some lt →
  removable fs uploadPath lu (uploadDir (disk w)) →
  removable fs tempCompressedPath lt (tempCompressedDir (disk w)) →
  disk (shutdown fs w) = mkDisk ∅ ∅
  ∧ compressionProgress (shutdown fs w) = compressionProgress w
  ∧ (∀ id b, compressionProgress w !! id = Some b → status b = Processing →
       ∃ wk, workers (shutdown fs w) !! id = Some wk ∧ phase (thread wk) = Exited).
Proof.
  intros Hrun Hlu Hlt Hu Ht.
  destruct (run_delivery_inv _ _ _ Hrun) as [(_ & Hr & _) [_ Hent]].
  destruct (foldl_terminate_fields (elements (batchWorkers w)) w) as (Hcp & _ & Hd & _).
  unfold shutdown. split_and!.
  - simpl. rewrite Hd. by eapply cleanupDirectories_empty.
  - done.
  - intros id b Hb Hs. destruct (Hr _ _ Hb) as (_ & _ & _ & wk & Hwk & _).
    destruct (Hent _ _ _ Hb Hwk) as (_ & _ & _ & _ & _ & _ & K6).
    destruct (K6 Hs) as [Hin _].
    destruct (foldl_terminate_phase (elements (batchWorkers w)) id w wk Hwk)
      as (wk' & Hwk' & Hp).
    exists wk'. split; [done|]. apply Hp. left. by apply elem_of_elements.
Qed.

Lemma shutdown_stops_and_empties_witness :
  disk (shutdown fs_shutdown (final_world (run init shutdown_trace))) = mkDisk ∅ ∅
  ∧ compressionProgress (shutdown fs_shutdown (final_world (run init shutdown_trace)))
    = compressionProgress (final_world (run init shutdown_trace))
  ∧ (∀ id b, compressionProgress (final_world (run init shutdown_trace)) !! id = Some b →
       status b = Processing →
       ∃ wk, workers (shutdown fs_shutdown (final_world (run init shutdown_trace))) !! id
             = Some wk
             ∧ phase (thread wk) = Exited).
Proof.
  assert (Hrun : run init shutdown_trace
                 = Some (final_world (run init shutdown_trace),
                         responses (run init shutdown_trace)))
    by (vm_compute; reflexivity).
  assert (Hu : removable fs_shutdown uploadPath ["b.txt"]
                 (uploadDir (disk (final_world (run init shutdown_trace)))))
    by (apply (bool_decide_unpack _); vm_compute; reflexivity).
  assert (Ht : removable fs_shutdown tempCompressedPath ["compressed_images_b1.zip"]
                 (tempCompressedDir (disk (final_world (run init shutdown_trace)))))
    by (apply (bool_decide_unpack _); vm_compute; reflexivity).
  exact (shutdown_stops_and_empties fs_shutdown shutdown_trace _ _ _ _
           Hrun eq_refl eq_refl Hu Ht).
Defined.

(** ** The earlier server against the present one *)

(** X18 (src/worker.js lines 156-179 against index.js lines 136-172).
    Whenever a handler of the earlier server runs to its end, the present
    handler of the same signal does too and leaves the same registry: the
    revision added the bookkeeping of [batchWorkers] and the removal of
    uploads, and changed no status. The earlier handlers touch neither the
    disk nor the workers. An earlier handler throws exactly when the entry
    is gone and the signal is not an exit with code 0; of these cases the
    present server only keeps the exit handler from throwing. *)
Theorem earlier_handlers_same_registry (batchId : string) (s : Signal) (w : World) :
  match handle_v1 batchId s w with
  | Some w1 =>
      (∃ w2, handle batchId s w = Some w2
             ∧ compressionProgress w2 = compressionProgress w1)
      ∧ disk w1 = disk w ∧ workers w1 = workers w ∧ batchWorkers w1 = batchWorkers w
      ∧ (is_Some (compressionProgress w !! batchId) ∨ s = OnExit 0)
  | None =>
      compressionProgress w !! batchId = None
      ∧ match s with
        | OnExit code => code ≠ 0%Z ∧ is_Some (handle batchId s w)
        | _ => handle batchId s w = None
        end
  end.
Proof.
  destruct s as [m| |code]; simpl.
  - unfold on_message_v1, on_message.
    destruct (compressionProgress w !! batchId) as [b|] eqn:Hb; [|done].
    destruct m; simpl; (split_and!; [eexists; split; [done|]|done..|by left]);
      simpl; [done..|].
    by rewrite cleanupBatchUploadedFiles_progress.
  - unfold on_error_v1, on_error.
    destruct (compressionProgress w !! batchId) as [b|] eqn:Hb; [|done].
    split_and!; [eexists; split; [done|]|done..|by left]. simpl.
    by rewrite cleanupBatchUploadedFiles_progress.
  - unfold on_exit_v1, on_exit. destruct (code =? 0)%Z eqn:Hc; simpl.
    + apply Z.eqb_eq in Hc as ->.
      split_and!; [eexists; split; [done|]|done..|by right]. simpl.
      by destruct (compressionProgress w !! batchId).
    + destruct (compressionProgress w !! batchId) as [b|] eqn:Hb.
      * destruct (bool_decide (status b = Error)); simpl;
          (split_and!; [eexists; split; [done|]|done..|by left]); simpl; [done|].
        by rewrite cleanupBatchUploadedFiles_progress.
      * split; [done|]. split; [|done]. by apply Z.eqb_neq.
Qed.

(** ** The worker that removes the uploads at the close of the archive *)

Lemma try_file_readFile_disk (zip name : string) (r : option bytes) (d : Disk) :
  (try_file_readFile zip name r d).1 = (try_file zip name r d).1.
Proof.
  unfold try_file_readFile, try_file.
  destruct (shouldCompress name), r; try done.
  all: by destruct (uploadDir d !! name).
Qed.

Lemma try_file_agree (zip name : string) (r : option bytes) (dA dC : Disk) :
  tempCompressedDir dA = tempCompressedDir dC →
  uploadDir dA !! name = uploadDir dC !! name →
  tempCompressedDir (try_file zip name r dA).1 = tempCompressedDir (try_file zip name r dC).1.
Proof.
  intros Ht Hn. unfold try_file.
  destruct (shouldCompress name), r; simpl; rewrite <- ?Hn, ?Ht; try done.
  destruct (uploadDir dA !! name); simpl; by rewrite ?Ht.
Qed.

Lemma unlink_all_lookup (names : list string) (d : Disk) :
  tempCompressedDir (unlink_all names d).1 = tempCompressedDir d
  ∧ ∀ n, uploadDir (unlink_all names d).1 !! n
         = if decide (n ∈ names) then None else uploadDir d !! n.
Proof.
  revert d. induction names as [|name rest IH]; intros d.
  - split; [done|]. intros n.
    destruct (decide (n ∈ [])) as [H|]; [by apply elem_of_nil in H|done].
  - simpl. destruct (IH (unlink_upload name d)) as [Ht Hup].
    destruct (unlink_all rest (unlink_upload name d)) as [d' o]. simpl in *.
    split; [done|]. intros n. rewrite Hup.
    destruct (decide (n = name)) as [->|Hne].
    + rewrite lookup_delete_eq. rewrite (decide_True (P := name ∈ name :: rest));
        [by case_decide|]. apply elem_of_cons. by left.
    + rewrite lookup_delete_ne by done.
      destruct (decide (n ∈ rest)) as [Hin|Hnin].
      * rewrite decide_True; [done|]. apply elem_of_cons. by right.
      * rewrite decide_False; [done|]. intros [?|?]%elem_of_cons; done.
Qed.

Lemma deferred_step_sim (tA : Thread) (dA : Disk) (tC : Thread) (dC : Disk)
    (e : WorkerEvent) :
  NoDup (wd_files (workerData tC)) →
  deferred_rel tA dA tC dC →
  (∀ name rest r, phase tC = InLoop (name :: rest) → e = WFile r →
     delivers (uploadDir dA) name r) →
  match compressAndZip_deferred_step tA e dA, compressAndZip_step tC e dC with
  | Some (tA', dA', sA), Some (tC', dC', sC) => sA = sC ∧ deferred_rel tA' dA' tC' dC'
  | None, None => True
  | _, _ => False
  end.
Proof.
  intros Hnd (Hwd & Hp & Hnb & Hc & Ht & seen & HS & HL & HA & Hsub & Hup) Hdel.
  destruct tA as [wdA pA cA lA], tC as [wd p c l]. simpl in *. subst wdA pA cA.
  unfold compressAndZip_deferred_step, compressAndZip_step. simpl.
  destruct p as [|[|name rest]|rest| | | |], e as [[|]|r|[|]| |err|]; simpl; try done.
  all: try (split; [done|]; unfold deferred_rel; simpl; rewrite ?Ht;
            split_and!; try done; exists seen; split_and!; try done; fail).
  - split; [done|]. unfold deferred_rel. simpl. rewrite Ht. split_and!; try done.
    exists seen. split_and!; try done. intros ? [= <-]. by rewrite HS.
  - split; [done|]. unfold deferred_rel. simpl. rewrite Ht. split_and!; try done.
    exists seen. split_and!; try done. intros _. by rewrite (HL [] eq_refl), app_nil_r.
  - unfold process_file_deferred, process_file. simpl.
    pose proof (try_file_readFile_disk (worker_zipName wd) name r dA) as HdA.
    destruct (try_file_readFile (worker_zipName wd) name r dA) as [dA1 oA].
    simpl in HdA. subst dA1.
    assert (Hname : name ∉ seen).
    { rewrite (HL _ eq_refl) in Hnd. apply NoDup_app in Hnd as (_ & Hdis & _).
      intros Hin. apply (Hdis _ Hin). apply elem_of_cons. by left. }
    assert (Hlk : uploadDir dA !! name = uploadDir dC !! name).
    { rewrite Hup. by rewrite decide_False. }
    assert (Hsf : stream_fails name r dC = false).
    { apply (streams_deliver_head (uploadDir dC) name r dC eq_refl).
      specialize (Hdel name rest r eq_refl eq_refl). unfold delivers in *.
      by rewrite <- Hlk. }
    rewrite Hsf.
    pose proof (try_file_agree (worker_zipName wd) name r dA dC Ht Hlk) as Hagree.
    pose proof (try_file_uploadDir (worker_zipName wd) name r dA) as HuA.
    pose proof (try_file_uploadDir (worker_zipName wd) name r dC) as HuC.
    destruct (try_file (worker_zipName wd) name r dC) as [dC1 oC].
    simpl in *. split; [done|]. unfold deferred_rel. simpl. split_and!; try done.
    exists (seen ++ [name]). split_and!; try done.
    + intros ? [= <-]. by rewrite (HL _ eq_refl), <- app_assoc.
    + intros n Hin. apply elem_of_app in Hin as [Hin|Hin]; [by apply Hsub|].
      apply list_elem_of_singleton in Hin as ->. rewrite (HL _ eq_refl).
      apply elem_of_app. right. apply elem_of_cons. by left.
    + intros n. rewrite HuA, HuC. destruct (decide (n = name)) as [->|Hne].
      * rewrite lookup_delete_eq, decide_True; [done|].
        apply elem_of_app. right. by apply list_elem_of_singleton.
      * rewrite lookup_delete_ne, Hup by done.
        destruct (decide (n ∈ seen)) as [Hin|Hnin].
        -- rewrite decide_True; [done|]. apply elem_of_app. by left.
        -- rewrite decide_False; [done|]. intros [?|?%list_elem_of_singleton]%elem_of_app; done.
  - unfold close_deferred. simpl.
    set (d1 := mkDisk (uploadDir dA)
                 (alter (fun z => mkZip (entries z) (finalized z) true)
                        (worker_zipName wd) (tempCompressedDir dA))).
    destruct (unlink_all_lookup (wd_files wd) d1) as [Htmp Hall].
    destruct (unlink_all (wd_files wd) d1) as [d2 o]. simpl in *.
    split; [done|]. unfold deferred_rel. simpl. split_and!; try done.
    { by rewrite Htmp, Ht. }
    exists seen. split_and!; try done. intros n. rewrite Hall, Hup, (HA eq_refl).
    by destruct (decide (n ∈ wd_files wd)).
Qed.

Lemma compressAndZip_step_workerData (t : Thread) (e : WorkerEvent) (d : Disk) t' d' out :
  compressAndZip_step t e d = Some (t', d', out) → workerData t' = workerData t.
Proof.
  unfold compressAndZip_step, process_file.
  destruct (phase t) as [|[|name rest]|[|name rest]| | | |], e as [[|]|r|[|]| |err|];
    intros Hstep; simplify_eq; try done.
  all: destruct (try_file (worker_zipName (workerData t)) name r d); by simplify_eq.
Qed.

(** The files still to go through and the outcomes still to come, across
    one step of the present worker. *)
Lemma todo_step (t : Thread) (e : WorkerEvent) (d : Disk) t' d' out
    (evs : list WorkerEvent) (P : string * option bytes → Prop) :
  compressAndZip_step t e d = Some (t', d', out) →
  Forall P (zip (todo t) (file_outcomes (e :: evs))) →
  Forall P (zip (todo t') (file_outcomes evs))
  ∧ (is_close e = true → todo t' = []).
Proof.
  unfold compressAndZip_step, process_file, todo.
  destruct (phase t) as [|[|name rest]|[|name rest]| | | |], e as [[|]|r|[|]| |err|];
    intros Hstep HP; simplify_eq; simpl in *; try done.
  all: destruct (try_file (worker_zipName (workerData t)) name r d); simplify_eq; simpl.
  all: apply Forall_cons in HP as [_ HP].
  all: by destruct (stream_fails name r d).
Qed.

Lemma deferred_step_uploads (t : Thread) (e : WorkerEvent) (d : Disk) t' d' out :
  compressAndZip_deferred_step t e d = Some (t', d', out) →
  workerData t' = workerData t
  ∧ (∀ n, uploadDir d !! n = None → uploadDir d' !! n = None)
  ∧ if is_close e
    then ∀ n, n ∈ wd_files (workerData t) → uploadDir d' !! n = None
    else uploadDir d' = uploadDir d.
Proof.
  unfold compressAndZip_deferred_step, process_file_deferred, close_deferred.
  destruct (phase t) as [|[|name rest]|rest| | | |], e as [[|]|r|[|]| |err|];
    intros Hstep; simplify_eq; try done.
  - pose proof (try_file_readFile_disk (worker_zipName (workerData t)) name r d) as Hd.
    pose proof (try_file_uploadDir (worker_zipName (workerData t)) name r d) as Hu.
    destruct (try_file_readFile (worker_zipName (workerData t)) name r d) as [d1 o].
    simpl in *. simplify_eq. rewrite Hu. done.
  - set (d1 := mkDisk (uploadDir d)
                 (alter (fun z => mkZip (entries z) (finalized z) true)
                        (worker_zipName (workerData t)) (tempCompressedDir d))) in *.
    destruct (unlink_all_lookup (wd_files (workerData t)) d1) as [_ Hall].
    destruct (unlink_all (wd_files (workerData t)) d1) as [d2 o]. simpl in *.
    simplify_eq. split_and!; try done.
    + intros n Hn. rewrite Hall. by case_decide.
    + intros n Hn. rewrite Hall. by rewrite decide_True.
Qed.

Lemma deferred_run_sim (tA : Thread) (dA : Disk) (tC : Thread) (dC : Disk)
    (evs : list WorkerEvent) :
  NoDup (wd_files (workerData tC)) →
  deferred_rel tA dA tC dC →
  no_stream_fails (uploadDir dA) (todo tC) evs →
  match compressAndZip_deferred_run tA dA evs, compressAndZip_run tC dC evs with
  | Some (tA', dA', sA), Some (tC', dC', sC) =>
      sA = sC ∧ deferred_rel tA' dA' tC' dC' ∧ workerData tC' = workerData tC
  | None, None => True
  | _, _ => False
  end.
Proof.
  revert tA dA tC dC. induction evs as [|e evs IH]; intros tA dA tC dC Hnd Hrel Hok; [done|].
  simpl.
  assert (Hdel : ∀ name rest r, phase tC = InLoop (name :: rest) → e = WFile r →
                   delivers (uploadDir dA) name r).
  { intros name rest r Hp ->. unfold no_stream_fails, todo in Hok. rewrite Hp in Hok.
    simpl in Hok. by apply Forall_cons in Hok as [Hok _]. }
  pose proof (deferred_step_sim tA dA tC dC e Hnd Hrel Hdel) as Hstep.
  pose proof (compressAndZip_step_workerData tC e dC) as Hwd.
  pose proof (todo_step tC e dC) as Htodo.
  pose proof (deferred_step_uploads tA e dA) as HupA.
  destruct (compressAndZip_deferred_step tA e dA) as [[[tA1 dA1] sA1]|],
           (compressAndZip_step tC e dC) as [[[tC1 dC1] sC1]|]; try done.
  destruct Hstep as [-> Hrel1]. specialize (Hwd _ _ _ eq_refl).
  destruct (Htodo _ _ _ evs _ eq_refl Hok) as [Hok1 Hcl].
  destruct (HupA _ _ _ eq_refl) as (_ & _ & HuA).
  assert (Hok1' : no_stream_fails (uploadDir dA1) (todo tC1) evs).
  { unfold no_stream_fails. destruct (is_close e).
    - rewrite Hcl by done. constructor.
    - by rewrite HuA. }
  rewrite <- Hwd in Hnd. specialize (IH tA1 dA1 tC1 dC1 Hnd Hrel1 Hok1').
  destruct (compressAndZip_deferred_run tA1 dA1 evs) as [[[tA2 dA2] sA2]|],
           (compressAndZip_run tC1 dC1 evs) as [[[tC2 dC2] sC2]|]; try done.
  destruct IH as (-> & Hrel2 & Hwd2). split_and!; try done. congruence.
Qed.

(** What the worker of part_000 does to the upload area: nothing before
    the close of the archive, and at the close every file of the batch is
    removed. *)
Lemma deferred_run_uploads (t : Thread) (d : Disk) (evs : list WorkerEvent) t' d' out :
  compressAndZip_deferred_run t d evs = Some (t', d', out) →
  workerData t' = workerData t
  ∧ (∀ n, uploadDir d !! n = None → uploadDir d' !! n = None)
  ∧ if existsb is_close evs
    then ∀ n, n ∈ wd_files (workerData t) → uploadDir d' !! n = None
    else uploadDir d' = uploadDir d.
Proof.
  revert t d out. induction evs as [|e evs IH]; intros t d out Hrun; simpl in Hrun.
  - by simplify_eq.
  - destruct (compressAndZip_deferred_step t e d) as [[[t1 d1] o1]|] eqn:Hstep; [|done].
    destruct (compressAndZip_deferred_run t1 d1 evs) as [[[t2 d2] o2]|] eqn:Hrest; [|done].
    simplify_eq. destruct (deferred_step_uploads _ _ _ _ _ _ Hstep) as (Hwd1 & Hsub1 & Hc1).
    destruct (IH _ _ _ Hrest) as (Hwd2 & Hsub2 & Hc2). rewrite Hwd1 in *.
    split_and!; [by rewrite Hwd2|by auto|]. simpl.
    destruct (is_close e), (existsb is_close evs); simpl; try done.
    + intros n Hn. rewrite Hc2. by apply Hc1.
    + by rewrite Hc2.
Qed.

(** Where the two workers part: the read of a text file fails. The worker
    of part_000 awaits the read inside the per-file [try], logs the error,
    and completes with an archive without the file. The present worker has
    only queued a stream: the loop goes on, and the archive is never
    finalized. *)
Example deferred_catches_failed_read :
  signals_of (compressAndZip_deferred_run (spawn wd_text) disk_text failed_read_run)
  = [OnMessage (MsgProgress 1);
     OnMessage (MsgComplete (Path.join tempCompressedPath "compressed_images_b1.zip")
                            "compressed_images_b1.zip")]
  ∧ compressAndZip_run (spawn wd_text) disk_text failed_read_run = None
  ∧ signals_of (compressAndZip_run (spawn wd_text) disk_text
                  [WOpen true; WFile None; WUncaught "ENOENT"])
    = [OnMessage (MsgProgress 1); OnError "ENOENT"; OnExit 1].
Proof. vm_compute. done. Qed.

(** X19 (src/unnamed/part_000 lines 13-81 against worker.js lines 15-93).
    On a batch of distinct names, under the same outcomes of the external
    calls, and as long as no stream that the present worker queues for a
    file that is not an image fails (the file is in the upload area and
    its read succeeds), the worker that removes the uploads at the close of
    the archive and the present worker, which removes each upload after its
    turn, go through the same steps, post the same signals, and leave the
    same output area. They differ in the upload area only: before the
    close the earlier worker has removed nothing, so a run that fails
    leaves every upload of the batch behind; once the archive is closed
    both have removed the same files. A failed read is where the two part:
    the earlier worker catches it in the per-file [try], the present one
    does not ([deferred_catches_failed_read]). *)
Theorem deferred_removal_same_outcome (wd : WorkerData) (d : Disk)
    (evs : list WorkerEvent) :
  NoDup (wd_files wd) →
  no_stream_fails (uploadDir d) (wd_files wd) evs →
  match compressAndZip_deferred_run (spawn wd) d evs,
        compressAndZip_run (spawn wd) d evs with
  | Some (tA, dA, sA), Some (tC, dC, sC) =>
      sA = sC
      ∧ phase tA = phase tC
      ∧ completedCount tA = completedCount tC
      ∧ tempCompressedDir dA = tempCompressedDir dC
      ∧ uploadDir dA = if existsb is_close evs then uploadDir dC else uploadDir d
  | None, None => True
  | _, _ => False
  end.
Proof.
  intros Hnd Hok.
  assert (Hrel : deferred_rel (spawn wd) d (spawn wd) d).
  { unfold deferred_rel. simpl. split_and!; try done. exists []. split_and!; try done.
    intros n Hn. by apply elem_of_nil in Hn. }
  pose proof (deferred_run_sim (spawn wd) d (spawn wd) d evs Hnd Hrel Hok) as Hsim.
  pose proof (deferred_run_uploads (spawn wd) d evs) as Hup.
  destruct (compressAndZip_deferred_run (spawn wd) d evs) as [[[tA dA] sA]|],
           (compressAndZip_run (spawn wd) d evs) as [[[tC dC] sC]|]; try done.
  destruct Hsim as (-> & (Hwd & Hp & _ & Hc & Ht & seen & _ & _ & _ & Hsub & Hlk) & HwdC).
  destruct (Hup _ _ _ eq_refl) as (_ & _ & Hcl). split_and!; try done.
  destruct (existsb is_close evs); [|done].
  apply map_eq. intros n. rewrite Hlk. destruct (decide (n ∈ seen)) as [Hin|]; [|done].
  apply Hcl. apply Hsub in Hin. by rewrite HwdC in Hin.
Qed.

Lemma deferred_removal_same_outcome_witness :
  match compressAndZip_deferred_run (spawn wd_two) disk_two
          (full_run [Some [Byte.x09]; Some []]),
        compressAndZip_run (spawn wd_two) disk_two (full_run [Some [Byte.x09]; Some []]) with
  | Some (tA, dA, sA), Some (tC, dC, sC) =>
      sA = sC
      ∧ phase tA = phase tC
      ∧ completedCount tA = completedCount tC
      ∧ tempCompressedDir dA = tempCompressedDir dC
      ∧ uploadDir dA = if existsb is_close (full_run [Some [Byte.x09]; Some []])
                       then uploadDir dC else uploadDir disk_two
  | None, None => True
  | _, _ => False
  end.
Proof.
  assert (Hnd : NoDup (wd_files wd_two)).
  { apply (bool_decide_unpack _). vm_compute. reflexivity. }
  assert (Hok : no_stream_fails (uploadDir disk_two) (wd_files wd_two)
                  (full_run [Some [Byte.x09]; Some []])).
  { apply (bool_decide_unpack _). vm_compute. reflexivity. }
  exact (deferred_removal_same_outcome wd_two disk_two
           (full_run [Some [Byte.x09]; Some []]) Hnd Hok).
Defined.

(** ** The worker that sends every file to the codec *)

Lemma webp_step_sim (tB tC : Thread) (d : Disk) (e : WorkerEvent) :
  webp_rel tB tC →
  match compressAndZip_webp_step tB e d, compressAndZip_step tC e d with
  | Some (tB', dB', sB), Some (tC', dC', sC) => sB = sC ∧ dB' = dC' ∧ webp_rel tB' tC'
  | None, None => True
  | _, _ => False
  end.
Proof.
  intros (Hwd & Hp & Hc & Himg).
  destruct tB as [wdB pB cB lB], tC as [wd p c l]. simpl in *. subst wdB pB cB.
  unfold compressAndZip_webp_step, compressAndZip_step. simpl.
  destruct p as [|[|name rest]|rest| | | |], e as [[|]|r|[|]| |err|]; simpl; try done.
  apply Forall_cons in Himg as [Hname Himg].
  unfold process_file_webp, process_file, try_file_webp, try_file, stream_fails. simpl.
  rewrite Hname. by destruct r.
Qed.

Lemma webp_run_sim (tB tC : Thread) (d : Disk) (evs : list WorkerEvent) :
  webp_rel tB tC →
  match compressAndZip_webp_run tB d evs, compressAndZip_run tC d evs with
  | Some (tB', dB', sB), Some (tC', dC', sC) => sB = sC ∧ dB' = dC' ∧ webp_rel tB' tC'
  | None, None => True
  | _, _ => False
  end.
Proof.
  revert tB tC d. induction evs as [|e evs IH]; intros tB tC d Hrel; [done|].
  simpl. pose proof (webp_step_sim tB tC d e Hrel) as Hstep.
  destruct (compressAndZip_webp_step tB e d) as [[[tB1 dB1] sB1]|],
           (compressAndZip_step tC e d) as [[[tC1 dC1] sC1]|]; try done.
  destruct Hstep as (-> & -> & Hrel1). specialize (IH tB1 tC1 dC1 Hrel1).
  destruct (compressAndZip_webp_run tB1 dC1 evs) as [[[tB2 dB2] sB2]|],
           (compressAndZip_run tC1 dC1 evs) as [[[tC2 dC2] sC2]|]; try done.
  by destruct IH as (-> & -> & Hrel2).
Qed.

(** X20 (src/unnamed/part_000 lines 91-149 against worker.js lines 15-93).
    On a batch in which every name has an image extension, the worker that
    sends every file to the codec and the present worker, under the same
    outcomes of the external calls, go through the same steps, post the
    same signals and leave the same disk: the test on the extension
    changed nothing for images. *)
Theorem all_images_same_outcome (wd : WorkerData) (d : Disk) (evs : list WorkerEvent) :
  Forall (fun n => shouldCompress n = true) (wd_files wd) →
  match compressAndZip_webp_run (spawn wd) d evs, compressAndZip_run (spawn wd) d evs with
  | Some (tB, dB, sB), Some (tC, dC, sC) =>
      sB = sC ∧ dB = dC ∧ phase tB = phase tC ∧ completedCount tB = completedCount tC
  | None, None => True
  | _, _ => False
  end.
Proof.
  intros Himg.
  assert (Hrel : webp_rel (spawn wd) (spawn wd)) by (by unfold webp_rel).
  pose proof (webp_run_sim (spawn wd) (spawn wd) d evs Hrel) as Hsim.
  destruct (compressAndZip_webp_run (spawn wd) d evs) as [[[tB dB] sB]|],
           (compressAndZip_run (spawn wd) d evs) as [[[tC dC] sC]|]; try done.
  by destruct Hsim as (-> & -> & _ & ? & ? & _).
Qed.

Lemma all_images_same_outcome_witness :
  match compressAndZip_webp_run (spawn wd_images) disk_images
          (full_run [Some [Byte.x09]; None]),
        compressAndZip_run (spawn wd_images) disk_images (full_run [Some [Byte.x09]; None]) with
  | Some (tB, dB, sB), Some (tC, dC, sC) =>
      sB = sC ∧ dB = dC ∧ phase tB = phase tC ∧ completedCount tB = completedCount tC
  | None, None => True
  | _, _ => False
  end.
Proof.
  assert (Himg : Forall (fun n => shouldCompress n = true) (wd_files wd_images)).
  { apply (bool_decide_unpack _). vm_compute. reflexivity. }
  exact (all_images_same_outcome wd_images disk_images
           (full_run [Some [Byte.x09]; None]) Himg).
Defined.

(** ** A request served from end to end *)








